(** * radvel.likelihood: a shallow embedding and its verified properties

    The development follows [radvel/likelihood.py]: the generic [Likelihood],
    the single-instrument [RVLikelihood], the [CompositeLikelihood] that sums
    several of them over one shared parameter vector, and the Gaussian-process
    [GPLikelihood].

    Conventions of the embedding.
    - Python objects that are shared and mutated (the parameter vector, the
      [params] dictionaries, the cached [vary_params] attribute, the GP kernel)
      live in a [World]; likelihood records hold references into it.
    - Every method is a computation [M A := World -> Result A * World]: it
      returns a value or raises, and the world it leaves behind is the one at
      the point of the return or of the raise (Python does not roll back).
    - Floating-point numbers are an interface [Num]: the control flow of the
      code (NaN tests, finiteness tests, comparisons, infinities) is stated
      for every implementation of the interface.  [xnum], the rationals
      extended with the two infinities and NaN, is the implementation used to
      run the definitions in exact arithmetic; [Binary64], on the primitive
      floats, is the implementation with the rounding and the overflow of
      IEEE 754 binary64, the numbers of the program.
    - numpy, scipy, the RV model and the GP kernel are external to the
      repository: they appear as interfaces whose operations may raise. *)

From Stdlib Require Import ZArith QArith Qcanon Lia Bool Ascii String.
From Stdlib Require Floats.
From stdpp Require Import base numbers list strings.

Local Open Scope string_scope.
Local Open Scope list_scope.

(** ** Numbers *)

(** The operations the code performs on Python floats and numpy float64
    scalars.  [of_Q] stands for decimal literals and for the conversion of a
    Python [int] to a float. *)
Class Num (F : Type) := {
  fadd : F -> F -> F;
  fsub : F -> F -> F;
  fmul : F -> F -> F;
  fdiv : F -> F -> F;
  fneg : F -> F;
  of_Q : Q -> F;
  finf : F;
  fisnan : F -> bool;
  fisfinite : F -> bool;
  fltb : F -> F -> bool;
  feqb : F -> F -> bool
}.

Section NumDerived.
Context {F : Type} `{Num F}.

Definition of_Z (z : Z) : F := of_Q (inject_Z z).

Definition of_nat (n : nat) : F := of_Z (Z.of_nat n).

(** [x ** 2] *)
Definition fsq (x : F) : F := fmul x x.

(** Truth value of a number, as [if v:] and [not v] read it: [v != 0]. *)
Definition truthy (x : F) : bool := negb (feqb x (of_Q 0)).

(** [v == True], the comparison [list_vary_params] makes on the vary column. *)
Definition eq_True (x : F) : bool := feqb x (of_Q 1).

End NumDerived.

(** *** Extended rationals

    Exact arithmetic with the IEEE special values: a finite value is a
    canonical rational, [1/0] is [+inf], [0/0] and [inf - inf] are NaN, and NaN
    is absorbing and unequal to itself.  There is one zero and no rounding. *)
Inductive xnum : Type :=
  | Fin (q : Qc)
  | PInf
  | NInf
  | NaN.

Definition xinf_signed (c : comparison) : xnum :=
  match c with Gt => PInf | Lt => NInf | Eq => NaN end.

Definition sign_mul (c d : comparison) : comparison :=
  match c, d with
  | Eq, _ | _, Eq => Eq
  | Gt, Gt | Lt, Lt => Gt
  | _, _ => Lt
  end.

Definition xsign (a : xnum) : comparison :=
  match a with
  | Fin q => (q ?= 0)%Qc
  | PInf => Gt
  | NInf => Lt
  | NaN => Eq
  end.

Definition xadd (a b : xnum) : xnum :=
  match a, b with
  | NaN, _ | _, NaN => NaN
  | Fin p, Fin q => Fin (p + q)
  | PInf, NInf | NInf, PInf => NaN
  | PInf, _ | _, PInf => PInf
  | NInf, _ | _, NInf => NInf
  end.

Definition xneg (a : xnum) : xnum :=
  match a with
  | Fin q => Fin (- q)
  | PInf => NInf
  | NInf => PInf
  | NaN => NaN
  end.

Definition xsub (a b : xnum) : xnum := xadd a (xneg b).

Definition xmul (a b : xnum) : xnum :=
  match a, b with
  | NaN, _ | _, NaN => NaN
  | Fin p, Fin q => Fin (p * q)
  | _, _ => xinf_signed (sign_mul (xsign a) (xsign b))
  end.

Definition xdiv (a b : xnum) : xnum :=
  match a, b with
  | NaN, _ | _, NaN => NaN
  | Fin p, Fin q =>
      match (q ?= 0)%Qc with
      | Eq => xinf_signed (p ?= 0)%Qc
      | _ => Fin (p / q)
      end
  | Fin _, _ => Fin 0
  | _, Fin q =>
      match (q ?= 0)%Qc with
      | Eq => a
      | c => xinf_signed (sign_mul (xsign a) c)
      end
  | _, _ => NaN
  end.

Definition xisnan (a : xnum) : bool :=
  match a with NaN => true | _ => false end.

Definition xisfinite (a : xnum) : bool :=
  match a with Fin _ => true | _ => false end.

Definition xltb (a b : xnum) : bool :=
  match a, b with
  | NaN, _ | _, NaN => false
  | Fin p, Fin q => match (p ?= q)%Qc with Lt => true | _ => false end
  | _, NInf => false
  | PInf, _ => false
  | _, _ => true
  end.

Definition xeqb (a b : xnum) : bool :=
  match a, b with
  | Fin p, Fin q => match (p ?= q)%Qc with Eq => true | _ => false end
  | PInf, PInf | NInf, NInf => true
  | _, _ => false
  end.

#[global] Instance xnum_Num : Num xnum := {|
  fadd := xadd; fsub := xsub; fmul := xmul; fdiv := xdiv; fneg := xneg;
  of_Q := fun q => Fin (Q2Qc q);
  finf := PInf;
  fisnan := xisnan; fisfinite := xisfinite;
  fltb := xltb; feqb := xeqb
|}.

(** ** Exceptions and results *)

Inductive exn : Type :=
  | AssertionError (msg : string)
  | AttributeError
  | IndexError
  | KeyError (key : string)
  | TypeError
  | ValueError
  | LinAlgError
  | OverflowError.

Inductive Result (A : Type) : Type :=
  | Ok (a : A)
  | Raise (e : exn).

Arguments Ok {A} a.
Arguments Raise {A} e.

(** [d[k]] on a dictionary, kept as an association list in insertion order. *)
Fixpoint assoc {V : Type} (k : string) (d : list (string * V)) : option V :=
  match d with
  | [] => None
  | (k', v) :: d' => if String.eqb k k' then Some v else assoc k d'
  end.

Definition dict_get {V : Type} (d : list (string * V)) (k : string) : Result V :=
  match assoc k d with
  | Some v => Ok v
  | None => Raise (KeyError k)
  end.

(** [k in d] *)
Definition dict_mem {V : Type} (k : string) (d : list (string * V)) : bool :=
  match assoc k d with Some _ => true | None => false end.

(** [d[k] = v] for a key that is not in [d] yet: appended, as Python keeps
    insertion order. *)
Definition dict_add {V : Type} (d : list (string * V)) (k : string) (v : V)
  : list (string * V) := d ++ [(k, v)].

(** [l[i]] on a sequence. *)
Definition seq_get {A : Type} (l : list A) (i : nat) : Result A :=
  match l !! i with
  | Some a => Ok a
  | None => Raise IndexError
  end.

(** [s.split('_')] *)
Fixpoint split_underscore_aux (s : string) (cur : string) : list string :=
  match s with
  | EmptyString => [cur]
  | String c s' =>
      if Ascii.eqb c "_"%char then cur :: split_underscore_aux s' EmptyString
      else split_underscore_aux s' (cur ++ String c EmptyString)%string
  end.

Definition split_underscore (s : string) : list string :=
  split_underscore_aux s EmptyString.

(** [sub in s] on strings. *)
Fixpoint contains (sub s : string) : bool :=
  if String.prefix sub s then true
  else match s with
       | EmptyString => false
       | String _ s' => contains sub s'
       end.

(** ** The parameter vector and the parameters *)

Module Vector.

(** Modelled from the spec: [radvel.model.Vector] is not part of the source
    file.  The data model gives it a name-to-slot mapping [indices], a
    fixed-width storage with one row per slot, and the derived [names].  The
    code reads column 0 of a row as the value, column 1 as the vary flag and
    column 3 as the linear flag; all columns are numbers of one numpy array,
    so the flags are numbers too. *)
Record Row (F : Type) : Type := {
  value : F;
  vary : F;
  col2 : F;
  linear : F
}.

Arguments value {F} _.
Arguments vary {F} _.
Arguments col2 {F} _.
Arguments linear {F} _.

Record t (F : Type) : Type := {
  indices : list (string * nat);
  vector : list (Row F);
  names : list string
}.

Arguments indices {F} _.
Arguments vector {F} _.
Arguments names {F} _.

(** [row[0] = v] *)
Definition set_value {F : Type} (v : F) (r : Row F) : Row F :=
  {| value := v; vary := vary r; col2 := col2 r; linear := linear r |}.

(** The vector with [rows] as its storage. *)
Definition with_rows {F : Type} (rows : list (Row F)) (v : t F) : t F :=
  {| indices := indices v; vector := rows; names := names v |}.

End Vector.

Module Param.

(** Modelled from the spec: [radvel.model.Parameter] is not part of the source
    file; the data model describes it as the record [{value, vary}]. *)
Record t (F : Type) : Type := {
  value : F;
  vary : bool
}.

Arguments value {F} _.
Arguments vary {F} _.

(** Modelled from the spec: [Parameter._equals] is not part of the source
    file; composite construction requires identical [(value, vary)], values
    compared with [==]. *)
Definition _equals {F : Type} `{Num F} (p q : t F) : bool :=
  feqb (value p) (value q) && Bool.eqb (vary p) (vary q).

End Param.

(** ** The world and the monad of methods *)

(** The mutable objects.  [vectors] and [paramss] are the stores of
    [Vector] objects and of [params] dictionaries, addressed by object
    identity; [vary_params] is the attribute of that name of each likelihood
    object, absent until [list_vary_params] has run; [kernel] is the state of
    the GP kernel object; [warnings] and [stdout] record what
    [warnings.warn] and [print] emit. *)
Record World (F K : Type) : Type := {
  vectors : nat -> Vector.t F;
  paramss : nat -> list (string * Param.t F);
  vary_params : nat -> option (list nat);
  kernel : K;
  warnings : list (string * string);
  stdout : list string
}.

Arguments vectors {F K} _.
Arguments paramss {F K} _.
Arguments vary_params {F K} _.
Arguments kernel {F K} _.
Arguments warnings {F K} _.
Arguments stdout {F K} _.

Definition upd {A : Type} (h : nat -> A) (a : nat) (v : A) : nat -> A :=
  fun a' => if Nat.eqb a' a then v else h a'.

Section Monad.
Context {F K : Type}.

Definition M (A : Type) : Type := World F K -> Result A * World F K.

Definition ret {A : Type} (a : A) : M A := fun w => (Ok a, w).

Definition raise {A : Type} (e : exn) : M A := fun w => (Raise e, w).

Definition bind {A B : Type} (m : M A) (k : A -> M B) : M B :=
  fun w =>
    match m w with
    | (Ok a, w') => k a w'
    | (Raise e, w') => (Raise e, w')
    end.

(** A pure step that may raise. *)
Definition lift {A : Type} (r : Result A) : M A := fun w => (r, w).

(** Reads a component of the world. *)
Definition gets {A : Type} (f : World F K -> A) : M A := fun w => (Ok (f w), w).

Definition modify (f : World F K -> World F K) : M unit :=
  fun w => (Ok tt, f w).

(** [try: m  except ...:], the handler telling which exceptions it catches. *)
Definition try_except {A : Type} (m : M A) (h : exn -> option (M A)) : M A :=
  fun w =>
    match m w with
    | (Ok a, w') => (Ok a, w')
    | (Raise e, w') =>
        match h e with
        | Some k => k w'
        | None => (Raise e, w')
        end
    end.

(** [assert b, msg] *)
Definition assert (b : bool) (msg : string) : M unit :=
  if b then ret tt else raise (AssertionError msg).

(** [for a in l: body a] *)
Fixpoint for_each {A : Type} (l : list A) (body : A -> M unit) : M unit :=
  match l with
  | [] => ret tt
  | a :: l' => bind (body a) (fun _ => for_each l' body)
  end.

Definition set_vector (a : nat) (v : Vector.t F) (w : World F K) : World F K :=
  {| vectors := upd (vectors w) a v; paramss := paramss w;
     vary_params := vary_params w; kernel := kernel w;
     warnings := warnings w; stdout := stdout w |}.

Definition set_params (a : nat) (d : list (string * Param.t F))
    (w : World F K) : World F K :=
  {| vectors := vectors w; paramss := upd (paramss w) a d;
     vary_params := vary_params w; kernel := kernel w;
     warnings := warnings w; stdout := stdout w |}.

Definition set_vary_cache (o : nat) (c : option (list nat)) (w : World F K)
  : World F K :=
  {| vectors := vectors w; paramss := paramss w;
     vary_params := upd (vary_params w) o c; kernel := kernel w;
     warnings := warnings w; stdout := stdout w |}.

Definition set_kernel (k : K) (w : World F K) : World F K :=
  {| vectors := vectors w; paramss := paramss w;
     vary_params := vary_params w; kernel := k;
     warnings := warnings w; stdout := stdout w |}.

(** [warnings.warn(msg, category)] *)
Definition warn (msg category : string) : M unit :=
  modify (fun w =>
    {| vectors := vectors w; paramss := paramss w;
       vary_params := vary_params w; kernel := kernel w;
       warnings := warnings w ++ [(msg, category)]; stdout := stdout w |}).

(** [print(line)] *)
Definition print (line : string) : M unit :=
  modify (fun w =>
    {| vectors := vectors w; paramss := paramss w;
       vary_params := vary_params w; kernel := kernel w;
       warnings := warnings w; stdout := stdout w ++ [line] |}).

End Monad.

Declare Scope py_scope.
Delimit Scope py_scope with py.
Notation "x <- m ;; k" := (bind m (fun x => k))
  (at level 100, m at next level, right associativity) : py_scope.
Notation "m ;;; k" := (bind m (fun _ => k))
  (at level 100, right associativity) : py_scope.
Local Open Scope py_scope.

(** ** numpy *)

(** The numpy functions whose numerical behaviour is numpy's own: the
    reductions, the elementary functions, the evaluation [np.poly1d(c)(x)] of
    a polynomial given by its coefficients, highest degree first, and the
    unspecified content of the cells of [np.empty]. *)
Class NumPy (F : Type) := {
  np_sum : list F -> F;
  np_mean : list F -> F;
  np_log : F -> F;
  np_sqrt : F -> F;
  np_pi : F;
  np_polyval : list F -> F -> F;
  np_empty_item : nat -> F
}.

Section Arrays.
Context {F : Type}.

Fixpoint zip_with_ {A B C : Type} (f : A -> B -> C) (a : list A) (b : list B)
  : list C :=
  match a, b with
  | u :: a', v :: b' => f u v :: zip_with_ f a' b'
  | _, _ => []
  end.

(** An elementwise operation on two one-dimensional arrays: equal lengths, or
    one of them of length one (broadcast); any other pair of shapes raises
    [ValueError]. *)
Definition np_binop (f : F -> F -> F) (a b : list F) : Result (list F) :=
  if Nat.eqb (length a) (length b) then Ok (zip_with_ f a b)
  else match a, b with
       | [u], _ => Ok (map (f u) b)
       | _, [v] => Ok (map (fun u => f u v) a)
       | _, _ => Raise ValueError
       end.

(** The in-place form [a -= b]: the result has the shape of [a], so only [b]
    may be broadcast. *)
Definition np_inplace (f : F -> F -> F) (a b : list F) : Result (list F) :=
  if Nat.eqb (length a) (length b) then Ok (zip_with_ f a b)
  else match b with
       | [v] => Ok (map (fun u => f u v) a)
       | _ => Raise ValueError
       end.

(** [a[mask] = v] for a boolean mask and a scalar. *)
Definition mask_assign (a : list F) (mask : list bool) (v : F)
  : Result (list F) :=
  if Nat.eqb (length mask) (length a)
  then Ok (zip_with_ (fun (m : bool) u => if m then v else u) mask a)
  else Raise IndexError.

(** [np.empty(n)] *)
Definition np_empty `{NumPy F} (n : nat) : list F :=
  map np_empty_item (seq 0 n).

(** The elements of a sequence at the given positions, [IndexError] on the
    first position out of range. *)
Fixpoint take_at {A : Type} (l : list A) (idxs : list nat) : Result (list A) :=
  match idxs with
  | [] => Ok []
  | i :: rest =>
      match seq_get l i with
      | Raise e => Raise e
      | Ok a =>
          match take_at l rest with
          | Raise e => Raise e
          | Ok r => Ok (a :: r)
          end
      end
  end.

End Arrays.

(** ** Likelihood *)

Module Likelihood.

(** The attributes of a [Likelihood] that its methods read.  [vector] and
    [params] are references into the world, [oid] is the identity of the
    object (its [vary_params] attribute is [vary_params w oid]).  [Model] is
    the type of the external model objects. *)
Record t (F Model : Type) : Type := {
  oid : nat;
  model : Model;
  vector : nat;
  params : nat;
  x : list F;
  y : list F;
  yerr : list F;
  uparams : option (list (string * F))
}.

Arguments oid {F Model} _.
Arguments model {F Model} _.
Arguments vector {F Model} _.
Arguments params {F Model} _.
Arguments x {F Model} _.
Arguments y {F Model} _.
Arguments yerr {F Model} _.
Arguments uparams {F Model} _.

(** The external call [model(x)]: it reads the world and may raise. *)
Class ModelCall (F K Model : Type) := {
  model_call : Model -> World F K -> list F -> Result (list F)
}.

(** The methods a subclass supplies: [logprob] is abstract in the base class. *)
Class Methods (F K Model T : Type) := {
  self_base : T -> t F Model;
  call_logprob : T -> @M F K F
}.

Section Methods.
Context {F K Model : Type} `{Num F} `{NumPy F} `{ModelCall F K Model}.

Abbreviation Lik := (t F Model).

(** [np.where(rows[:,1] == True)[0]], the positions counted from [i]. *)
Fixpoint vary_mask_from (i : nat) (rows : list (Vector.Row F)) : list nat :=
  match rows with
  | [] => []
  | r :: rows' =>
      if eq_True (Vector.vary r) then i :: vary_mask_from (S i) rows'
      else vary_mask_from (S i) rows'
  end.

Definition vary_mask (rows : list (Vector.Row F)) : list nat :=
  vary_mask_from 0 rows.

Definition list_vary_params (self : Lik) : @M F K unit :=
  modify (fun w =>
    set_vary_cache (oid self)
      (Some (vary_mask (Vector.vector (vectors w (vector self))))) w).

(** The loop of [set_vary_params]; the right-hand side [param_values_array[i]]
    is evaluated before the row is looked up.  Returns the final [i]. *)
Fixpoint write_values (vec : nat) (idxs : list nat) (vals : list F) (i : nat)
  : @M F K nat :=
  match idxs with
  | [] => ret i
  | index :: rest =>
      v <- lift (seq_get vals i) ;;
      rows <- gets (fun w => Vector.vector (vectors w vec)) ;;
      row <- lift (seq_get rows index) ;;
      modify (fun w =>
        set_vector vec
          (Vector.with_rows (<[index := Vector.set_value v row]> rows)
             (vectors w vec)) w) ;;;
      write_values vec rest vals (S i)
  end.

(** [self.vary_params], [AttributeError] while the attribute is not set. *)
Definition read_vary_params (self : Lik) : @M F K (list nat) :=
  c <- gets (fun w => vary_params w (oid self)) ;;
  match c with
  | Some l => ret l
  | None => raise AttributeError
  end.

Definition catch_AttributeError {A : Type} (k : @M F K A) (e : exn)
  : option (@M F K A) :=
  match e with AttributeError => Some k | _ => None end.

Definition set_vary_params (self : Lik) (param_values_array : list F)
  : @M F K unit :=
  try_except
    (l <- read_vary_params self ;;
     if negb (Nat.eqb (length l) (length param_values_array))
     then list_vary_params self
     else ret tt)
    (catch_AttributeError (list_vary_params self)) ;;;
  l <- read_vary_params self ;;
  i <- write_values (vector self) l param_values_array 0 ;;
  assert (Nat.eqb i (length param_values_array))
    "Length of array must match number of varied parameters".

(** [self.vector.vector[self.vary_params][:,0]] *)
Definition read_vary_values (self : Lik) : @M F K (list F) :=
  l <- read_vary_params self ;;
  rows <- gets (fun w => Vector.vector (vectors w (vector self))) ;;
  sel <- lift (take_at rows l) ;;
  ret (map Vector.value sel).

Definition get_vary_params (self : Lik) : @M F K (list F) :=
  try_except (read_vary_values self)
    (catch_AttributeError (list_vary_params self ;;; read_vary_values self)).

(** [name_vary_params]: both branches of the source build the same list. *)
Definition read_vary_names (self : Lik) : @M F K (list string) :=
  l <- read_vary_params self ;;
  nms <- gets (fun w => Vector.names (vectors w (vector self))) ;;
  lift (take_at nms l).

Definition name_vary_params (self : Lik) : @M F K (list string) :=
  try_except (read_vary_names self)
    (catch_AttributeError (list_vary_params self ;;; read_vary_names self)).

(** The base-class [residuals]: [self.y - self.model(self.x)]. *)
Definition residuals (self : Lik) : @M F K (list F) :=
  w <- gets id ;;
  mod_ <- lift (model_call (model self) w (x self)) ;;
  lift (np_binop fsub (y self) mod_).

Context {T : Type} `{Methods F K Model T}.

Definition neglogprob (self : T) : @M F K F :=
  l <- call_logprob self ;;
  ret (fmul (of_Q (-1)) l).

Definition logprob_array (self : T) (params_array : list F) : @M F K F :=
  set_vary_params (self_base self) params_array ;;;
  _logprob <- call_logprob self ;;
  ret _logprob.

Definition neglogprob_array (self : T) (params_array : list F) : @M F K F :=
  l <- logprob_array self params_array ;;
  ret (fneg l).

Definition bic (self : T) : @M F K F :=
  let n := length (y (self_base self)) in
  vals <- get_vary_params (self_base self) ;;
  let k := length vals in
  l <- call_logprob self ;;
  ret (fsub (fmul (np_log (of_nat n)) (of_nat k)) (fmul (of_Q 2) l)).

Definition aic_warning : list string :=
  [ "Warning: The number of free parameters is greater than or equal to";
    "         the number of data points. The AICc comparison calculations";
    "         will fail in this case." ].

(** [n - k - 1.0]: the difference of the two integers, then a float. *)
Definition aic_denom (n k : nat) : F :=
  fsub (of_Z (Z.of_nat n - Z.of_nat k)) (of_Q 1).

Definition aic (self : T) : @M F K F :=
  let n := length (y (self_base self)) in
  vals <- get_vary_params (self_base self) ;;
  let k := length vals in
  l <- call_logprob self ;;
  let aic := fadd (fmul (of_Q (-2)) l) (fmul (of_Q 2) (of_nat k)) in
  let denom := aic_denom n k in
  if fltb (of_Q 0) denom
  then ret (fadd aic
              (fdiv (fmul (fmul (of_Q 2) (of_nat k)) (fadd (of_nat k) (of_Q 1)))
                    denom))
  else for_each aic_warning print ;;; ret finf.

End Methods.

End Likelihood.

(** ** loglike_jitter *)

Section LoglikeJitter.
Context {F : Type} `{Num F} `{NumPy F}.

(** [sigma**2 + sigma_jit**2] with a numpy scalar for [sigma_jit], as the
    methods read it from the storage of the vector. *)
Definition sum_sig_quad (sigma : list F) (sigma_jit : F) : list F :=
  map (fun s => fadd (fsq s) (fsq sigma_jit)) sigma.

(** A scalar argument is a numpy [float64], which is what an entry of the
    vector's storage is, or a Python [float], which is what a caller of the
    module-level function may pass. *)
Inductive Scalar : Type :=
  | NpFloat (v : F)
  | PyFloat (v : F).

(** [x ** 2] on a scalar.  numpy squares a [float64] by the rules of IEEE
    arithmetic, an overflow giving an infinity.  Python raises
    [OverflowError] when the square of a finite [float] is not finite; the
    infinities and NaN are squared without an error. *)
Definition scalar_sq (x : Scalar) : Result F :=
  match x with
  | NpFloat v => Ok (fsq v)
  | PyFloat v =>
      if fisfinite v && negb (fisfinite (fsq v)) then Raise OverflowError
      else Ok (fsq v)
  end.

(** [sigma**2] is evaluated first, then [sigma_jit**2], then their sum. *)
Definition loglike_jitter (residuals sigma : list F) (sigma_jit : Scalar)
  : Result F :=
  match scalar_sq sigma_jit with
  | Raise e => Raise e
  | Ok jsq =>
      let ssq := map (fun s => fadd (fsq s) jsq) sigma in
      let penalty :=
        np_sum (map (fun s => np_log (np_sqrt (fmul (fmul (of_Q 2) np_pi) s)))
                  ssq) in
      match np_binop fdiv (map fsq residuals) ssq with
      | Raise e => Raise e
      | Ok q =>
          let chi2 := np_sum q in
          Ok (fsub (fmul (of_Q (-1 # 2)) chi2) penalty)
      end
  end.

End LoglikeJitter.

Arguments Scalar : clear implicits.

(** ** RVLikelihood *)

Module RVLikelihood.

Record t (F Model : Type) : Type := {
  base : Likelihood.t F Model;
  gamma_param : string;
  jit_param : string;
  extra_params : list string;
  suffix : string;
  telvec : list string;
  decorr_params : list string;
  decorr_vectors : list (string * list F);
  gamma_index : nat;
  jit_index : nat;
  hnames : option (list string)
}.

Arguments base {F Model} _.
Arguments gamma_param {F Model} _.
Arguments jit_param {F Model} _.
Arguments extra_params {F Model} _.
Arguments suffix {F Model} _.
Arguments telvec {F Model} _.
Arguments decorr_params {F Model} _.
Arguments decorr_vectors {F Model} _.
Arguments gamma_index {F Model} _.
Arguments jit_index {F Model} _.
Arguments hnames {F Model} _.

Section Methods.
Context {F K Model : Type} `{Num F} `{NumPy F}
  `{Likelihood.ModelCall F K Model}.

Abbreviation RV := (t F Model).

Definition rows_of (self : RV) : @M F K (list (Vector.Row F)) :=
  gets (fun w => Vector.vector (vectors w (Likelihood.vector (base self)))).

(** [self.vector.vector[i]] *)
Definition row_at (self : RV) (i : nat) : @M F K (Vector.Row F) :=
  rows <- rows_of self ;;
  lift (seq_get rows i).

(** [self.vector.vector[i][0] = v] *)
Definition write_value (self : RV) (i : nat) (v : F) : @M F K unit :=
  row <- row_at self i ;;
  modify (fun w =>
    let vec := Likelihood.vector (base self) in
    set_vector vec
      (Vector.with_rows
         (<[i := Vector.set_value v row]> (Vector.vector (vectors w vec)))
         (vectors w vec)) w).

(** The test [row[3] and not row[1]] on the offset's row. *)
Definition gamma_is_linear (row : Vector.Row F) : bool :=
  truthy (Vector.linear row) && negb (truthy (Vector.vary row)).

(** [1/(yerr**2 + jit**2)] *)
Definition inv_var (yerr : list F) (jit : F) : list F :=
  map (fun s => fdiv (of_Q 1) s) (sum_sig_quad yerr jit).

(** The quotient of the two sums that [residuals] assigns to [ztil]. *)
Definition ztil_quotient (diff yerr : list F) (jit : F) : Result F :=
  match np_binop fdiv diff (sum_sig_quad yerr jit) with
  | Raise e => Raise e
  | Ok q => Ok (fdiv (np_sum q) (np_sum (inv_var yerr jit)))
  end.

(** [if np.isnan(ztil): ztil = 0.0] *)
Definition nan_to_zero (z : F) : F := if fisnan z then of_Q 0 else z.

(** The linear elimination of the offset, the first [if] of [residuals]. *)
Definition eliminate_gamma (self : RV) (mod_ : list F) : @M F K unit :=
  row <- row_at self (gamma_index self) ;;
  if gamma_is_linear row then
    diff <- lift (np_binop fsub (Likelihood.y (base self)) mod_) ;;
    jrow <- row_at self (jit_index self) ;;
    z <- lift (ztil_quotient diff (Likelihood.yerr (base self))
                 (Vector.value jrow)) ;;
    write_value self (gamma_index self) (nan_to_zero z)
  else ret tt.

(** [pars]: the values of the decorrelation parameters whose name contains
    [var], in the order of [decorr_params], then [0.0]. *)
Fixpoint decorr_pars (self : RV) (var : string) (pars : list string)
  : @M F K (list F) :=
  match pars with
  | [] => ret [of_Q 0]
  | par :: rest =>
      if contains var par then
        idx <- gets (fun w =>
                 Vector.indices (vectors w (Likelihood.vector (base self)))) ;;
        i <- lift (dict_get idx par) ;;
        row <- row_at self i ;;
        tl <- decorr_pars self var rest ;;
        ret (Vector.value row :: tl)
      else decorr_pars self var rest
  end.

(** [(np.isfinite(v)).all()] *)
Definition all_finite (v : list F) : bool := forallb fisfinite v.

(** [p(vec)] for [vec = v - np.mean(v)] and [p = np.poly1d(pars)]. *)
Definition decorr_term (pars v : list F) : list F :=
  map (np_polyval pars) (map (fun u => fsub u (np_mean v)) v).

(** The body of the loop over [decorr_params]. *)
Definition decorr_step (self : RV) (parname : string) (res : list F)
  : @M F K (list F) :=
  var <- lift (seq_get (split_underscore parname) 1) ;;
  pars <- decorr_pars self var (decorr_params self) ;;
  v <- lift (dict_get (decorr_vectors self) var) ;;
  if all_finite v
  then lift (np_inplace fsub res (decorr_term pars v))
  else ret res.

Fixpoint decorr_loop (self : RV) (parnames : list string) (res : list F)
  : @M F K (list F) :=
  match parnames with
  | [] => ret res
  | parname :: rest =>
      res' <- decorr_step self parname res ;;
      decorr_loop self rest res'
  end.

(** [residuals] up to [res = self.y - gamma - mod]. *)
Definition base_residuals (self : RV) : @M F K (list F) :=
  w <- gets id ;;
  mod_ <- lift (Likelihood.model_call (Likelihood.model (base self)) w
                  (Likelihood.x (base self))) ;;
  eliminate_gamma self mod_ ;;;
  grow <- row_at self (gamma_index self) ;;
  let shifted :=
    map (fun u => fsub u (Vector.value grow)) (Likelihood.y (base self)) in
  lift (np_binop fsub shifted mod_).

Definition residuals (self : RV) : @M F K (list F) :=
  res <- base_residuals self ;;
  decorr_loop self (decorr_params self) res.

Definition errorbars (self : RV) : @M F K (list F) :=
  jrow <- row_at self (jit_index self) ;;
  ret (map np_sqrt
         (sum_sig_quad (Likelihood.yerr (base self)) (Vector.value jrow))).

Definition logprob (self : RV) : @M F K F :=
  jrow <- row_at self (jit_index self) ;;
  let sigma_jit := Vector.value jrow in
  residuals <- residuals self ;;
  loglike <- lift (loglike_jitter residuals (Likelihood.yerr (base self))
                     (NpFloat sigma_jit)) ;;
  grow <- row_at self (gamma_index self) ;;
  if gamma_is_linear grow then
    let sigz :=
      fdiv (of_Q 1)
        (np_sum (inv_var (Likelihood.yerr (base self)) sigma_jit)) in
    ret (fadd loglike (np_log (np_sqrt (fmul (fmul (of_Q 2) np_pi) sigz))))
  else ret loglike.

#[global] Instance methods : Likelihood.Methods F K Model RV := {|
  Likelihood.self_base := base;
  Likelihood.call_logprob := logprob
|}.

End Methods.

End RVLikelihood.

(** ** CompositeLikelihood *)

(** [list(set(l))]: the names of [l] without repetition, in the iteration
    order of a Python set, which the interpreter chooses. *)
Class PySet := {
  list_set : list string -> list string
}.

Module CompositeLikelihood.

(** [self.suffixes] is the first child's [suffix], a string, until
    [np.append] makes it an array of strings. *)
Inductive StrOrArray : Type :=
  | Str (s : string)
  | Arr (l : list string).

Definition append_suffix (a : StrOrArray) (s : string) : StrOrArray :=
  match a with
  | Str s0 => Arr [s0; s]
  | Arr l => Arr (l ++ [s])
  end.

Record t (F Model : Type) : Type := {
  nlike : nat;
  base : Likelihood.t F Model;
  telvec : list string;
  extra_params : list string;
  suffixes : StrOrArray;
  hnames : list string;
  like_list : list (RVLikelihood.t F Model)
}.

Arguments nlike {F Model} _.
Arguments base {F Model} _.
Arguments telvec {F Model} _.
Arguments extra_params {F Model} _.
Arguments suffixes {F Model} _.
Arguments hnames {F Model} _.
Arguments like_list {F Model} _.

Section Methods.
Context {F K Model : Type} `{Num F} `{NumPy F}
  `{Likelihood.ModelCall F K Model} `{PySet}.

Abbreviation RV := (RVLikelihood.t F Model).
Abbreviation Composite := (t F Model).

(** [self.uparams = self.uparams.update(like.uparams)] under
    [except AttributeError: self.uparams = None].  [None.update] raises the
    [AttributeError] that is caught; [dict.update] returns [None], and raises
    [TypeError] when its argument is [None]. *)
Definition update_uparams (mine theirs : option (list (string * F)))
  : @M F K (option (list (string * F))) :=
  match mine, theirs with
  | None, _ => ret None
  | Some _, Some _ => ret None
  | Some _, None => raise TypeError
  end.

(** The loop [for k in like.params] of the constructor: [params] is the
    dictionary of the first child, which the loop extends in place. *)
Fixpoint merge_params (params like_params : nat) (keys : list string)
  : @M F K unit :=
  match keys with
  | [] => ret tt
  | k :: rest =>
      mine <- gets (fun w => paramss w params) ;;
      theirs <- gets (fun w => paramss w like_params) ;;
      p <- lift (dict_get theirs k) ;;
      (if dict_mem k mine then
         q <- lift (dict_get mine k) ;;
         assert (Param._equals p q) ("Name=" ++ k)%string
       else modify (set_params params (dict_add mine k p))) ;;;
      merge_params params like_params rest
  end.

(** [like.vector.vector[like.vector.indices[like.gamma_param]][0]] *)
Definition gamma_value (like : RV) : @M F K F :=
  v <- gets (fun w => vectors w (Likelihood.vector (RVLikelihood.base like))) ;;
  i <- lift (dict_get (Vector.indices v) (RVLikelihood.gamma_param like)) ;;
  row <- lift (seq_get (Vector.vector v) i) ;;
  ret (Vector.value row).

(** One turn of the loop [for i in range(1, self.nlike)] of the constructor. *)
Definition absorb (params vector : nat) (self : Composite) (like : RV)
  : @M F K Composite :=
  let b := base self in
  let lb := RVLikelihood.base like in
  let x' := Likelihood.x b ++ Likelihood.x lb in
  g <- gamma_value like ;;
  let y' := Likelihood.y b ++ map (fun u => fsub u g) (Likelihood.y lb) in
  let yerr' := Likelihood.yerr b ++ Likelihood.yerr lb in
  let telvec' := telvec self ++ RVLikelihood.telvec like in
  let extra' := extra_params self ++ RVLikelihood.extra_params like in
  let suffixes' := append_suffix (suffixes self) (RVLikelihood.suffix like) in
  let hnames' :=
    match RVLikelihood.hnames like with
    | Some h => hnames self ++ h
    | None => hnames self
    end in
  uparams' <- update_uparams (Likelihood.uparams b) (Likelihood.uparams lb) ;;
  keys <- gets (fun w => map fst (paramss w (Likelihood.params lb))) ;;
  merge_params params (Likelihood.params lb) keys ;;;
  assert (Nat.eqb (Likelihood.vector lb) vector)
    "Likelihoods must hold the same vector" ;;;
  ret {| nlike := nlike self;
         base := {| Likelihood.oid := Likelihood.oid b;
                    Likelihood.model := Likelihood.model b;
                    Likelihood.vector := Likelihood.vector b;
                    Likelihood.params := Likelihood.params b;
                    Likelihood.x := x';
                    Likelihood.y := y';
                    Likelihood.yerr := yerr';
                    Likelihood.uparams := uparams' |};
         telvec := telvec';
         extra_params := extra';
         suffixes := suffixes';
         hnames := hnames';
         like_list := like_list self |}.

Fixpoint absorb_all (params vector : nat) (self : Composite) (likes : list RV)
  : @M F K Composite :=
  match likes with
  | [] => ret self
  | like :: rest =>
      self' <- absorb params vector self like ;;
      absorb_all params vector self' rest
  end.

(** [CompositeLikelihood.__init__]; [self_oid] is the identity of the object
    under construction. *)
Definition __init__ (self_oid : nat) (like_list : list RV)
  : @M F K Composite :=
  like0 <- lift (seq_get like_list 0) ;;
  let b0 := RVLikelihood.base like0 in
  let params := Likelihood.params b0 in
  let vector := Likelihood.vector b0 in
  let self0 :=
    {| nlike := length like_list;
       base := {| Likelihood.oid := self_oid;
                  Likelihood.model := Likelihood.model b0;
                  Likelihood.vector := vector;
                  Likelihood.params := params;
                  Likelihood.x := Likelihood.x b0;
                  Likelihood.y := Likelihood.y b0;
                  Likelihood.yerr := Likelihood.yerr b0;
                  Likelihood.uparams := Likelihood.uparams b0 |};
       telvec := RVLikelihood.telvec like0;
       extra_params := RVLikelihood.extra_params like0;
       suffixes := Str (RVLikelihood.suffix like0);
       hnames := [];
       like_list := like_list |} in
  self <- absorb_all params vector self0 (tail like_list) ;;
  ret {| nlike := nlike self;
         base := base self;
         telvec := telvec self;
         extra_params := list_set (extra_params self);
         suffixes := suffixes self;
         hnames := hnames self;
         like_list := like_list |}.

(** The loop of [logprob], [_logprob] being the running sum. *)
Fixpoint sum_logprob (likes : list RV) (_logprob : F) : @M F K F :=
  match likes with
  | [] => ret _logprob
  | like :: rest =>
      l <- RVLikelihood.logprob like ;;
      sum_logprob rest (fadd _logprob l)
  end.

Definition logprob (self : Composite) : @M F K F :=
  sum_logprob (like_list self) (of_Z 0).

(** The loops of [residuals] and [errorbars]: [res = np.append(res, ...)]. *)
Fixpoint append_each (f : RV -> @M F K (list F)) (likes : list RV)
    (res : list F) : @M F K (list F) :=
  match likes with
  | [] => ret res
  | like :: rest =>
      r <- f like ;;
      append_each f rest (res ++ r)
  end.

Definition residuals (self : Composite) : @M F K (list F) :=
  like0 <- lift (seq_get (like_list self) 0) ;;
  res <- RVLikelihood.residuals like0 ;;
  append_each RVLikelihood.residuals (tail (like_list self)) res.

Definition errorbars (self : Composite) : @M F K (list F) :=
  like0 <- lift (seq_get (like_list self) 0) ;;
  err <- RVLikelihood.errorbars like0 ;;
  append_each RVLikelihood.errorbars (tail (like_list self)) err.

#[global] Instance methods : Likelihood.Methods F K Model Composite := {|
  Likelihood.self_base := base;
  Likelihood.call_logprob := logprob
|}.

End Methods.

End CompositeLikelihood.

(** ** GPLikelihood *)

Definition Matrix (F : Type) : Type := list (list F).

(** The first argument of [kernel.compute_covmatrix]: the array of error
    bars, or the scalar [0.]. *)
Inductive ErrArg (F : Type) : Type :=
  | ErrArray (e : list F)
  | ErrScalar (s : F).

Arguments ErrArray {F} e.
Arguments ErrScalar {F} s.

(** Its [amp_matrix] argument: a matrix, or the one-element list that
    [predict] passes for the prediction covariance. *)
Inductive AmpArg (F : Type) : Type :=
  | AmpMatrix (m : Matrix F)
  | AmpList (l : list F).

Arguments AmpMatrix {F} m.
Arguments AmpList {F} l.

(** The kernel object of [radvel.gp], with state [K]: assignment to and
    reading of [hparams[name].value], [amps_array], [compute_distances],
    [compute_covmatrix] (which returns the matrix and stores it) and the
    stored [covmatrix]. *)
Class Kernel (F K : Type) := {
  set_hparam : K -> string -> F -> Result K;
  hparam_value : K -> string -> Result F;
  amps_array : K -> list string;
  compute_distances : K -> list F -> list F -> Result K;
  compute_covmatrix : K -> ErrArg F -> option (AmpArg F) -> Result (Matrix F * K);
  covmatrix : K -> Matrix F
}.

(** scipy's [cho_factor] and [cho_solve] (on a vector and on a matrix) and the
    numpy matrix functions that [logprob] and [predict] call. *)
Class LinAlg (F Factor : Type) := {
  cho_factor : Matrix F -> Result Factor;
  cho_solve_vec : Factor -> list F -> Result (list F);
  cho_solve_mat : Factor -> Matrix F -> Result (Matrix F);
  slogdet : Matrix F -> Result (F * F);
  dot_vec : list F -> list F -> Result F;
  dot_mat : Matrix F -> Matrix F -> Result (Matrix F);
  sub_mat : Matrix F -> Matrix F -> Result (Matrix F);
  transpose : Matrix F -> Matrix F;
  diag : Matrix F -> Result (list F)
}.

Module GPLikelihood.

Record t (F Model : Type) : Type := {
  composite : CompositeLikelihood.t F Model;
  hnames : list string;
  N : nat;
  insts : list string;
  inst_indices : list nat
}.

Arguments composite {F Model} _.
Arguments hnames {F Model} _.
Arguments N {F Model} _.
Arguments insts {F Model} _.
Arguments inst_indices {F Model} _.

Section Methods.
Context {F K Model Factor : Type} `{Num F} `{NumPy F}
  `{Likelihood.ModelCall F K Model} `{PySet} `{Kernel F K} `{LinAlg F Factor}.

Abbreviation GP := (t F Model).

Definition self_base (self : GP) : Likelihood.t F Model :=
  CompositeLikelihood.base (composite self).

Definition the_vector (self : GP) : @M F K (Vector.t F) :=
  gets (fun w => vectors w (Likelihood.vector (self_base self))).

(** A method of the kernel that changes its state. *)
Definition on_kernel (f : K -> Result K) : @M F K unit :=
  k <- gets kernel ;;
  k' <- lift (f k) ;;
  modify (set_kernel k').

(** [self.kernel.compute_covmatrix(errors, amp_matrix=amp)] *)
Definition kernel_covmatrix (errors : ErrArg F) (amp : option (AmpArg F))
  : @M F K (Matrix F) :=
  k <- gets kernel ;;
  r <- lift (compute_covmatrix k errors amp) ;;
  modify (set_kernel (snd r)) ;;;
  ret (fst r).

(** The loop of [update_kernel_params] over the keys of [vector.indices]. *)
Fixpoint update_keys (self : GP) (keys : list string) : @M F K unit :=
  match keys with
  | [] => ret tt
  | key :: rest =>
      (if existsb (String.eqb key) (hnames self) then
         v <- the_vector self ;;
         i <- lift (dict_get (Vector.indices v) key) ;;
         row <- lift (seq_get (Vector.vector v) i) ;;
         on_kernel (fun k => set_hparam k key (Vector.value row))
       else ret tt) ;;;
      update_keys self rest
  end.

Definition update_kernel_params (self : GP) : @M F K unit :=
  v <- the_vector self ;;
  update_keys self (map fst (Vector.indices v)).

(** The loop that fills [gammas]: point [j] receives the offset of
    instrument [i] when [inst_indices[j] == i]. *)
Fixpoint fill_gammas (self : GP) (is_ : list nat) (gammas : list F)
  : @M F K (list F) :=
  match is_ with
  | [] => ret gammas
  | i :: rest =>
      inst <- lift (seq_get (insts self) i) ;;
      let gamma_key := ("gamma_" ++ inst)%string in
      v <- the_vector self ;;
      idx <- lift (dict_get (Vector.indices v) gamma_key) ;;
      row <- lift (seq_get (Vector.vector v) idx) ;;
      gammas' <- lift (mask_assign gammas
                         (map (fun j => Nat.eqb j i) (inst_indices self))
                         (Vector.value row)) ;;
      fill_gammas self rest gammas'
  end.

Definition gammas_of (self : GP) : @M F K (list F) :=
  fill_gammas self (seq 0 (length (insts self))) (np_empty (N self)).

(** [self.y - self.model(self.x)] *)
Definition y_minus_model (self : GP) : @M F K (list F) :=
  w <- gets id ;;
  mod_ <- lift (Likelihood.model_call (Likelihood.model (self_base self)) w
                  (Likelihood.x (self_base self))) ;;
  lift (np_binop fsub (Likelihood.y (self_base self)) mod_).

Definition _resids (self : GP) : @M F K (list F) :=
  gammas <- gammas_of self ;;
  d <- y_minus_model self ;;
  lift (np_binop fsub d gammas).

(** [xpred_amps.reshape(len(xpred),1) @ data_amps.reshape(1,self.N)] *)
Definition amp_outer (self : GP) (xpred : list F) (amp_param_name : string)
  : @M F K (Matrix F) :=
  k <- gets kernel ;;
  a <- lift (hparam_value k amp_param_name) ;;
  let xpred_amps := map (fun _ => fmul (of_Q 1) a) xpred in
  data_amps <- lift ((fix go (l : list string) : Result (list F) :=
                        match l with
                        | [] => Ok []
                        | par :: l' =>
                            match hparam_value k par with
                            | Raise e => Raise e
                            | Ok u =>
                                match go l' with
                                | Raise e => Raise e
                                | Ok r => Ok (u :: r)
                                end
                            end
                        end) (amps_array k)) ;;
  if Nat.eqb (length data_amps) (N self)
  then lift (dot_mat (map (fun u => [u]) xpred_amps) [data_amps])
  else raise ValueError.

Definition predict (self : GP) (xpred : list F)
    (amp_param_name : option string) : @M F K (list F * list F) :=
  let x := Likelihood.x (self_base self) in
  update_kernel_params self ;;;
  r0 <- _resids self ;;
  let r := map (fun u => [u]) r0 in
  on_kernel (fun k => compute_distances k x x) ;;;
  e <- CompositeLikelihood.errorbars (composite self) ;;
  Kmat <- kernel_covmatrix (ErrArray e) None ;;
  on_kernel (fun k => compute_distances k xpred x) ;;;
  amp_matrix <- match amp_param_name with
                | Some name => m <- amp_outer self xpred name ;;
                               ret (Some (AmpMatrix m))
                | None => ret None
                end ;;
  Ks <- kernel_covmatrix (ErrScalar (of_Q 0)) amp_matrix ;;
  L <- lift (cho_factor Kmat) ;;
  alpha <- lift (cho_solve_mat L r) ;;
  mu2 <- lift (dot_mat Ks alpha) ;;
  let mu := concat mu2 in
  on_kernel (fun k => compute_distances k xpred xpred) ;;;
  amp_matrix' <- match amp_param_name with
                 | Some name =>
                     k <- gets kernel ;;
                     a <- lift (hparam_value k name) ;;
                     ret (Some (AmpList [fsq a]))
                 | None => ret None
                 end ;;
  Kss <- kernel_covmatrix (ErrScalar (of_Q 0)) amp_matrix' ;;
  B <- lift (cho_solve_mat L (transpose Ks)) ;;
  KsB <- lift (dot_mat Ks B) ;;
  D <- lift (sub_mat Kss KsB) ;;
  var <- lift (diag D) ;;
  let stdev := map np_sqrt var in
  on_kernel (fun k => compute_distances k x x) ;;;
  ret (mu, stdev).

Definition residuals (self : GP) : @M F K (list F) :=
  gammas <- gammas_of self ;;
  p <- predict self (Likelihood.x (self_base self)) None ;;
  let mu_pred := fst p in
  d <- y_minus_model self ;;
  d' <- lift (np_binop fsub d mu_pred) ;;
  lift (np_binop fsub d' gammas).

(** The [except (LinAlgError, ValueError)] clause of [logprob]. *)
Definition not_positive_definite (e : exn) : option (@M F K F) :=
  match e with
  | LinAlgError | ValueError =>
      Some (warn "Non-positive definite kernel detected." "RuntimeWarning" ;;;
            ret (fneg finf))
  | _ => None
  end.

(** The body of the [try] of [logprob]. *)
Definition gp_like (self : GP) (Kmat : Matrix F) (r : list F) : @M F K F :=
  L <- lift (cho_factor Kmat) ;;
  alpha <- lift (cho_solve_vec L r) ;;
  sd <- lift (slogdet Kmat) ;;
  let d := snd sd in
  ra <- lift (dot_vec r alpha) ;;
  ret (fmul (of_Q (-1 # 2))
         (fadd (fadd ra d)
               (fmul (of_nat (N self)) (np_log (fmul (of_Q 2) np_pi))))).

(** Everything [logprob] does before the [try]: the kernel is updated, the
    residuals and the covariance matrix are computed. *)
Definition prepare (self : GP) : @M F K (list F * Matrix F) :=
  update_kernel_params self ;;;
  r <- _resids self ;;
  e <- CompositeLikelihood.errorbars (composite self) ;;
  kernel_covmatrix (ErrArray e) None ;;;
  Kmat <- gets (fun w => covmatrix (kernel w)) ;;
  ret (r, Kmat).

Definition logprob (self : GP) : @M F K F :=
  p <- prepare self ;;
  try_except (gp_like self (snd p) (fst p)) not_positive_definite.

#[global] Instance methods : Likelihood.Methods F K Model GP := {|
  Likelihood.self_base := self_base;
  Likelihood.call_logprob := logprob
|}.

End Methods.

End GPLikelihood.

(** ** Specification-side notions *)

(** The laws of exact arithmetic that the algebraic properties use.  The
    extended rationals satisfy them; binary64 numbers satisfy them up to
    rounding only. *)
Class ExactArith (F : Type) `{Num F} `{NumPy F} : Prop := {
  fadd_0_l : forall a : F, fadd (of_Z 0) a = a;
  fadd_assoc : forall a b c : F, fadd a (fadd b c) = fadd (fadd a b) c;
  fadd_comm : forall a b : F, fadd a b = fadd b a;
  fsub_fadd : forall a b : F, fsub a b = fadd a (fneg b);
  fneg_fadd : forall a b : F, fneg (fadd a b) = fadd (fneg a) (fneg b);
  fmul_half_fadd : forall a b : F,
    fmul (of_Q (-1 # 2)) (fadd a b) =
    fadd (fmul (of_Q (-1 # 2)) a) (fmul (of_Q (-1 # 2)) b);
  fdiv_fmul : forall d s : F, fdiv d s = fmul (fdiv (of_Q 1) s) d;
  np_sum_app : forall a b : list F,
    np_sum (a ++ b) = fadd (np_sum a) (np_sum b)
}.

Section SpecNotions.
Context {F K Model : Type} `{Num F}.

(** The storage of the vector a likelihood refers to. *)
Definition rows_in (w : World F K) (self : Likelihood.t F Model)
  : list (Vector.Row F) :=
  Vector.vector (vectors w (Likelihood.vector self)).

(** The cached vary mask of a likelihood is absent or up to date: the
    protocol of the cache, which callers keep by running [list_vary_params]
    whenever they change a vary flag. *)
Definition cache_current (w : World F K) (self : Likelihood.t F Model) : Prop :=
  match vary_params w (Likelihood.oid self) with
  | None => True
  | Some l => l = Likelihood.vary_mask (rows_in w self)
  end.

(** [rows] after the values [vals] have been written, in order, into the
    value field of the slots [idxs]; writing stops with the shorter list. *)
Fixpoint write_all (rows : list (Vector.Row F)) (idxs : list nat)
    (vals : list F) : list (Vector.Row F) :=
  match idxs, vals with
  | i :: idxs', v :: vals' =>
      write_all (alter (Vector.set_value v) i rows) idxs' vals'
  | _, _ => rows
  end.

(** Two worlds that differ at most in the storage of the vector [vec] and in
    the [vary_params] attribute of the object [o]. *)
Definition same_outside (vec o : nat) (w w' : World F K) : Prop :=
  (forall a, a <> vec -> vectors w' a = vectors w a) /\
  Vector.indices (vectors w' vec) = Vector.indices (vectors w vec) /\
  Vector.names (vectors w' vec) = Vector.names (vectors w vec) /\
  (forall o', o' <> o -> vary_params w' o' = vary_params w o') /\
  paramss w' = paramss w /\
  kernel w' = kernel w /\
  warnings w' = warnings w /\
  stdout w' = stdout w.

(** Two worlds that differ at most in the storage of the vector [vec]. *)
Definition same_but_storage (vec : nat) (w w' : World F K) : Prop :=
  (forall a, a <> vec -> vectors w' a = vectors w a) /\
  Vector.indices (vectors w' vec) = Vector.indices (vectors w vec) /\
  Vector.names (vectors w' vec) = Vector.names (vectors w vec) /\
  vary_params w' = vary_params w /\
  paramss w' = paramss w /\
  kernel w' = kernel w /\
  warnings w' = warnings w /\
  stdout w' = stdout w.

(** Two worlds that differ at most in what has been printed. *)
Definition same_but_stdout (w w' : World F K) : Prop :=
  vectors w' = vectors w /\
  paramss w' = paramss w /\
  vary_params w' = vary_params w /\
  kernel w' = kernel w /\
  warnings w' = warnings w.

(** Two worlds that differ at most in the state of the kernel. *)
Definition same_but_kernel (w w' : World F K) : Prop :=
  vectors w' = vectors w /\
  paramss w' = paramss w /\
  vary_params w' = vary_params w /\
  warnings w' = warnings w /\
  stdout w' = stdout w.

(** A computation that changes at most the kernel, and one that changes
    nothing. *)
Definition kernel_only {A : Type} (m : @M F K A) : Prop :=
  forall w r w', m w = (r, w') -> same_but_kernel w w'.

Definition read_only {A : Type} (m : @M F K A) : Prop :=
  forall w r w', m w = (r, w') -> w' = w.

(** Storage [rows'] differs from [rows] only in the value field of
    vary-flagged slots. *)
Definition only_vary_values_differ (rows rows' : list (Vector.Row F)) : Prop :=
  length rows' = length rows /\
  forall i r, rows !! i = Some r ->
    exists r', rows' !! i = Some r' /\
      Vector.vary r' = Vector.vary r /\
      Vector.col2 r' = Vector.col2 r /\
      Vector.linear r' = Vector.linear r /\
      (eq_True (Vector.vary r) = false -> r' = r).

End SpecNotions.

Section RVSpecNotions.
Context {F K Model : Type} `{Num F} `{NumPy F}.

(** The inverse-variance-weighted mean of [d], the weights being
    [1/(yerr**2 + jit**2)], as the specification writes it: the sum of the
    [d_i/(yerr_i**2 + jit**2)] over the sum of the weights. *)
Definition inverse_variance_weighted_mean (d yerr : list F) (jit : F) : F :=
  fdiv (np_sum (zip_with_ (fun di s => fdiv di (fadd (fsq s) (fsq jit))) d yerr))
       (np_sum (map (fun s => fdiv (of_Q 1) (fadd (fsq s) (fsq jit))) yerr)).

(** The same mean in its textbook form, the sum of the [w_i * d_i] over the
    sum of the [w_i]. *)
Definition weighted_mean (wts d : list F) : F :=
  fdiv (np_sum (zip_with_ fmul wts d)) (np_sum wts).

(** The variable a decorrelation parameter name refers to, the auxiliary
    vector registered for it, and the value of a parameter in the vector. *)
Definition var_of (parname : string) : string :=
  default EmptyString (split_underscore parname !! 1).

Definition aux_of (self : RVLikelihood.t F Model) (parname : string) : list F :=
  default [] (assoc (var_of parname) (RVLikelihood.decorr_vectors self)).

Definition value_of (self : RVLikelihood.t F Model) (w : World F K)
    (par : string) : F :=
  let v := vectors w (Likelihood.vector (RVLikelihood.base self)) in
  default (of_Q 0)
    (i ← assoc par (Vector.indices v);
     Vector.value <$> Vector.vector v !! i).

(** The coefficients of the polynomial of a variable: the values of the
    registered decorrelation parameters whose name contains the variable,
    highest degree first, and the constant term [0]. *)
Definition pars_of (self : RVLikelihood.t F Model) (w : World F K)
    (var : string) : list F :=
  map (value_of self w)
      (List.filter (contains var) (RVLikelihood.decorr_params self))
  ++ [of_Q 0].

(** The polynomial of the variable of [parname] on the mean-centred
    auxiliary vector. *)
Definition term_of (self : RVLikelihood.t F Model) (w : World F K)
    (parname : string) : list F :=
  let v := aux_of self parname in
  map (fun u => np_polyval (pars_of self w (var_of parname))
                  (fsub u (np_mean v))) v.

(** [res] minus the terms of the listed parameters, in order. *)
Definition subtract_terms (self : RVLikelihood.t F Model) (w : World F K)
    (parnames : list string) (res : list F) : list F :=
  fold_left (fun r p => zip_with_ fsub r (term_of self w p)) parnames res.

(** The parameters whose auxiliary vector has finite entries only. *)
Definition finite_aux (self : RVLikelihood.t F Model) (parname : string)
  : bool :=
  forallb fisfinite (aux_of self parname).

(** Every decorrelation parameter has a slot in the vector, as the
    constructor of [Likelihood] registers it. *)
Definition decorr_registered (self : RVLikelihood.t F Model) (w : World F K)
  : Prop :=
  forall par, par ∈ RVLikelihood.decorr_params self ->
    exists i row,
      assoc par (Vector.indices
                   (vectors w (Likelihood.vector (RVLikelihood.base self))))
        = Some i /\
      rows_in w (RVLikelihood.base self) !! i = Some row.

(** Every decorrelation parameter names, after its first underscore, a
    variable with an auxiliary vector of [n] entries. *)
Definition decorr_vectors_given (self : RVLikelihood.t F Model) (n : nat)
  : Prop :=
  forall parname, parname ∈ RVLikelihood.decorr_params self ->
    exists var v,
      split_underscore parname !! 1 = Some var /\
      assoc var (RVLikelihood.decorr_vectors self) = Some v /\
      length v = n.

(** [y - gamma - model(x)] entry by entry. *)
Definition plain_residuals (y m : list F) (gamma : F) : list F :=
  zip_with_ fsub (map (fun u => fsub u gamma) y) m.

(** The Gaussian log-likelihood with jitter as the specification writes it:
    minus half the sum of the [r_i**2/(s_i**2 + jit**2)], minus the sum of
    the [ln(sqrt(2 pi (s_i**2 + jit**2)))]. *)
Definition chi2_terms (r sigma : list F) (jit : F) : list F :=
  zip_with_ (fun ri s => fdiv (fsq ri) (fadd (fsq s) (fsq jit))) r sigma.

Definition penalty_terms (sigma : list F) (jit : F) : list F :=
  map (fun s => np_log (np_sqrt (fmul (fmul (of_Q 2) np_pi)
                                      (fadd (fsq s) (fsq jit))))) sigma.

Definition gaussian_loglike (r sigma : list F) (jit : F) : F :=
  fsub (fmul (of_Q (-1 # 2)) (np_sum (chi2_terms r sigma jit)))
       (np_sum (penalty_terms sigma jit)).

(** [A] is a part of the dataset of [W] with the same total parameters: the
    same model and the same vector, no decorrelation, one error bar per
    point; the model returns [m] on the times of [A], one value per point;
    the offset of [A], in a slot of its own or in that of [W], is not
    eliminated (not "linear and not vary") and has the value of the offset of
    [W]; and so has its jitter the value of the jitter of [W]. *)
Record part_of `{Likelihood.ModelCall F K Model}
    (W : RVLikelihood.t F Model) (w : World F K)
    (A : RVLikelihood.t F Model) (m : list F) : Prop := {
  part_model : Likelihood.model (RVLikelihood.base A) =
               Likelihood.model (RVLikelihood.base W);
  part_vector : Likelihood.vector (RVLikelihood.base A) =
                Likelihood.vector (RVLikelihood.base W);
  part_decorr : RVLikelihood.decorr_params A = [];
  part_yerr : length (Likelihood.yerr (RVLikelihood.base A)) =
              length (Likelihood.y (RVLikelihood.base A));
  part_call : Likelihood.model_call (Likelihood.model (RVLikelihood.base W)) w
                (Likelihood.x (RVLikelihood.base A)) = Ok m;
  part_call_length : length m = length (Likelihood.y (RVLikelihood.base A));
  part_offset : exists gW gA,
    rows_in w (RVLikelihood.base W) !! RVLikelihood.gamma_index W = Some gW /\
    rows_in w (RVLikelihood.base W) !! RVLikelihood.gamma_index A = Some gA /\
    RVLikelihood.gamma_is_linear gA = false /\
    Vector.value gA = Vector.value gW;
  part_jitter : exists jW jA,
    rows_in w (RVLikelihood.base W) !! RVLikelihood.jit_index W = Some jW /\
    rows_in w (RVLikelihood.base W) !! RVLikelihood.jit_index A = Some jA /\
    Vector.value jA = Vector.value jW
}.

(** The children [likes] are the parts, in order, of the dataset of [W]:
    every child is a part of [W]; the arrays of [W] are those of the
    children one after the other; [W] has no decorrelation and its offset is
    not eliminated; and the model treats the points one by one, its value on
    all the times being its values on the times of the children, one after
    the other. *)
Definition partition_of `{Likelihood.ModelCall F K Model}
    (W : RVLikelihood.t F Model) (likes : list (RVLikelihood.t F Model))
    (w : World F K) : Prop :=
  exists ms : list (list F),
    Forall2 (part_of W w) likes ms /\
    RVLikelihood.decorr_params W = [] /\
    (exists gW,
       rows_in w (RVLikelihood.base W) !! RVLikelihood.gamma_index W
         = Some gW /\
       RVLikelihood.gamma_is_linear gW = false) /\
    (exists jW,
       rows_in w (RVLikelihood.base W) !! RVLikelihood.jit_index W
         = Some jW) /\
    Likelihood.x (RVLikelihood.base W) =
      concat (map (fun A => Likelihood.x (RVLikelihood.base A)) likes) /\
    Likelihood.y (RVLikelihood.base W) =
      concat (map (fun A => Likelihood.y (RVLikelihood.base A)) likes) /\
    Likelihood.yerr (RVLikelihood.base W) =
      concat (map (fun A => Likelihood.yerr (RVLikelihood.base A)) likes) /\
    Likelihood.model_call (Likelihood.model (RVLikelihood.base W)) w
      (Likelihood.x (RVLikelihood.base W)) = Ok (concat ms).

(** The children's [logprob()] run one after the other from the world [w]:
    they return the values [ls] and leave the world [w']. *)
Inductive children_return `{Likelihood.ModelCall F K Model}
  : list (RVLikelihood.t F Model) -> World F K -> list F -> World F K -> Prop :=
  | children_nil w : children_return [] w [] w
  | children_cons like likes w l w1 ls w2 :
      RVLikelihood.logprob like w = (Ok l, w1) ->
      children_return likes w1 ls w2 ->
      children_return (like :: likes) w (l :: ls) w2.

End RVSpecNotions.

Section CompositeSpecNotions.
Context {F K Model : Type} `{Num F}.

(** The [params] dictionary a child refers to. *)
Definition params_of (w : World F K) (like : RVLikelihood.t F Model)
  : list (string * Param.t F) :=
  paramss w (Likelihood.params (RVLikelihood.base like)).

(** Child [lj] disagrees with child [li]: some parameter name is in the
    dictionaries of both, with [(value, vary)] pairs that [_equals] tells
    apart. *)
Definition params_conflict (w : World F K) (li lj : RVLikelihood.t F Model)
  : Prop :=
  exists k p q,
    assoc k (params_of w li) = Some p /\
    assoc k (params_of w lj) = Some q /\
    Param._equals q p = false.

(** Some child after the first refers to another vector than the first
    child, or disagrees with a child that comes before it. *)
Definition inconsistent (w : World F K) (like0 : RVLikelihood.t F Model)
    (rest : list (RVLikelihood.t F Model)) : Prop :=
  exists pre lj post,
    rest = pre ++ lj :: post /\
    (Likelihood.vector (RVLikelihood.base lj) <>
       Likelihood.vector (RVLikelihood.base like0) \/
     exists li, li ∈ like0 :: pre /\ params_conflict w li lj).

(** The offset parameter of a child has a slot in the child's vector, as the
    constructor of [RVLikelihood] leaves it. *)
Definition offset_registered (w : World F K) (like : RVLikelihood.t F Model)
  : Prop :=
  let v := vectors w (Likelihood.vector (RVLikelihood.base like)) in
  exists i row,
    assoc (RVLikelihood.gamma_param like) (Vector.indices v) = Some i /\
    Vector.vector v !! i = Some row.

(** From [w] to [w'] only the dictionary [P] has changed, and no dictionary
    has lost or changed an entry it had. *)
Definition params_grow (P : nat) (w w' : World F K) : Prop :=
  vectors w' = vectors w /\
  (forall a k f, assoc k (paramss w a) = Some f ->
                 assoc k (paramss w' a) = Some f) /\
  (forall a, a <> P -> paramss w' a = paramss w a).

End CompositeSpecNotions.

(** ** Concrete objects

    Inputs on which the definitions are run: numbers are extended rationals,
    a model object is the function it computes. *)

Module Example.

Definition num (q : Q) : xnum := of_Q q.

Definition row (value vary linear : Q) : Vector.Row xnum :=
  {| Vector.value := num value; Vector.vary := num vary;
     Vector.col2 := num 0; Vector.linear := num linear |}.

Definition vec (indices : list (string * nat)) (rows : list (Vector.Row xnum))
  : Vector.t xnum :=
  {| Vector.indices := indices; Vector.vector := rows;
     Vector.names := map fst indices |}.

(** A world with one vector and one [params] dictionary, no cached mask. *)
Definition world {K : Type} (k : K) (v : Vector.t xnum)
    (d : list (string * Param.t xnum)) : World xnum K :=
  {| vectors := fun _ => v; paramss := fun _ => d;
     vary_params := fun _ => None; kernel := k;
     warnings := []; stdout := [] |}.

Definition Model : Type := list xnum -> list xnum.

#[global] Instance model_call_ {K : Type} : Likelihood.ModelCall xnum K Model :=
  {| Likelihood.model_call := fun m _ x => Ok (m x) |}.

Definition lik (m : Model) (x y yerr : list xnum) : Likelihood.t xnum Model :=
  {| Likelihood.oid := 0; Likelihood.model := m; Likelihood.vector := 0;
     Likelihood.params := 0; Likelihood.x := x; Likelihood.y := y;
     Likelihood.yerr := yerr; Likelihood.uparams := None |}.

(** Two free parameters and a fixed one. *)
Definition three_rows : list (Vector.Row xnum) :=
  [row 1 1 0; row 2 0 0; row 3 1 0].

Definition w3 : World xnum unit :=
  world tt (vec [("a", 0); ("b", 1); ("c", 2)] three_rows) [].

(** [w3] after the vary flags of slots 0 and 1 were exchanged behind the back
    of a likelihood that had cached the mask [[0; 2]]. *)
Definition w3_stale : World xnum unit :=
  set_vary_cache 0 (Some [0; 2])
    (world tt (vec [("a", 0); ("b", 1); ("c", 2)]
                 [row 1 0 0; row 2 1 0; row 3 1 0]) []).

Definition flat : Likelihood.t xnum Model :=
  lik (fun x => x) [] [] [].

(** numpy on extended rationals: the reductions are exact; the logarithm and
    the square root, which have no rational values, are stand-ins that keep
    their special cases ([log 0 = -inf], [log 1 = 0], NaN on negative
    arguments, [sqrt 0 = 0], [sqrt 1 = 1]) and are of first order elsewhere;
    [np.empty] cells read as zero. *)
Definition xsum (l : list xnum) : xnum := fold_left xadd l (Fin 0).

Definition xmean (l : list xnum) : xnum :=
  xdiv (xsum l) (Fin (Q2Qc (inject_Z (Z.of_nat (length l))))).

Definition xlog (a : xnum) : xnum :=
  match a with
  | Fin q =>
      match (q ?= 0)%Qc with
      | Lt => NaN
      | Eq => NInf
      | Gt => Fin (q - 1)
      end
  | PInf => PInf
  | _ => NaN
  end.

Definition xsqrt (a : xnum) : xnum :=
  match a with
  | Fin q =>
      match (q ?= 0)%Qc with
      | Lt => NaN
      | _ => Fin ((q + q * q) / (1 + q))
      end
  | PInf => PInf
  | _ => NaN
  end.

Definition xpolyval (coeffs : list xnum) (x : xnum) : xnum :=
  fold_left (fun acc c => xadd (xmul acc x) c) coeffs (Fin 0).

#[global] Instance numpy : NumPy xnum :=
  {| np_sum := xsum; np_mean := xmean; np_log := xlog; np_sqrt := xsqrt;
     np_pi := Fin (Q2Qc (355 # 113)); np_polyval := xpolyval;
     np_empty_item := fun _ => Fin 0 |}.

#[global] Instance pyset : PySet := {| list_set := remove_dups |}.

(** A vector with an orbital amplitude, an offset and a jitter. *)
Definition indices3 : list (string * nat) :=
  [("k1", 0); ("gamma", 1); ("jit", 2)].

(** An [RVLikelihood] with suffix [''] on the shared vector. *)
Definition rv (oid : nat) (m : Model) (x y yerr : list xnum)
  : RVLikelihood.t xnum Model :=
  {| RVLikelihood.base :=
       {| Likelihood.oid := oid; Likelihood.model := m;
          Likelihood.vector := 0; Likelihood.params := 0;
          Likelihood.x := x; Likelihood.y := y; Likelihood.yerr := yerr;
          Likelihood.uparams := None |};
     RVLikelihood.gamma_param := "gamma";
     RVLikelihood.jit_param := "jit";
     RVLikelihood.extra_params := ["gamma"; "jit"];
     RVLikelihood.suffix := "";
     RVLikelihood.telvec := map (fun _ => "") x;
     RVLikelihood.decorr_params := [];
     RVLikelihood.decorr_vectors := [];
     RVLikelihood.gamma_index := 1;
     RVLikelihood.jit_index := 2;
     RVLikelihood.hnames := None |}.

(** Three measurements of a constant model. *)
Definition rv3 : RVLikelihood.t xnum Model :=
  rv 0 (fun x => map (fun _ => num 1) x)
     [num 0; num 1; num 2] [num 3; num 5; num 4] [num 1; num 1; num 2].

(** [k1] and [jit] vary, the offset is fixed at 2. *)
Definition w_fixed : World xnum unit :=
  world tt (vec indices3 [row 1 1 0; row 2 0 0; row 0 1 0]) [].

(** The offset is flagged linear and does not vary. *)
Definition w_linear : World xnum unit :=
  world tt (vec indices3 [row 1 1 0; row 2 0 1; row 0 1 0]) [].

(** The two parts of [rv3], and the composite object made of them. *)
Definition rvA : RVLikelihood.t xnum Model :=
  rv 1 (fun x => map (fun _ => num 1) x)
     [num 0; num 1] [num 3; num 5] [num 1; num 1].

Definition rvB : RVLikelihood.t xnum Model :=
  rv 2 (fun x => map (fun _ => num 1) x) [num 2] [num 4] [num 2].

Definition composite_AB : CompositeLikelihood.t xnum Model :=
  {| CompositeLikelihood.nlike := 2;
     CompositeLikelihood.base :=
       lik (fun x => map (fun _ => num 1) x)
         [num 0; num 1; num 2] [num 3; num 5; num 2] [num 1; num 1; num 2];
     CompositeLikelihood.telvec := [""; ""; ""];
     CompositeLikelihood.extra_params := ["gamma"; "jit"];
     CompositeLikelihood.suffixes := CompositeLikelihood.Arr [""; ""];
     CompositeLikelihood.hnames := [];
     CompositeLikelihood.like_list := [rvA; rvB] |}.

(** A child whose [params] dictionary is another object, stored at address
    1, and a world in which the two dictionaries give [k1] different
    values. *)
Definition rv_other : RVLikelihood.t xnum Model :=
  {| RVLikelihood.base :=
       {| Likelihood.oid := 3; Likelihood.model := fun x => x;
          Likelihood.vector := 0; Likelihood.params := 1;
          Likelihood.x := [num 5]; Likelihood.y := [num 7];
          Likelihood.yerr := [num 1]; Likelihood.uparams := None |};
     RVLikelihood.gamma_param := "gamma";
     RVLikelihood.jit_param := "jit";
     RVLikelihood.extra_params := ["gamma"; "jit"];
     RVLikelihood.suffix := "";
     RVLikelihood.telvec := [""];
     RVLikelihood.decorr_params := [];
     RVLikelihood.decorr_vectors := [];
     RVLikelihood.gamma_index := 1;
     RVLikelihood.jit_index := 2;
     RVLikelihood.hnames := None |}.

Definition w_two_dicts : World xnum unit :=
  {| vectors := fun _ => vec indices3 [row 1 1 0; row 2 0 0; row 0 1 0];
     paramss := fun a =>
       if Nat.eqb a 0
       then [("k1", {| Param.value := num 1; Param.vary := true |})]
       else [("k1", {| Param.value := num 5; Param.vary := true |})];
     vary_params := fun _ => None; kernel := tt;
     warnings := []; stdout := [] |}.

(** An [RVLikelihood] decorrelated against two variables; the auxiliary
    vector of the second holds an infinity. *)
Definition rv_decorr : RVLikelihood.t xnum Model :=
  {| RVLikelihood.base :=
       lik (fun x => map (fun _ => num 1) x)
         [num 0; num 1; num 2] [num 3; num 5; num 4] [num 1; num 1; num 2];
     RVLikelihood.gamma_param := "gamma";
     RVLikelihood.jit_param := "jit";
     RVLikelihood.extra_params := ["gamma"; "jit"];
     RVLikelihood.suffix := "";
     RVLikelihood.telvec := [""; ""; ""];
     RVLikelihood.decorr_params := ["c1_bis"; "c1_fwhm"];
     RVLikelihood.decorr_vectors :=
       [("bis", [num 1; num 2; num 3]); ("fwhm", [num 1; PInf; num 2])];
     RVLikelihood.gamma_index := 1;
     RVLikelihood.jit_index := 2;
     RVLikelihood.hnames := None |}.

Definition w_decorr : World xnum unit :=
  world tt
    (vec [("k1", 0); ("gamma", 1); ("jit", 2); ("c1_bis", 3); ("c1_fwhm", 4)]
       [row 1 1 0; row 2 0 0; row 0 1 0; row 2 1 0; row 5 1 0]) [].

(** A white-noise kernel: a point is correlated with itself only, with
    variance [gp_amp ** 2]; the error bars add their squares on the
    diagonal. *)
Record kernel_state : Type := {
  amp : xnum;
  amps : list string;
  dist : list xnum * list xnum;
  cov : Matrix xnum
}.

Definition kernel_entries (k : kernel_state) : Matrix xnum :=
  map (fun a => map (fun b => if xeqb a b then xmul (amp k) (amp k)
                              else Fin 0) (snd (dist k))) (fst (dist k)).

Fixpoint add_diagonal (m : Matrix xnum) (e : list xnum) (i : nat)
  : Matrix xnum :=
  match m, e with
  | r :: m', s :: e' =>
      match r !! i with
      | Some u => <[i := xadd u (xmul s s)]> r
      | None => r
      end :: add_diagonal m' e' (S i)
  | _, _ => m
  end.

Definition toy_covmatrix (k : kernel_state) (errors : ErrArg xnum)
    (amp_matrix : option (AmpArg xnum)) : Result (Matrix xnum * kernel_state) :=
  let m0 := kernel_entries k in
  let r :=
    match errors with
    | ErrArray e =>
        if Nat.eqb (length e) (length m0) then Ok (add_diagonal m0 e 0)
        else Raise ValueError
    | ErrScalar s => Ok (add_diagonal m0 (map (fun _ => s) m0) 0)
    end in
  match r with
  | Ok m => Ok (m, {| amp := amp k; amps := amps k; dist := dist k; cov := m |})
  | Raise e => Raise e
  end.

#[global] Instance kernel_ : Kernel xnum kernel_state :=
  {| set_hparam := fun k name v =>
       if String.eqb name "gp_amp"
       then Ok {| amp := v; amps := amps k; dist := dist k; cov := cov k |}
       else Raise (KeyError name);
     hparam_value := fun k name =>
       if String.eqb name "gp_amp" then Ok (amp k) else Raise (KeyError name);
     amps_array := amps;
     compute_distances := fun k a b =>
       Ok {| amp := amp k; amps := amps k; dist := (a, b); cov := cov k |};
     compute_covmatrix := toy_covmatrix;
     covmatrix := cov |}.

(** Linear algebra on diagonal matrices, which is all the white-noise kernel
    produces: the factor of a diagonal matrix with a positive diagonal is the
    diagonal itself; a matrix with a NaN or an infinity is refused with
    [ValueError], any other one with [LinAlgError]. *)
Fixpoint diagonal_from (m : Matrix xnum) (i : nat) : option (list xnum) :=
  match m with
  | [] => Some []
  | r :: m' =>
      match r !! i, diagonal_from m' (S i) with
      | Some u, Some d =>
          if forallb (fun v => xeqb v (Fin 0)) (take i r ++ drop (S i) r)
             && xltb (Fin 0) u
          then Some (u :: d) else None
      | _, _ => None
      end
  end.

Definition toy_cho_factor (m : Matrix xnum) : Result (list xnum) :=
  if forallb (forallb xisfinite) m then
    match diagonal_from m 0 with
    | Some d => Ok d
    | None => Raise LinAlgError
    end
  else Raise ValueError.

Definition toy_dot (a b : list xnum) : Result xnum :=
  if Nat.eqb (length a) (length b) then Ok (xsum (zip_with_ xmul a b))
  else Raise ValueError.

Fixpoint toy_transpose (m : Matrix xnum) : Matrix xnum :=
  match m with
  | [] => []
  | [r] => map (fun u => [u]) r
  | r :: m' => zip_with_ cons r (toy_transpose m')
  end.

Definition toy_dot_mat (a b : Matrix xnum) : Result (Matrix xnum) :=
  if forallb (fun r => Nat.eqb (length r) (length b)) a
  then Ok (map (fun r => map (fun c => xsum (zip_with_ xmul r c))
                          (toy_transpose b)) a)
  else Raise ValueError.

Definition toy_diag (m : Matrix xnum) : Result (list xnum) :=
  take_at (concat m) (map (fun i => i * S (length m)) (seq 0 (length m))).

#[global] Instance linalg_ : LinAlg xnum (list xnum) :=
  {| cho_factor := toy_cho_factor;
     cho_solve_vec := fun L r =>
       if Nat.eqb (length L) (length r) then Ok (zip_with_ xdiv r L)
       else Raise ValueError;
     cho_solve_mat := fun L b =>
       if Nat.eqb (length L) (length b)
       then Ok (zip_with_ (fun r d => map (fun u => xdiv u d) r) b L)
       else Raise ValueError;
     slogdet := fun m =>
       match diagonal_from m 0 with
       | Some d => Ok (Fin 1, xsum (map xlog d))
       | None => Raise LinAlgError
       end;
     dot_vec := toy_dot;
     dot_mat := toy_dot_mat;
     sub_mat := fun a b =>
       if Nat.eqb (length a) (length b)
       then Ok (zip_with_ (zip_with_ xsub) a b)
       else Raise ValueError;
     transpose := toy_transpose;
     diag := toy_diag |}.

(** A GP likelihood over one instrument [j]. *)
Definition rv_j : RVLikelihood.t xnum Model :=
  {| RVLikelihood.base :=
       lik (fun x => map (fun _ => num 1) x)
         [num 0; num 1; num 2] [num 3; num 5; num 4] [num 1; num 1; num 2];
     RVLikelihood.gamma_param := "gamma_j";
     RVLikelihood.jit_param := "jit_j";
     RVLikelihood.extra_params := ["gamma_j"; "jit_j"];
     RVLikelihood.suffix := "j";
     RVLikelihood.telvec := ["j"; "j"; "j"];
     RVLikelihood.decorr_params := [];
     RVLikelihood.decorr_vectors := [];
     RVLikelihood.gamma_index := 1;
     RVLikelihood.jit_index := 2;
     RVLikelihood.hnames := None |}.

Definition gp_j : GPLikelihood.t xnum Model :=
  {| GPLikelihood.composite :=
       {| CompositeLikelihood.nlike := 1;
          CompositeLikelihood.base := RVLikelihood.base rv_j;
          CompositeLikelihood.telvec := ["j"; "j"; "j"];
          CompositeLikelihood.extra_params := ["gamma_j"; "jit_j"];
          CompositeLikelihood.suffixes := CompositeLikelihood.Str "j";
          CompositeLikelihood.hnames := [];
          CompositeLikelihood.like_list := [rv_j] |};
     GPLikelihood.hnames := ["gp_amp"];
     GPLikelihood.N := 3;
     GPLikelihood.insts := ["j"];
     GPLikelihood.inst_indices := [0; 0; 0] |}.

Definition kernel0 : kernel_state :=
  {| amp := num 1; amps := ["gp_amp"; "gp_amp"; "gp_amp"];
     dist := ([num 0; num 1; num 2], [num 0; num 1; num 2]); cov := [] |}.

(** The GP amplitude is [a], the offset 2, the jitter [j]. *)
Definition w_gp (a j : Q) : World xnum kernel_state :=
  world kernel0
    (vec [("gp_amp", 0); ("gamma_j", 1); ("jit_j", 2)]
       [row a 1 0; row 2 1 0; row j 1 0]) [].

(** The same likelihood with error bars of zero: with a zero amplitude and a
    zero jitter the covariance matrix is the zero matrix. *)
Definition rv_j0 : RVLikelihood.t xnum Model :=
  {| RVLikelihood.base :=
       lik (fun x => map (fun _ => num 1) x)
         [num 0; num 1; num 2] [num 3; num 5; num 4] [num 0; num 0; num 0];
     RVLikelihood.gamma_param := "gamma_j";
     RVLikelihood.jit_param := "jit_j";
     RVLikelihood.extra_params := ["gamma_j"; "jit_j"];
     RVLikelihood.suffix := "j";
     RVLikelihood.telvec := ["j"; "j"; "j"];
     RVLikelihood.decorr_params := [];
     RVLikelihood.decorr_vectors := [];
     RVLikelihood.gamma_index := 1;
     RVLikelihood.jit_index := 2;
     RVLikelihood.hnames := None |}.

Definition gp_j0 : GPLikelihood.t xnum Model :=
  {| GPLikelihood.composite :=
       {| CompositeLikelihood.nlike := 1;
          CompositeLikelihood.base := RVLikelihood.base rv_j0;
          CompositeLikelihood.telvec := ["j"; "j"; "j"];
          CompositeLikelihood.extra_params := ["gamma_j"; "jit_j"];
          CompositeLikelihood.suffixes := CompositeLikelihood.Str "j";
          CompositeLikelihood.hnames := [];
          CompositeLikelihood.like_list := [rv_j0] |};
     GPLikelihood.hnames := ["gp_amp"];
     GPLikelihood.N := 3;
     GPLikelihood.insts := ["j"];
     GPLikelihood.inst_indices := [0; 0; 0] |}.

End Example.

(** ** The constructors *)

(** What the constructors take from outside the file: the [vector] and
    [params] attributes of the model object, which are references;
    [radvel.model.Parameter(value=v)]; and the methods [dict_to_vector] and
    [vector_names] of the vector object, which rebuild its storage and its
    names from what they find in the world and may raise. *)
Class ModelAttrs (F K Model : Type) := {
  model_vector : Model -> nat;
  model_params : Model -> nat;
  new_parameter : F -> Param.t F;
  dict_to_vector : World F K -> nat -> Result (Vector.t F);
  vector_names : World F K -> nat -> Result (Vector.t F)
}.

Module Init.

Section Constructors.
Context {F K Model : Type} `{Num F} `{ModelAttrs F K Model}.

(** The loops [for key in extra_params] and [for key in decorr_params] of
    [Likelihood.__init__]: a key that [params] lacks receives
    [Parameter(value=0.0)], a key that [vector.indices] lacks receives the
    slot [n], which is then incremented.  Returns the final [n]. *)
Fixpoint register_keys (vec params : nat) (keys : list string) (n : nat)
  : @M F K nat :=
  match keys with
  | [] => ret n
  | key :: rest =>
      d <- gets (fun w => paramss w params) ;;
      (if dict_mem key d then ret tt
       else modify (set_params params
                      (dict_add d key (new_parameter (of_Q 0))))) ;;;
      v <- gets (fun w => vectors w vec) ;;
      if dict_mem key (Vector.indices v)
      then register_keys vec params rest n
      else
        modify (set_vector vec
                  {| Vector.indices := dict_add (Vector.indices v) key n;
                     Vector.vector := Vector.vector v;
                     Vector.names := Vector.names v |}) ;;;
        register_keys vec params rest (S n)
  end.

(** [n = self.vector.vector.shape[0]] and the two loops. *)
Definition register_all (vec params : nat)
    (extra_params decorr_params : list string) : @M F K nat :=
  rows <- gets (fun w => Vector.vector (vectors w vec)) ;;
  n <- register_keys vec params extra_params (length rows) ;;
  register_keys vec params decorr_params n.

(** [self.vector.dict_to_vector()] and [self.vector.vector_names()] *)
Definition rebuild (vec : nat) : @M F K unit :=
  w <- gets id ;;
  v <- lift (dict_to_vector w vec) ;;
  modify (set_vector vec v) ;;;
  w' <- gets id ;;
  v' <- lift (vector_names w' vec) ;;
  modify (set_vector vec v').

(** [Likelihood.__init__]; [oid] is the identity of the object under
    construction.  The second component is [self.dvec], which no method of
    the file reads: one array per item of the iteration over
    [decorr_vectors], that is per key when it is a dictionary. *)
Definition Likelihood__init__ (oid : nat) (model : Model) (x y yerr : list F)
    (extra_params decorr_params : list string)
    (decorr_vectors : list (string * list F))
  : @M F K (Likelihood.t F Model * list string) :=
  let vec := model_vector model in
  let params := model_params model in
  let dvec := map fst decorr_vectors in
  register_all vec params extra_params decorr_params ;;;
  rebuild vec ;;;
  ret ({| Likelihood.oid := oid; Likelihood.model := model;
          Likelihood.vector := vec; Likelihood.params := params;
          Likelihood.x := x; Likelihood.y := y; Likelihood.yerr := yerr;
          Likelihood.uparams := None |}, dvec).

(** [suffix[1:]] when [suffix.startswith('_')], [suffix] otherwise. *)
Definition strip_suffix (suffix : string) : string :=
  if String.prefix "_" suffix
  then match suffix with
       | String _ s => s
       | EmptyString => EmptyString
       end
  else suffix.

(** [RVLikelihood.__init__] *)
Definition RVLikelihood__init__ (oid : nat) (model : Model)
    (t vel errvel : list F) (suffix : string) (decorr_vars : list string)
    (decorr_vectors : list (string * list F))
  : @M F K (RVLikelihood.t F Model) :=
  let gamma_param := ("gamma" ++ suffix)%string in
  let jit_param := ("jit" ++ suffix)%string in
  let extra_params := [gamma_param; jit_param] in
  let suffix' := strip_suffix suffix in
  let telvec := map (fun _ => suffix') t in
  let decorr_params :=
    if Nat.ltb 0 (length decorr_vars)
    then [] ++ map (fun d => ("c1_" ++ d ++ suffix)%string) decorr_vars
    else [] in
  b <- Likelihood__init__ oid model t vel errvel extra_params decorr_params
         decorr_vectors ;;
  v <- gets (fun w => vectors w (Likelihood.vector (fst b))) ;;
  gamma_index <- lift (dict_get (Vector.indices v) gamma_param) ;;
  jit_index <- lift (dict_get (Vector.indices v) jit_param) ;;
  ret {| RVLikelihood.base := fst b;
         RVLikelihood.gamma_param := gamma_param;
         RVLikelihood.jit_param := jit_param;
         RVLikelihood.extra_params := extra_params;
         RVLikelihood.suffix := suffix';
         RVLikelihood.telvec := telvec;
         RVLikelihood.decorr_params := decorr_params;
         RVLikelihood.decorr_vectors := decorr_vectors;
         RVLikelihood.gamma_index := gamma_index;
         RVLikelihood.jit_index := jit_index;
         RVLikelihood.hnames := None |}.

End Constructors.

(** [np.unique] on an array of strings: its elements, each once, in
    increasing order. *)
Fixpoint insert_sorted (s : string) (l : list string) : list string :=
  match l with
  | [] => [s]
  | t :: l' =>
      match String.compare s t with
      | Lt => s :: l
      | Eq => l
      | Gt => t :: insert_sorted s l'
      end
  end.

Definition np_unique (l : list string) : list string :=
  fold_right insert_sorted [] l.

(** The loop [for i in range(len(insts)): a[mask_i] = value_i] of
    [GPLikelihood.__init__], the mask and the value being given for each
    [i]. *)
Fixpoint assign_each {A : Type} (mask : nat -> list bool) (value : nat -> A)
    (is_ : list nat) (a : list A) : Result (list A) :=
  match is_ with
  | [] => Ok a
  | i :: rest =>
      match mask_assign a (mask i) (value i) with
      | Raise e => Raise e
      | Ok a' => assign_each mask value rest a'
      end
  end.

(** The part of [GPLikelihood.__init__] between the construction of the
    composite and that of the kernel: [N], [inst_indices], which starts as
    [np.arange(N)], [insts], and [amp_array], which starts as an array of
    [None].  The kernel object, which receives [amp_array] and the
    hyperparameter objects, is built outside the file.  Returns
    [(insts, inst_indices, amp_array)]. *)
Definition instruments (N : nat) (telvec : list string)
  : Result (list string * list nat * list (option string)) :=
  let insts := np_unique telvec in
  let is_ := seq 0 (length insts) in
  let inst_at i := default EmptyString (insts !! i) in
  match assign_each (fun i => map (fun tel => String.eqb tel (inst_at i)) telvec)
          (fun i => i) is_ (seq 0 N) with
  | Raise e => Raise e
  | Ok inst_indices =>
      match assign_each (fun i => map (fun j => Nat.eqb j i) inst_indices)
              (fun i => Some ("gp_amp_" ++ inst_at i)%string) is_
              (map (fun _ => None) (seq 0 N)) with
      | Raise e => Raise e
      | Ok amp_array => Ok (insts, inst_indices, amp_array)
      end
  end.

End Init.

Section InitNotions.
Context {F K : Type}.

(** Every slot the names refer to is below [n]. *)
Definition slots_below (idx : list (string * nat)) (n : nat) : Prop :=
  forall k i, assoc k idx = Some i -> i < n.

(** No two names refer to one slot. *)
Definition slots_distinct (idx : list (string * nat)) : Prop :=
  forall k1 k2 i, assoc k1 idx = Some i -> assoc k2 idx = Some i -> k1 = k2.

(** From [w] to [w'] nothing has changed but the name-to-slot mapping of the
    vector [vec] and the dictionary [params]. *)
Definition only_registry_changed (vec params : nat) (w w' : World F K)
  : Prop :=
  Vector.vector (vectors w' vec) = Vector.vector (vectors w vec) /\
  Vector.names (vectors w' vec) = Vector.names (vectors w vec) /\
  (forall a, a <> vec -> vectors w' a = vectors w a) /\
  (forall a, a <> params -> paramss w' a = paramss w a) /\
  vary_params w' = vary_params w /\
  kernel w' = kernel w /\
  warnings w' = warnings w /\
  stdout w' = stdout w.

(** The string has no underscore. *)
Definition no_underscore (s : string) : Prop :=
  forallb (fun c => negb (Ascii.eqb c "_"%char)) (list_ascii_of_string s)
    = true.

(** The last of the indices [is_] whose mask is set at position [j]. *)
Fixpoint last_hit (mask : nat -> list bool) (is_ : list nat) (j : nat)
  : option nat :=
  match is_ with
  | [] => None
  | i :: rest =>
      match last_hit mask rest j with
      | Some i' => Some i'
      | None => if decide (mask i !! j = Some true) then Some i else None
      end
  end.

End InitNotions.

(** ** Further notions *)

Section WriteNotions.
Context {F K Model : Type} `{Num F}.

(** The world [w] after [z] has been written into the value field of the
    offset slot of [self]. *)
Definition offset_set (self : RVLikelihood.t F Model) (z : F) (w : World F K)
  : World F K :=
  let vec := Likelihood.vector (RVLikelihood.base self) in
  set_vector vec
    (Vector.with_rows
       (alter (Vector.set_value z) (RVLikelihood.gamma_index self)
          (Vector.vector (vectors w vec)))
       (vectors w vec)) w.

(** [w'] is [w], or [w] after a write into the offset slot of [self], that
    slot being "linear and not vary" in [w]. *)
Definition at_most_offset_written (self : RVLikelihood.t F Model)
    (w w' : World F K) : Prop :=
  w' = w \/
  exists grow z,
    rows_in w (RVLikelihood.base self) !! RVLikelihood.gamma_index self
      = Some grow /\
    RVLikelihood.gamma_is_linear grow = true /\
    w' = offset_set self z w.

End WriteNotions.

Section ConstructionNotions.
Context {F K Model : Type} `{Num F} `{NumPy F}.

(** The children agree on their parameters: whenever two of them (a child
    and itself included) hold a parameter under one name, [_equals] accepts
    the pair. *)
Definition agree (w : World F K) (likes : list (RVLikelihood.t F Model))
  : Prop :=
  forall li lj k p q, li ∈ likes -> lj ∈ likes ->
    assoc k (params_of w li) = Some p ->
    assoc k (params_of w lj) = Some q ->
    Param._equals q p = true.

(** The data of a child minus the value its offset has in [w]. *)
Definition shifted_y (w : World F K) (like : RVLikelihood.t F Model)
  : list F :=
  map (fun u => fsub u (value_of like w (RVLikelihood.gamma_param like)))
      (Likelihood.y (RVLikelihood.base like)).

(** The [hnames] of those children that have the attribute. *)
Definition hnames_of (likes : list (RVLikelihood.t F Model)) : list string :=
  concat (map (fun l => default [] (RVLikelihood.hnames l)) likes).

(** The composite [self] after the children [rest] have been merged into
    it: the arrays are concatenated in list order, the data of each merged
    child being shifted by its offset. *)
Definition merged (w : World F K) (self : CompositeLikelihood.t F Model)
    (rest : list (RVLikelihood.t F Model)) : CompositeLikelihood.t F Model :=
  let b := CompositeLikelihood.base self in
  {| CompositeLikelihood.nlike := CompositeLikelihood.nlike self;
     CompositeLikelihood.base :=
       {| Likelihood.oid := Likelihood.oid b;
          Likelihood.model := Likelihood.model b;
          Likelihood.vector := Likelihood.vector b;
          Likelihood.params := Likelihood.params b;
          Likelihood.x :=
            Likelihood.x b ++
            concat (map (fun l => Likelihood.x (RVLikelihood.base l)) rest);
          Likelihood.y := Likelihood.y b ++ concat (map (shifted_y w) rest);
          Likelihood.yerr :=
            Likelihood.yerr b ++
            concat (map (fun l => Likelihood.yerr (RVLikelihood.base l)) rest);
          Likelihood.uparams := None |};
     CompositeLikelihood.telvec :=
       CompositeLikelihood.telvec self ++ concat (map RVLikelihood.telvec rest);
     CompositeLikelihood.extra_params :=
       CompositeLikelihood.extra_params self ++
       concat (map RVLikelihood.extra_params rest);
     CompositeLikelihood.suffixes :=
       fold_left CompositeLikelihood.append_suffix
         (map RVLikelihood.suffix rest) (CompositeLikelihood.suffixes self);
     CompositeLikelihood.hnames :=
       CompositeLikelihood.hnames self ++ hnames_of rest;
     CompositeLikelihood.like_list := CompositeLikelihood.like_list self |}.

End ConstructionNotions.

Section OrderNotions.
Context {F K Model : Type} `{Num F} `{NumPy F}.

(** The method [f] run on the children one after the other from the world
    [w]: the calls return the values [rs] and leave the world [w']. *)
Inductive run_in_order {A : Type} (f : RVLikelihood.t F Model -> @M F K A)
  : list (RVLikelihood.t F Model) -> World F K -> list A -> World F K -> Prop :=
  | run_nil w : run_in_order f [] w [] w
  | run_cons like likes w a w1 rs w2 :
      f like w = (Ok a, w1) ->
      run_in_order f likes w1 rs w2 ->
      run_in_order f (like :: likes) w (a :: rs) w2.

(** The error bars of a child with the jitter added in quadrature, the
    jitter being the value of the child's jitter slot in [w]. *)
Definition errorbars_of (w : World F K) (like : RVLikelihood.t F Model)
  : list F :=
  let jit := default (of_Q 0)
               (Vector.value <$>
                rows_in w (RVLikelihood.base like)
                  !! RVLikelihood.jit_index like) in
  map np_sqrt (sum_sig_quad (Likelihood.yerr (RVLikelihood.base like)) jit).

End OrderNotions.

Section GPNotions.
Context {F K Model : Type} `{Num F}.

(** The value, in [w], of the offset of the [i]-th instrument of a GP
    likelihood: the slot named ['gamma_' + insts[i]]. *)
Definition instrument_offset (self : GPLikelihood.t F Model) (w : World F K)
    (i : nat) : F :=
  let v := vectors w (Likelihood.vector (GPLikelihood.self_base self)) in
  default (of_Q 0)
    (inst ← GPLikelihood.insts self !! i;
     idx ← assoc ("gamma_" ++ inst)%string (Vector.indices v);
     Vector.value <$> Vector.vector v !! idx).

(** Every instrument of the likelihood has its offset in the vector. *)
Definition offsets_registered (self : GPLikelihood.t F Model) (w : World F K)
  : Prop :=
  let v := vectors w (Likelihood.vector (GPLikelihood.self_base self)) in
  forall i inst, GPLikelihood.insts self !! i = Some inst ->
    exists idx row,
      assoc ("gamma_" ++ inst)%string (Vector.indices v) = Some idx /\
      Vector.vector v !! idx = Some row.

(** [w'] is [w] with one more warning. *)
Definition warned (msg category : string) (w : World F K) : World F K :=
  {| vectors := vectors w; paramss := paramss w;
     vary_params := vary_params w; kernel := kernel w;
     warnings := warnings w ++ [(msg, category)]; stdout := stdout w |}.

End GPNotions.

(** ** More concrete objects *)

Module Sample.

(** [Example.w3] with the vary flag of slot 0 cleared and that of slot 1 set
    behind the back of a likelihood that had cached the one-slot mask
    [[0]]. *)
Definition w3_short_cache : World xnum unit :=
  set_vary_cache 0 (Some [0])
    (Example.world tt
       (Example.vec [("a", 0); ("b", 1); ("c", 2)]
          [Example.row 1 0 0; Example.row 2 1 0; Example.row 3 1 0]) []).

(** A child whose jitter slot is not in the vector. *)
Definition rv_bad : RVLikelihood.t xnum Example.Model :=
  {| RVLikelihood.base :=
       Example.lik (fun x => x) [Example.num 5] [Example.num 7] [Example.num 1];
     RVLikelihood.gamma_param := "gamma";
     RVLikelihood.jit_param := "jit";
     RVLikelihood.extra_params := ["gamma"; "jit"];
     RVLikelihood.suffix := "";
     RVLikelihood.telvec := [""];
     RVLikelihood.decorr_params := [];
     RVLikelihood.decorr_vectors := [];
     RVLikelihood.gamma_index := 1;
     RVLikelihood.jit_index := 7;
     RVLikelihood.hnames := None |}.

Definition composite_bad : CompositeLikelihood.t xnum Example.Model :=
  {| CompositeLikelihood.nlike := 3;
     CompositeLikelihood.base := RVLikelihood.base Example.rvA;
     CompositeLikelihood.telvec := [""; ""; ""; ""];
     CompositeLikelihood.extra_params := ["gamma"; "jit"];
     CompositeLikelihood.suffixes := CompositeLikelihood.Arr [""; ""; ""];
     CompositeLikelihood.hnames := [];
     CompositeLikelihood.like_list := [Example.rvA; rv_bad; Example.rvB] |}.

(** Two dictionaries that agree on the name they share; the second holds a
    name the first lacks. *)
Definition w_agree : World xnum unit :=
  {| vectors := fun _ =>
       Example.vec Example.indices3
         [Example.row 1 1 0; Example.row 2 0 0; Example.row 0 1 0];
     paramss := fun a =>
       if Nat.eqb a 0
       then [("k1", {| Param.value := Example.num 1; Param.vary := true |})]
       else [("k1", {| Param.value := Example.num 1; Param.vary := true |});
             ("k2", {| Param.value := Example.num 5; Param.vary := false |})];
     vary_params := fun _ => None; kernel := tt;
     warnings := []; stdout := [] |}.

(** A vector object for the constructors to run on.  Its [dict_to_vector]
    allots one row to every slot below the first one no name refers to and
    fills it from the parameter of the name that refers to it; its
    [vector_names] lists the names in slot order.  Neither touches the
    name-to-slot mapping.  The vector and the dictionary of every model are
    the objects 0. *)
Fixpoint first_free (idx : list (string * nat)) (fuel n : nat) : nat :=
  match fuel with
  | 0 => n
  | S fuel' =>
      if existsb (Nat.eqb n) (map snd idx) then first_free idx fuel' (S n)
      else n
  end.

Definition key_of_slot (idx : list (string * nat)) (i : nat) : option string :=
  match List.filter (fun kv => Nat.eqb (snd kv) i) idx with
  | kv :: _ => Some (fst kv)
  | [] => None
  end.

Definition row_of (d : list (string * Param.t xnum))
    (idx : list (string * nat)) (i : nat) : Vector.Row xnum :=
  match key_of_slot idx i with
  | Some k =>
      match assoc k d with
      | Some p =>
          Example.row (match Param.value p with Fin q => q | _ => 0 end)
            (if Param.vary p then 1 else 0) 0
      | None => Example.row 0 0 0
      end
  | None => Example.row 0 0 0
  end.

#[global] Instance model_attrs : ModelAttrs xnum unit Example.Model :=
  {| model_vector := fun _ => 0;
     model_params := fun _ => 0;
     new_parameter := fun v => {| Param.value := v; Param.vary := true |};
     dict_to_vector := fun w vec =>
       let v := vectors w vec in
       let idx := Vector.indices v in
       Ok {| Vector.indices := idx;
             Vector.vector :=
               map (row_of (paramss w vec) idx)
                   (seq 0 (first_free idx (length idx) 0));
             Vector.names := Vector.names v |};
     vector_names := fun w vec =>
       let v := vectors w vec in
       Ok {| Vector.indices := Vector.indices v;
             Vector.vector := Vector.vector v;
             Vector.names :=
               omap (key_of_slot (Vector.indices v))
                    (seq 0 (length (Vector.vector v))) |} |}.

(** Another iteration order for [list(set(l))]: the names of [l] without
    repetition, the last one first. *)
Definition pyset_rev : PySet :=
  {| list_set := fun l => reverse (remove_dups l) |}.

(** [Example.rv3] with an attribute [hnames]. *)
Definition rv_hnames : RVLikelihood.t xnum Example.Model :=
  {| RVLikelihood.base := RVLikelihood.base Example.rv3;
     RVLikelihood.gamma_param := "gamma";
     RVLikelihood.jit_param := "jit";
     RVLikelihood.extra_params := ["gamma"; "jit"];
     RVLikelihood.suffix := "";
     RVLikelihood.telvec := [""; ""; ""];
     RVLikelihood.decorr_params := [];
     RVLikelihood.decorr_vectors := [];
     RVLikelihood.gamma_index := 1;
     RVLikelihood.jit_index := 2;
     RVLikelihood.hnames := Some ["gp_amp"] |}.

(** A likelihood decorrelated against the variable [bis], with the
    auxiliary values [v]: [Example.rv3] and its two parts so decorrelated,
    the values of the variable on the three points being 1, 2 and 3. *)
Definition with_bis (like : RVLikelihood.t xnum Example.Model)
    (v : list xnum) : RVLikelihood.t xnum Example.Model :=
  {| RVLikelihood.base := RVLikelihood.base like;
     RVLikelihood.gamma_param := RVLikelihood.gamma_param like;
     RVLikelihood.jit_param := RVLikelihood.jit_param like;
     RVLikelihood.extra_params := RVLikelihood.extra_params like;
     RVLikelihood.suffix := RVLikelihood.suffix like;
     RVLikelihood.telvec := RVLikelihood.telvec like;
     RVLikelihood.decorr_params := ["c1_bis"];
     RVLikelihood.decorr_vectors := [("bis", v)];
     RVLikelihood.gamma_index := RVLikelihood.gamma_index like;
     RVLikelihood.jit_index := RVLikelihood.jit_index like;
     RVLikelihood.hnames := RVLikelihood.hnames like |}.

Definition rv3_bis : RVLikelihood.t xnum Example.Model :=
  with_bis Example.rv3 [Example.num 1; Example.num 2; Example.num 3].

Definition composite_AB_bis : CompositeLikelihood.t xnum Example.Model :=
  {| CompositeLikelihood.nlike := 2;
     CompositeLikelihood.base :=
       CompositeLikelihood.base Example.composite_AB;
     CompositeLikelihood.telvec := [""; ""; ""];
     CompositeLikelihood.extra_params := ["gamma"; "jit"];
     CompositeLikelihood.suffixes := CompositeLikelihood.Arr [""; ""];
     CompositeLikelihood.hnames := [];
     CompositeLikelihood.like_list :=
       [with_bis Example.rvA [Example.num 1; Example.num 2];
        with_bis Example.rvB [Example.num 3]] |}.

(** The world of [Example.gp_j0] with a zero amplitude and a zero jitter, in
    which the amplitude is the only parameter that varies. *)
Definition w_gp_one_vary : World xnum Example.kernel_state :=
  Example.world Example.kernel0
    (Example.vec [("gp_amp", 0); ("gamma_j", 1); ("jit_j", 2)]
       [Example.row 0 1 0; Example.row 2 0 0; Example.row 0 0 0]) [].

(** A vector with one orbital parameter, before a likelihood is built on
    it. *)
Definition w_fresh : World xnum unit :=
  Example.world tt (Example.vec [("k1", 0)] [Example.row 1 1 0])
    [("k1", {| Param.value := Example.num 1; Param.vary := true |})].

End Sample.

(** ** Binary64

    The interface [Num] on IEEE 754 binary64 numbers, and the objects of a
    small GP likelihood on them.  The instances are in force where the
    module is imported. *)

Module Binary64.

(** The float nearest to an integer. *)
Definition float : Set := PrimFloat.float.

Definition z2f (z : Z) : float :=
  FloatOps.SF2Prim
    (SpecFloat.binary_normalize FloatOps.prec FloatOps.emax z 0 false).

(** The quotient of the numerator and the denominator, each converted to the
    nearest float; the division rounds to nearest, so that the result is the
    value of the literal for the literals of the code ([0.0], [1.0], [2.0],
    [0.5], the integers) and for short decimal fractions. *)
Definition q2f (q : Q) : float :=
  PrimFloat.div (z2f (Qnum q)) (z2f (Zpos (Qden q))).

Definition isfinite (x : float) : bool :=
  negb (PrimFloat.is_nan x || PrimFloat.is_infinity x).

#[export] Instance num : Num float := {|
  fadd := PrimFloat.add; fsub := PrimFloat.sub; fmul := PrimFloat.mul;
  fdiv := PrimFloat.div; fneg := PrimFloat.opp;
  of_Q := q2f;
  finf := PrimFloat.infinity;
  fisnan := PrimFloat.is_nan; fisfinite := isfinite;
  fltb := PrimFloat.ltb; feqb := PrimFloat.eqb
|}.

(** numpy on binary64: a sum runs from the left, as numpy's does on an array
    of fewer than eight entries; the mean is the sum over the length; the
    square root is IEEE's; a polynomial is evaluated by Horner's rule.  The
    primitive floats have no logarithm: [np_log] is a stand-in of first
    order, and nothing below states a value that goes through it. *)
Definition fsum (l : list float) : float :=
  fold_left PrimFloat.add l (z2f 0).

#[export] Instance numpy : NumPy float :=
  {| np_sum := fsum;
     np_mean := fun l => PrimFloat.div (fsum l) (z2f (Z.of_nat (length l)));
     np_log := fun x => PrimFloat.sub x (z2f 1);
     np_sqrt := PrimFloat.sqrt;
     np_pi := FloatOps.SF2Prim
                (SpecFloat.S754_finite false 7074237752028440 (-51));
     np_polyval := fun coeffs x =>
       fold_left (fun acc c => PrimFloat.add (PrimFloat.mul acc x) c) coeffs
         (z2f 0);
     np_empty_item := fun _ => z2f 0 |}.

Definition Model : Type := list float -> list float.

#[export] Instance model_call_ {K : Type}
  : Likelihood.ModelCall float K Model :=
  {| Likelihood.model_call := fun m _ x => Ok (m x) |}.

Definition row (value vary linear : Q) : Vector.Row float :=
  {| Vector.value := q2f value; Vector.vary := q2f vary;
     Vector.col2 := q2f 0; Vector.linear := q2f linear |}.

(** The white-noise kernel of [Example], on binary64: a point is correlated
    with itself only, with variance [gp_amp ** 2]; the error bars add their
    squares on the diagonal. *)
Record kernel_state : Type := {
  amp : float;
  amps : list string;
  dist : list float * list float;
  cov : Matrix float
}.

Definition kernel_entries (k : kernel_state) : Matrix float :=
  map (fun a => map (fun b => if PrimFloat.eqb a b
                              then PrimFloat.mul (amp k) (amp k)
                              else z2f 0) (snd (dist k))) (fst (dist k)).

Fixpoint add_diagonal (m : Matrix float) (e : list float) (i : nat)
  : Matrix float :=
  match m, e with
  | r :: m', s :: e' =>
      match r !! i with
      | Some u => <[i := PrimFloat.add u (PrimFloat.mul s s)]> r
      | None => r
      end :: add_diagonal m' e' (S i)
  | _, _ => m
  end.

Definition toy_covmatrix (k : kernel_state) (errors : ErrArg float)
    (amp_matrix : option (AmpArg float))
  : Result (Matrix float * kernel_state) :=
  let m0 := kernel_entries k in
  let r :=
    match errors with
    | ErrArray e =>
        if Nat.eqb (length e) (length m0) then Ok (add_diagonal m0 e 0)
        else Raise ValueError
    | ErrScalar s => Ok (add_diagonal m0 (map (fun _ => s) m0) 0)
    end in
  match r with
  | Ok m => Ok (m, {| amp := amp k; amps := amps k; dist := dist k; cov := m |})
  | Raise e => Raise e
  end.

#[export] Instance kernel_ : Kernel float kernel_state :=
  {| set_hparam := fun k name v =>
       if String.eqb name "gp_amp"
       then Ok {| amp := v; amps := amps k; dist := dist k; cov := cov k |}
       else Raise (KeyError name);
     hparam_value := fun k name =>
       if String.eqb name "gp_amp" then Ok (amp k) else Raise (KeyError name);
     amps_array := amps;
     compute_distances := fun k a b =>
       Ok {| amp := amp k; amps := amps k; dist := (a, b); cov := cov k |};
     compute_covmatrix := toy_covmatrix;
     covmatrix := cov |}.

(** Linear algebra on diagonal matrices with a positive diagonal, as in
    [Example]. *)
Fixpoint diagonal_from (m : Matrix float) (i : nat) : option (list float) :=
  match m with
  | [] => Some []
  | r :: m' =>
      match r !! i, diagonal_from m' (S i) with
      | Some u, Some d =>
          if forallb (fun v => PrimFloat.eqb v (z2f 0))
               (take i r ++ drop (S i) r)
             && PrimFloat.ltb (z2f 0) u
          then Some (u :: d) else None
      | _, _ => None
      end
  end.

Definition toy_cho_factor (m : Matrix float) : Result (list float) :=
  if forallb (forallb isfinite) m then
    match diagonal_from m 0 with
    | Some d => Ok d
    | None => Raise LinAlgError
    end
  else Raise ValueError.

Fixpoint toy_transpose (m : Matrix float) : Matrix float :=
  match m with
  | [] => []
  | [r] => map (fun u => [u]) r
  | r :: m' => zip_with_ cons r (toy_transpose m')
  end.

Definition toy_dot_mat (a b : Matrix float) : Result (Matrix float) :=
  if forallb (fun r => Nat.eqb (length r) (length b)) a
  then Ok (map (fun r => map (fun c => fsum (zip_with_ PrimFloat.mul r c))
                          (toy_transpose b)) a)
  else Raise ValueError.

#[export] Instance linalg_ : LinAlg float (list float) :=
  {| cho_factor := toy_cho_factor;
     cho_solve_vec := fun L r =>
       if Nat.eqb (length L) (length r) then Ok (zip_with_ PrimFloat.div r L)
       else Raise ValueError;
     cho_solve_mat := fun L b =>
       if Nat.eqb (length L) (length b)
       then Ok (zip_with_ (fun r d => map (fun u => PrimFloat.div u d) r) b L)
       else Raise ValueError;
     slogdet := fun m =>
       match diagonal_from m 0 with
       | Some d => Ok (z2f 1, fsum (map (fun x => PrimFloat.sub x (z2f 1)) d))
       | None => Raise LinAlgError
       end;
     dot_vec := fun a b =>
       if Nat.eqb (length a) (length b)
       then Ok (fsum (zip_with_ PrimFloat.mul a b))
       else Raise ValueError;
     dot_mat := toy_dot_mat;
     sub_mat := fun a b =>
       if Nat.eqb (length a) (length b)
       then Ok (zip_with_ (zip_with_ PrimFloat.sub) a b)
       else Raise ValueError;
     transpose := toy_transpose;
     diag := fun m =>
       take_at (concat m) (map (fun i => i * S (length m)) (seq 0 (length m)))
  |}.

(** One measurement [y = 0.1] of the instrument [j] at time 0 with error bar
    1; the model is zero. *)
Definition rv_j : RVLikelihood.t float Model :=
  {| RVLikelihood.base :=
       {| Likelihood.oid := 0; Likelihood.model := map (fun _ => z2f 0);
          Likelihood.vector := 0; Likelihood.params := 0;
          Likelihood.x := [z2f 0]; Likelihood.y := [q2f (1 # 10)];
          Likelihood.yerr := [z2f 1]; Likelihood.uparams := None |};
     RVLikelihood.gamma_param := "gamma_j";
     RVLikelihood.jit_param := "jit_j";
     RVLikelihood.extra_params := ["gamma_j"; "jit_j"];
     RVLikelihood.suffix := "j";
     RVLikelihood.telvec := ["j"];
     RVLikelihood.decorr_params := [];
     RVLikelihood.decorr_vectors := [];
     RVLikelihood.gamma_index := 1;
     RVLikelihood.jit_index := 2;
     RVLikelihood.hnames := None |}.

Definition gp_j : GPLikelihood.t float Model :=
  {| GPLikelihood.composite :=
       {| CompositeLikelihood.nlike := 1;
          CompositeLikelihood.base := RVLikelihood.base rv_j;
          CompositeLikelihood.telvec := ["j"];
          CompositeLikelihood.extra_params := ["gamma_j"; "jit_j"];
          CompositeLikelihood.suffixes := CompositeLikelihood.Str "j";
          CompositeLikelihood.hnames := [];
          CompositeLikelihood.like_list := [rv_j] |};
     GPLikelihood.hnames := ["gp_amp"];
     GPLikelihood.N := 1;
     GPLikelihood.insts := ["j"];
     GPLikelihood.inst_indices := [0] |}.

(** The GP amplitude is 1, the offset 0.2, the jitter 0. *)
Definition w_gp : World float kernel_state :=
  {| vectors := fun _ =>
       {| Vector.indices := [("gp_amp", 0); ("gamma_j", 1); ("jit_j", 2)];
          Vector.vector := [row 1 1 0; row (2 # 10) 1 0; row 0 1 0];
          Vector.names := ["gp_amp"; "gamma_j"; "jit_j"] |};
     paramss := fun _ => [];
     vary_params := fun _ => None;
     kernel := {| amp := z2f 1; amps := ["gp_amp"];
                  dist := ([z2f 0], [z2f 0]); cov := [] |};
     warnings := []; stdout := [] |}.

End Binary64.

(** * Properties *)

Ltac unfold_monad :=
  unfold bind, ret, lift, gets, modify, raise, assert, try_except in *.

(** ** The vary mask *)

Section VaryMask.
Context {F : Type} `{Num F}.

Lemma vary_mask_from_spec (rows : list (Vector.Row F)) :
  forall i j,
    j ∈ Likelihood.vary_mask_from i rows <->
    exists r, i <= j /\ rows !! (j - i) = Some r /\
              eq_True (Vector.vary r) = true.
Proof.
  induction rows as [|r rows IH]; intros i j; simpl.
  - split; [intros Hin; inversion Hin | intros (r & _ & Hr & _); discriminate].
  - destruct (eq_True (Vector.vary r)) eqn:Hv.
    + rewrite elem_of_cons, IH. split.
      * intros [-> | (r' & Hle & Hr' & Hv')].
        -- exists r. rewrite Nat.sub_diag. auto.
        -- exists r'. split; [lia|]. split; [|done].
           replace (j - i) with (S (j - S i)) by lia. done.
      * intros (r' & Hle & Hr' & Hv').
        destruct (decide (j = i)) as [->|Hne]; [by left|right].
        exists r'. split; [lia|]. split; [|done].
        replace (j - i) with (S (j - S i)) in Hr' by lia. done.
    + rewrite IH. split.
      * intros (r' & Hle & Hr' & Hv'). exists r'. split; [lia|]. split; [|done].
        replace (j - i) with (S (j - S i)) by lia. done.
      * intros (r' & Hle & Hr' & Hv').
        destruct (decide (j = i)) as [->|Hne].
        -- rewrite Nat.sub_diag in Hr'. simpl in Hr'. congruence.
        -- exists r'. split; [lia|]. split; [|done].
           replace (j - i) with (S (j - S i)) in Hr' by lia. done.
Qed.

Lemma vary_mask_spec (rows : list (Vector.Row F)) (j : nat) :
  j ∈ Likelihood.vary_mask rows <->
  exists r, rows !! j = Some r /\ eq_True (Vector.vary r) = true.
Proof.
  unfold Likelihood.vary_mask. rewrite vary_mask_from_spec.
  rewrite Nat.sub_0_r. split.
  - intros (r & _ & ? & ?). eauto.
  - intros (r & ? & ?). exists r. split; [lia|done].
Qed.

Lemma vary_mask_from_NoDup (rows : list (Vector.Row F)) :
  forall i, NoDup (Likelihood.vary_mask_from i rows).
Proof.
  induction rows as [|r rows IH]; intros i; simpl; [constructor|].
  destruct (eq_True (Vector.vary r)); [|apply IH].
  constructor; [|apply IH].
  rewrite vary_mask_from_spec. intros (r' & Hle & _). lia.
Qed.

Lemma vary_mask_NoDup (rows : list (Vector.Row F)) :
  NoDup (Likelihood.vary_mask rows).
Proof. apply vary_mask_from_NoDup. Qed.

Lemma vary_mask_lt (rows : list (Vector.Row F)) (j : nat) :
  j ∈ Likelihood.vary_mask rows -> j < length rows.
Proof.
  rewrite vary_mask_spec. intros (r & Hr & _). by eapply lookup_lt_Some.
Qed.

End VaryMask.

(** ** Writing and reading the free values *)

Section WriteAll.
Context {F : Type} `{Num F}.

Implicit Types rows : list (Vector.Row F).

Lemma write_all_length rows idxs : forall vals rows',
  rows' = write_all rows idxs vals -> length rows' = length rows.
Proof.
  revert rows. induction idxs as [|i idxs IH]; intros rows vals rows' ->;
    [done|].
  destruct vals as [|v vals]; [done|]. simpl.
  erewrite IH; [|reflexivity]. apply length_alter.
Qed.

Lemma write_all_lookup_other rows idxs : forall vals j,
  j ∉ idxs -> write_all rows idxs vals !! j = rows !! j.
Proof.
  revert rows. induction idxs as [|i idxs IH]; intros rows vals j Hj; [done|].
  destruct vals as [|v vals]; [done|]. simpl.
  apply not_elem_of_cons in Hj as [Hne Hj].
  rewrite IH by done. by apply list_lookup_alter_ne.
Qed.

Lemma write_all_flags rows idxs : forall vals i r,
  rows !! i = Some r ->
  exists r', write_all rows idxs vals !! i = Some r' /\
    Vector.vary r' = Vector.vary r /\
    Vector.col2 r' = Vector.col2 r /\
    Vector.linear r' = Vector.linear r.
Proof.
  revert rows. induction idxs as [|k idxs IH]; intros rows vals i r Hr.
  { exists r. auto. }
  destruct vals as [|v vals]; [exists r; auto|]. simpl.
  destruct (decide (k = i)) as [->|Hne].
  - destruct (IH (alter (Vector.set_value v) i rows) vals i
                (Vector.set_value v r)) as (r' & ? & ? & ? & ?).
    { rewrite list_lookup_alter_eq, Hr. done. }
    exists r'. auto.
  - apply IH. rewrite list_lookup_alter_ne by done. done.
Qed.

(** Reading back the slots that were written returns the values written. *)
Lemma take_at_write_all rows idxs : forall vals,
  NoDup idxs ->
  (forall j, j ∈ idxs -> j < length rows) ->
  length vals = length idxs ->
  exists sel, take_at (write_all rows idxs vals) idxs = Ok sel /\
              map Vector.value sel = vals.
Proof.
  revert rows. induction idxs as [|i idxs IH]; intros rows vals Hnd Hlt Hlen.
  { destruct vals; [|done]. exists []. done. }
  destruct vals as [|v vals]; [done|]. simpl in *.
  apply NoDup_cons in Hnd as [Hni Hnd].
  destruct (IH (alter (Vector.set_value v) i rows) vals) as (sel & Hsel & Hv).
  - done.
  - intros j Hj. rewrite length_alter. apply Hlt. by right.
  - lia.
  - unfold seq_get. rewrite write_all_lookup_other by done.
    rewrite list_lookup_alter_eq.
    destruct (lookup_lt_is_Some_2 rows i) as [r Hr]; [apply Hlt; by left|].
    rewrite Hr. simpl. rewrite Hsel.
    exists (Vector.set_value v r :: sel). simpl. by rewrite Hv.
Qed.

Lemma write_all_only_vary rows idxs vals :
  (forall j, j ∈ idxs -> exists r, rows !! j = Some r /\
                                   eq_True (Vector.vary r) = true) ->
  only_vary_values_differ rows (write_all rows idxs vals).
Proof.
  intros Hv. split; [by eapply write_all_length|].
  intros i r Hr.
  destruct (write_all_flags rows idxs vals i r Hr) as (r' & Hr' & ? & ? & ?).
  exists r'. repeat split; try done.
  intros Hnv.
  assert (i ∉ idxs) as Hni.
  { intros Hin. destruct (Hv i Hin) as (r0 & Hr0 & Ht). congruence. }
  rewrite write_all_lookup_other in Hr' by done. congruence.
Qed.

End WriteAll.

Section SetGet.
Context {F K Model : Type} `{Num F}.

Implicit Types w : World F K.
Implicit Types self : Likelihood.t F Model.

Lemma insert_as_alter {A : Type} (f : A -> A) (l : list A) (i : nat) (a : A) :
  l !! i = Some a -> <[i := f a]> l = alter f i l.
Proof.
  revert i. induction l as [|b l IH]; intros [|i] Hi; simpl in *;
    try done.
  - by inversion Hi.
  - f_equal. by apply IH.
Qed.

Lemma same_but_storage_refl vec w : same_but_storage vec w w.
Proof. repeat split. Qed.

Lemma same_but_storage_trans vec w1 w2 w3 :
  same_but_storage vec w1 w2 -> same_but_storage vec w2 w3 ->
  same_but_storage vec w1 w3.
Proof.
  intros (A1 & B1 & C1 & D1 & E1 & G1 & I1 & J1)
         (A2 & B2 & C2 & D2 & E2 & G2 & I2 & J2).
  repeat split; try congruence.
  intros a Ha. rewrite A2, A1 by done. done.
Qed.

Lemma set_vector_storage vec rows w :
  same_but_storage vec w
    (set_vector vec (Vector.with_rows rows (vectors w vec)) w) /\
  Vector.vector
    (vectors (set_vector vec (Vector.with_rows rows (vectors w vec)) w) vec)
  = rows.
Proof.
  unfold same_but_storage, set_vector, upd; simpl.
  rewrite Nat.eqb_refl. simpl. repeat split.
  intros a Ha. by destruct (Nat.eqb_spec a vec).
Qed.

(** The loop of [set_vary_params]: it writes until the values run out, and
    raises [IndexError] in that case. *)
Lemma write_values_run (vec : nat) (idxs : list nat) :
  forall (vals : list F) (i : nat) w,
    i <= length vals ->
    (forall j, j ∈ idxs -> j < length (Vector.vector (vectors w vec))) ->
    exists w',
      Likelihood.write_values vec idxs vals i w =
        (if decide (i + length idxs <= length vals)
         then Ok (i + length idxs) else Raise IndexError, w') /\
      Vector.vector (vectors w' vec) =
        write_all (Vector.vector (vectors w vec)) idxs (drop i vals) /\
      same_but_storage vec w w'.
Proof.
  induction idxs as [|index rest IH]; intros vals i w Hi Hlt; simpl.
  - exists w. unfold ret. rewrite Nat.add_0_r.
    rewrite decide_True by done.
    split; [done|]. split; [|apply same_but_storage_refl].
    by destruct (drop i vals).
  - unfold_monad. unfold seq_get.
    destruct (vals !! i) as [v|] eqn:Hv.
    + destruct (lookup_lt_is_Some_2 (Vector.vector (vectors w vec)) index)
        as [row Hrow]; [apply Hlt; by left|].
      rewrite Hrow.
      rewrite (insert_as_alter (Vector.set_value v)) by done.
      set (rows1 := alter (Vector.set_value v) index
                      (Vector.vector (vectors w vec))).
      destruct (set_vector_storage vec rows1 w) as [Hsame Hrows].
      set (w1 := set_vector vec (Vector.with_rows rows1 (vectors w vec)) w)
        in *.
      destruct (IH vals (S i) w1) as (w' & Hrun & Hst & Hfr).
      { apply lookup_lt_Some in Hv. lia. }
      { intros j Hj. rewrite Hrows. unfold rows1. rewrite length_alter.
        apply Hlt. by right. }
      exists w'. rewrite Hrun.
      split.
      { replace (i + S (length rest)) with (S i + length rest) by lia.
        by destruct (decide (S i + length rest <= length vals)). }
      split; [|by eapply same_but_storage_trans].
      rewrite Hst, Hrows. rewrite (drop_S _ _ _ Hv). done.
    + exists w. apply lookup_ge_None in Hv.
      rewrite decide_False by lia.
      split; [done|]. split; [|apply same_but_storage_refl].
      by rewrite drop_ge.
Qed.

Lemma take_at_lookup {A : Type} (l : list A) (idxs : list nat) :
  forall sel, take_at l idxs = Ok sel ->
  forall j i, idxs !! j = Some i -> l !! i = sel !! j.
Proof.
  induction idxs as [|k idxs IH]; intros sel Hsel j i Hj; [done|].
  simpl in Hsel. unfold seq_get in Hsel.
  destruct (l !! k) as [a|] eqn:Hk; [|done].
  destruct (take_at l idxs) as [r|] eqn:Hr; [|done].
  inversion Hsel; subst sel.
  destruct j as [|j]; simpl in *.
  - by inversion Hj; subst.
  - by eapply IH.
Qed.

Lemma vary_mask_from_ext (rows : list (Vector.Row F)) :
  forall rows' k,
    length rows' = length rows ->
    (forall i r, rows !! i = Some r ->
       exists r', rows' !! i = Some r' /\ Vector.vary r' = Vector.vary r) ->
    Likelihood.vary_mask_from k rows' = Likelihood.vary_mask_from k rows.
Proof.
  induction rows as [|r rows IH]; intros [|r' rows'] k Hlen Hv;
    simpl in *; try done.
  destruct (Hv 0 r eq_refl) as (r0 & Hr0 & Hvary). simpl in Hr0.
  inversion Hr0; subst r0. rewrite Hvary.
  rewrite (IH rows' (S k)); [done|lia|].
  intros i ri Hi. apply (Hv (S i) ri Hi).
Qed.

(** The [try] block that opens [set_vary_params] leaves a current mask in
    the cache and touches nothing else. *)
Lemma refresh_cache_run self (vals : list F) w :
  cache_current w self ->
  exists w0,
    try_except
      (l <- Likelihood.read_vary_params self ;;
       if negb (Nat.eqb (length l) (length vals))
       then Likelihood.list_vary_params self
       else ret tt)
      (Likelihood.catch_AttributeError (Likelihood.list_vary_params self)) w
    = (Ok tt, w0) /\
    vary_params w0 (Likelihood.oid self) =
      Some (Likelihood.vary_mask (rows_in w self)) /\
    vectors w0 = vectors w /\
    same_outside (Likelihood.vector self) (Likelihood.oid self) w w0.
Proof.
  unfold cache_current. intros Hc.
  assert (forall c, same_outside (Likelihood.vector self) (Likelihood.oid self)
            w (set_vary_cache (Likelihood.oid self) c w)) as Hset.
  { intros c. unfold same_outside, set_vary_cache, upd; simpl.
    repeat split. intros o' Ho'. by destruct (Nat.eqb_spec o' (Likelihood.oid self)). }
  unfold Likelihood.read_vary_params, Likelihood.list_vary_params.
  unfold_monad. simpl.
  destruct (vary_params w (Likelihood.oid self)) as [l|] eqn:Hl; simpl.
  - destruct (negb (Nat.eqb (length l) (length vals))); simpl.
    + eexists. split; [reflexivity|]. simpl. unfold upd.
      rewrite Nat.eqb_refl. repeat split; try done. apply Hset.
    + exists w. split; [done|]. rewrite Hl, Hc. repeat split; done.
  - eexists. split; [reflexivity|]. simpl. unfold upd.
    rewrite Nat.eqb_refl. repeat split; try done. apply Hset.
Qed.

Lemma same_outside_storage vec o w0 w1 w :
  same_outside vec o w w0 -> vectors w0 = vectors w ->
  same_but_storage vec w0 w1 ->
  same_outside vec o w w1.
Proof.
  intros (A1 & B1 & C1 & D1 & E1 & G1 & I1 & J1) Hv
         (A2 & B2 & C2 & D2 & E2 & G2 & I2 & J2).
  repeat split; try congruence.
  - intros a Ha. rewrite A2, A1 by done. done.
  - intros o' Ho'. rewrite D2. by apply D1.
Qed.

(** What [set_vary_params] does under a current cache, whatever the length of
    the values: the loop writes them into the vary-flagged slots in slot
    order until they or the slots run out, and the outcome is decided by the
    two lengths. *)
Lemma set_vary_params_run self (vals : list F) w :
  cache_current w self ->
  let mask := Likelihood.vary_mask (rows_in w self) in
  exists w1,
    Likelihood.set_vary_params self vals w =
      (if decide (length vals < length mask) then Raise IndexError
       else if decide (length vals = length mask) then Ok tt
       else Raise (AssertionError
              "Length of array must match number of varied parameters"),
       w1) /\
    rows_in w1 self = write_all (rows_in w self) mask vals /\
    vary_params w1 (Likelihood.oid self) = Some mask /\
    same_outside (Likelihood.vector self) (Likelihood.oid self) w w1.
Proof.
  intros Hc mask.
  destruct (refresh_cache_run self vals w Hc) as (w0 & Hrun0 & Hc0 & Hv0 & Hs0).
  unfold Likelihood.set_vary_params.
  unfold bind at 1. rewrite Hrun0.
  unfold bind at 1. unfold Likelihood.read_vary_params at 1.
  unfold bind at 1, gets at 1. rewrite Hc0. unfold ret at 1.
  fold mask.
  destruct (write_values_run (Likelihood.vector self) mask vals 0 w0)
    as (w1 & Hrun1 & Hrows1 & Hs1).
  { lia. }
  { intros j Hj. rewrite Hv0. by apply vary_mask_lt. }
  unfold bind at 1. rewrite Hrun1. simpl.
  rewrite Hv0 in Hrows1. rewrite drop_0 in Hrows1.
  assert (same_outside (Likelihood.vector self) (Likelihood.oid self) w w1)
    as Hso by (by eapply same_outside_storage).
  assert (vary_params w1 (Likelihood.oid self) = Some mask) as Hc1.
  { destruct Hs1 as (_ & _ & _ & -> & _). done. }
  exists w1. split; [|done].
  destruct (decide (length mask <= length vals)) as [Hle|Hgt].
  - rewrite decide_False by lia. unfold assert.
    destruct (decide (length vals = length mask)) as [Heq|Hne].
    + rewrite Heq, Nat.eqb_refl. done.
    + destruct (Nat.eqb_spec (length mask) (length vals)); [congruence|done].
  - rewrite decide_True by lia. done.
Qed.

Lemma write_all_lookup_written (rows : list (Vector.Row F)) idxs :
  forall rows0 (vals : list F) j i v,
    rows0 = rows ->
    NoDup idxs -> idxs !! j = Some i -> vals !! j = Some v ->
    i < length rows ->
    Vector.value <$> write_all rows0 idxs vals !! i = Some v.
Proof.
  revert rows. induction idxs as [|k idxs IH];
    intros rows rows0 vals j i v -> Hnd Hj Hv Hi; [done|].
  destruct vals as [|v0 vals]; [done|].
  apply NoDup_cons in Hnd as [Hni Hnd]. simpl.
  destruct j as [|j]; simpl in *.
  - inversion Hj; inversion Hv; subst.
    rewrite write_all_lookup_other by done.
    rewrite list_lookup_alter_eq.
    destruct (lookup_lt_is_Some_2 rows i Hi) as [r ->]. done.
  - eapply (IH (alter (Vector.set_value v0) k rows)); try done.
    by rewrite length_alter.
Qed.

(** C3. With the cached vary mask absent or up to date, [set_vary_params] on
    a sequence as long as the number of vary-flagged slots returns normally,
    [get_vary_params] then returns exactly that sequence, the j-th value
    sitting in the j-th vary-flagged slot; the storage differs from the
    former one only in the value field of vary-flagged slots, nothing else in
    the world changes but the cached mask, which is current afterwards. *)
Theorem set_then_get_vary_params self (vals : list F) w :
  cache_current w self ->
  length vals = length (Likelihood.vary_mask (rows_in w self)) ->
  exists w1,
    Likelihood.set_vary_params self vals w = (Ok tt, w1) /\
    Likelihood.get_vary_params self w1 = (Ok vals, w1) /\
    (forall j i, Likelihood.vary_mask (rows_in w self) !! j = Some i ->
       Vector.value <$> rows_in w1 self !! i = vals !! j) /\
    only_vary_values_differ (rows_in w self) (rows_in w1 self) /\
    same_outside (Likelihood.vector self) (Likelihood.oid self) w w1 /\
    cache_current w1 self.
Proof.
  intros Hc Hlen.
  destruct (set_vary_params_run self vals w Hc) as (w1 & Hrun & Hrows & Hc1 & Hs).
  set (mask := Likelihood.vary_mask (rows_in w self)) in *.
  rewrite decide_False, decide_True in Hrun by lia.
  assert (only_vary_values_differ (rows_in w self) (rows_in w1 self)) as Hov.
  { rewrite Hrows. apply write_all_only_vary.
    intros j Hj. by apply vary_mask_spec. }
  exists w1. split; [done|].
  split; [|split; [|split; [done|split; [done|]]]].
  - unfold Likelihood.get_vary_params, Likelihood.read_vary_values,
      Likelihood.read_vary_params, try_except, bind, gets, lift, ret.
    cbn beta. rewrite Hc1. fold (rows_in w1 self). rewrite Hrows.
    destruct (take_at_write_all (rows_in w self) mask vals)
      as (sel & -> & ->); try done.
    + apply vary_mask_NoDup.
    + intros j Hj. by apply vary_mask_lt.
  - intros j i Hj. rewrite Hrows.
    destruct (vals !! j) as [v|] eqn:Hv.
    + eapply write_all_lookup_written; try done.
      * apply vary_mask_NoDup.
      * apply vary_mask_lt. by eapply list_elem_of_lookup_2.
    + apply lookup_ge_None in Hv. apply lookup_lt_Some in Hj. lia.
  - unfold cache_current. rewrite Hc1. unfold Likelihood.vary_mask.
    symmetry. apply vary_mask_from_ext; [apply Hov|].
    intros i r Hr. destruct Hov as [_ Hov].
    destruct (Hov i r Hr) as (r' & ? & ? & _). eauto.
Qed.

(** C4, as amended.  With the cached vary mask absent or up to date,
    [set_vary_params] on a sequence whose length differs from the number of
    vary-flagged slots raises: [IndexError] when the sequence is the shorter
    one, at the first slot that finds no value; [AssertionError] when it is
    the longer one, after the loop.  In both cases the values that found a
    slot have been written before the raise: the j-th value sits in the j-th
    vary-flagged slot, and the storage stays as the loop left it. *)
Theorem set_vary_params_wrong_length self (vals : list F) w :
  cache_current w self ->
  length vals <> length (Likelihood.vary_mask (rows_in w self)) ->
  exists e w1,
    Likelihood.set_vary_params self vals w = (Raise e, w1) /\
    e = (if decide (length vals < length (Likelihood.vary_mask (rows_in w self)))
         then IndexError
         else AssertionError
                "Length of array must match number of varied parameters") /\
    rows_in w1 self =
      write_all (rows_in w self) (Likelihood.vary_mask (rows_in w self)) vals /\
    (forall j i v, Likelihood.vary_mask (rows_in w self) !! j = Some i ->
       vals !! j = Some v ->
       Vector.value <$> rows_in w1 self !! i = Some v) /\
    only_vary_values_differ (rows_in w self) (rows_in w1 self) /\
    same_outside (Likelihood.vector self) (Likelihood.oid self) w w1.
Proof.
  intros Hc Hlen.
  destruct (set_vary_params_run self vals w Hc) as (w1 & Hrun & Hrows & Hc1 & Hs).
  set (mask := Likelihood.vary_mask (rows_in w self)) in *.
  exists (if decide (length vals < length mask) then IndexError
          else AssertionError
                 "Length of array must match number of varied parameters"), w1.
  split.
  { rewrite Hrun. destruct (decide (length vals < length mask)); [done|].
    rewrite decide_False by done. done. }
  split; [done|].
  split; [done|]. split; [|split; [|done]].
  - intros j i v Hj Hv. rewrite Hrows.
    eapply write_all_lookup_written; try done.
    + apply vary_mask_NoDup.
    + apply vary_mask_lt. by eapply list_elem_of_lookup_2.
  - rewrite Hrows. apply write_all_only_vary.
    intros j Hj. by apply vary_mask_spec.
Qed.

End SetGet.

Lemma set_then_get_vary_params_witness :
  exists w1,
    Likelihood.set_vary_params Example.flat [Example.num 5; Example.num 6]
      Example.w3 = (Ok tt, w1) /\
    Likelihood.get_vary_params Example.flat w1 =
      (Ok [Example.num 5; Example.num 6], w1).
Proof.
  destruct (set_then_get_vary_params Example.flat
              [Example.num 5; Example.num 6] Example.w3)
    as (w1 & Hset & Hget & _).
  - exact I.
  - reflexivity.
  - exists w1. split; assumption.
Defined.

(** A sequence shorter than the number of vary-flagged slots: the call raises
    [IndexError] and slot 0 holds 9 instead of 1 by then. *)
Lemma set_vary_params_not_atomic :
  length [Example.num 9] <>
    length (Likelihood.vary_mask (rows_in Example.w3 Example.flat)) /\
  fst (Likelihood.set_vary_params Example.flat [Example.num 9] Example.w3)
    = Raise IndexError /\
  Vector.value <$> rows_in Example.w3 Example.flat !! 0
    = Some (Example.num 1) /\
  Vector.value <$>
    rows_in (snd (Likelihood.set_vary_params Example.flat [Example.num 9]
                    Example.w3)) Example.flat !! 0
    = Some (Example.num 9) /\
  feqb (Example.num 9) (Example.num 1) = false.
Proof. vm_compute. repeat split. discriminate. Qed.

(** A longer one: both slots are written, then the assertion fails. *)
Example set_vary_params_too_long :
  fst (Likelihood.set_vary_params Example.flat
         [Example.num 7; Example.num 8; Example.num 9] Example.w3)
    = Raise (AssertionError
               "Length of array must match number of varied parameters") /\
  map Vector.value
    (rows_in (snd (Likelihood.set_vary_params Example.flat
                     [Example.num 7; Example.num 8; Example.num 9]
                     Example.w3)) Example.flat)
    = [Example.num 7; Example.num 2; Example.num 8].
Proof. vm_compute. repeat split. Qed.

Lemma set_vary_params_wrong_length_witness :
  exists w1,
    Likelihood.set_vary_params Example.flat [Example.num 9] Example.w3
      = (Raise IndexError, w1) /\
    rows_in w1 Example.flat =
      write_all (rows_in Example.w3 Example.flat) [0; 2] [Example.num 9].
Proof.
  destruct (set_vary_params_wrong_length Example.flat [Example.num 9]
              Example.w3)
    as (e & w1 & Hrun & He & Hrows & _).
  - exact I.
  - vm_compute. discriminate.
  - exists w1. subst e. split; [exact Hrun | exact Hrows].
Defined.

(** What a stale cache does: the mask cached before the vary flags changed
    has the length of the sequence, so it is reused, and slot 0, which no
    longer varies, is overwritten. *)
Example stale_cache_is_reused :
  Likelihood.vary_mask (rows_in Example.w3_stale Example.flat) = [1; 2] /\
  fst (Likelihood.set_vary_params Example.flat
         [Example.num 7; Example.num 8] Example.w3_stale) = Ok tt /\
  map Vector.value
    (rows_in (snd (Likelihood.set_vary_params Example.flat
                     [Example.num 7; Example.num 8] Example.w3_stale))
       Example.flat)
    = [Example.num 7; Example.num 2; Example.num 8].
Proof. vm_compute. repeat split. Qed.

(** The round trip without the protocol of the cache.  The sequence has the
    length of the number of vary-flagged slots, 1 and 2; the mask [[0; 2]],
    cached before the vary flags changed, has that length too, so it is
    trusted: the call returns, slot 0, which is not vary-flagged, goes from 1
    to 7, and the vary-flagged slot 1 keeps its 2. *)
Lemma set_vary_params_stale_mask :
  length [Example.num 7; Example.num 8] =
    length (Likelihood.vary_mask (rows_in Example.w3_stale Example.flat)) /\
  Likelihood.vary_mask (rows_in Example.w3_stale Example.flat) = [1; 2] /\
  fst (Likelihood.set_vary_params Example.flat
         [Example.num 7; Example.num 8] Example.w3_stale) = Ok tt /\
  rows_in Example.w3_stale Example.flat !! 0 = Some (Example.row 1 0 0) /\
  eq_True (Vector.vary (Example.row 1 0 0)) = false /\
  rows_in (snd (Likelihood.set_vary_params Example.flat
                  [Example.num 7; Example.num 8] Example.w3_stale))
    Example.flat !! 0 = Some (Example.row 7 0 0) /\
  Example.row 7 0 0 <> Example.row 1 0 0 /\
  rows_in (snd (Likelihood.set_vary_params Example.flat
                  [Example.num 7; Example.num 8] Example.w3_stale))
    Example.flat !! 1 = Some (Example.row 2 1 0).
Proof. vm_compute. repeat split. discriminate. Qed.

(** ** The information criteria *)

Section GetVary.
Context {F K Model : Type} `{Num F}.

Implicit Types w : World F K.
Implicit Types self : Likelihood.t F Model.

Lemma take_at_in_range {A : Type} (l : list A) (idxs : list nat) :
  (forall j, j ∈ idxs -> j < length l) ->
  exists sel, take_at l idxs = Ok sel /\ length sel = length idxs.
Proof.
  induction idxs as [|i idxs IH]; intros Hlt; simpl.
  - by exists [].
  - destruct (lookup_lt_is_Some_2 l i) as [a Ha]; [apply Hlt; by left|].
    destruct IH as (sel & Hsel & Hlen); [intros j Hj; apply Hlt; by right|].
    unfold seq_get. rewrite Ha, Hsel. exists (a :: sel). simpl.
    by rewrite Hlen.
Qed.

(** Under a current cache [get_vary_params] returns, with one value per
    vary-flagged slot, and leaves the world as it was but for the cache. *)
Lemma get_vary_params_run self w :
  cache_current w self ->
  exists vals w1,
    Likelihood.get_vary_params self w = (Ok vals, w1) /\
    length vals = length (Likelihood.vary_mask (rows_in w self)) /\
    vectors w1 = vectors w /\
    same_outside (Likelihood.vector self) (Likelihood.oid self) w w1.
Proof.
  intros Hc. unfold cache_current in Hc.
  destruct (take_at_in_range (rows_in w self)
              (Likelihood.vary_mask (rows_in w self)))
    as (sel & Hsel & Hlen); [intros j; apply vary_mask_lt|].
  unfold Likelihood.get_vary_params, Likelihood.read_vary_values,
    Likelihood.read_vary_params, Likelihood.list_vary_params,
    Likelihood.catch_AttributeError.
  unfold_monad. unfold rows_in in *. cbn beta.
  destruct (vary_params w (Likelihood.oid self)) as [l|] eqn:Hl.
  - subst l. rewrite Hsel.
    exists (map Vector.value sel), w. rewrite length_map.
    repeat split; done.
  - cbn. unfold upd. rewrite Nat.eqb_refl.
    change (vectors (set_vary_cache ?o ?c w)) with (vectors w).
    rewrite Hsel.
    eexists _, _. split; [reflexivity|].
    rewrite length_map. repeat split; try done.
    intros o' Ho'. cbn. unfold upd.
    by destruct (Nat.eqb_spec o' (Likelihood.oid self)).
Qed.

End GetVary.

Section AIC.
Context {F K Model T : Type} `{Num F} `{Likelihood.Methods F K Model T}.

Implicit Types w : World F K.

Lemma print_lines_run (lines : list string) : forall w,
  exists w',
    for_each lines print w = (Ok tt, w') /\
    stdout w' = stdout w ++ lines /\
    same_but_stdout w w'.
Proof.
  induction lines as [|line lines IH]; intros w; simpl.
  - exists w. unfold ret. rewrite app_nil_r. repeat split.
  - unfold bind. destruct (print line w) as [r w1] eqn:Hp.
    unfold print, modify in Hp. inversion Hp; subst r w1; clear Hp.
    match goal with |- context [for_each lines print ?w1] =>
      destruct (IH w1) as (w' & Hrun & Hout & Hs) end.
    exists w'. rewrite Hrun. split; [done|]. split.
    + rewrite Hout. simpl. by rewrite <- app_assoc.
    + destruct Hs as (? & ? & ? & ? & ?). repeat split; done.
Qed.

(** C7. For a likelihood with [n] data points and [k] vary-flagged
    parameters (the cached mask being absent or up to date) whose [logprob()]
    returns [l]: when [n - k - 1 > 0], [aic()] returns
    [aic + (2.0*k*(k+1.0))/(n-k-1.0)] with [aic = -2.0*l + 2.0*k] and prints
    nothing; when [n - k - 1 <= 0] it prints the three lines of the
    diagnostic and returns [+inf], without raising; and the outcome "the
    diagnostic is printed and [+inf] is returned" occurs exactly when
    [n - k - 1 <= 0].  The comparison [denom > 0] on floats is assumed to
    agree with the integers, as conversion of an integer and subtraction of
    [1.0] do in exact and in IEEE arithmetic. *)
Theorem aic_small_sample (self : T) (w w2 : World F K) (l : F) :
  (forall z : Z, fltb (of_Q 0) (fsub (of_Z z) (of_Q 1)) = (1 <? z)%Z) ->
  cache_current w (Likelihood.self_base self) ->
  Likelihood.call_logprob self
    (snd (Likelihood.get_vary_params (Likelihood.self_base self) w))
    = (Ok l, w2) ->
  let n := length (Likelihood.y (Likelihood.self_base self)) in
  let k := length (Likelihood.vary_mask
                     (rows_in w (Likelihood.self_base self))) in
  let aic_ := fadd (fmul (of_Q (-2)) l) (fmul (of_Q 2) (of_nat k)) in
  let w3 := snd (Likelihood.aic self w) in
  ((0 < Z.of_nat n - Z.of_nat k - 1)%Z ->
     Likelihood.aic self w =
       (Ok (fadd aic_
              (fdiv (fmul (fmul (of_Q 2) (of_nat k)) (fadd (of_nat k) (of_Q 1)))
                    (fsub (of_Z (Z.of_nat n - Z.of_nat k)) (of_Q 1)))),
        w2)) /\
  ((Z.of_nat n - Z.of_nat k - 1 <= 0)%Z ->
     fst (Likelihood.aic self w) = Ok finf /\
     stdout w3 = stdout w2 ++ Likelihood.aic_warning /\
     same_but_stdout w2 w3) /\
  ((fst (Likelihood.aic self w) = Ok finf /\
    stdout w3 = stdout w2 ++ Likelihood.aic_warning)
   <-> (Z.of_nat n - Z.of_nat k - 1 <= 0)%Z).
Proof.
  intros Hcmp Hc Hlog n k aic_ w3.
  destruct (get_vary_params_run (Likelihood.self_base self) w Hc)
    as (vals & w1 & Hget & Hlen & _).
  rewrite Hget in Hlog. simpl in Hlog.
  assert (Likelihood.aic self w =
          if (1 <? Z.of_nat n - Z.of_nat k)%Z
          then (Ok (fadd aic_
                  (fdiv (fmul (fmul (of_Q 2) (of_nat k))
                              (fadd (of_nat k) (of_Q 1)))
                        (fsub (of_Z (Z.of_nat n - Z.of_nat k)) (of_Q 1)))),
                w2)
          else (for_each Likelihood.aic_warning print ;;; ret finf) w2)
    as Haic.
  { unfold Likelihood.aic. unfold bind at 1. rewrite Hget.
    unfold bind at 1. rewrite Hlog. rewrite Hlen. fold k. fold n.
    unfold Likelihood.aic_denom. rewrite Hcmp.
    by destruct (1 <? Z.of_nat n - Z.of_nat k)%Z. }
  destruct (print_lines_run Likelihood.aic_warning w2)
    as (wp & Hprint & Hout & Hsame).
  subst w3.
  destruct (Z.ltb_spec 1 (Z.of_nat n - Z.of_nat k)) as [Hpos|Hneg];
    rewrite Haic.
  - split; [done|]. split; [lia|]. split; [|lia].
    intros [_ Hstd]. simpl in Hstd. exfalso.
    apply (f_equal length) in Hstd. rewrite length_app in Hstd.
    simpl in Hstd. lia.
  - unfold bind. rewrite Hprint. unfold ret. simpl.
    split; [lia|]. split; [done|]. split; [lia|done].
Qed.

End AIC.

(** ** Laws of the extended rationals *)

Lemma Fin_eq (p q : Qc) : (p == q)%Q -> Fin p = Fin q.
Proof. intros E. f_equal. by apply Qc_is_canon. Qed.

Lemma Qccompare_Q2Qc (a b : Q) : (Q2Qc a ?= Q2Qc b)%Qc = (a ?= b)%Q.
Proof. unfold Qccompare. simpl. symmetry. apply Qred_compare. Qed.

Lemma xnum_int_compare (z : Z) :
  fltb (of_Q 0) (fsub (of_Z z) (of_Q 1)) = (1 <? z)%Z.
Proof.
  unfold of_Z. simpl. unfold xsub. simpl.
  replace (Q2Qc (inject_Z z) + - Q2Qc 1)%Qc with (Q2Qc (inject_Z (z - 1))).
  - rewrite Qccompare_Q2Qc. unfold Qcompare. simpl.
    rewrite Z.mul_1_r.
    destruct (Z.ltb_spec 1 z) as [Hlt|Hge];
      destruct (z - 1)%Z eqn:E; try done; lia.
  - apply Qc_is_canon. simpl. rewrite !Qred_correct.
    unfold Qeq. simpl. lia.
Qed.

Lemma aic_small_sample_witness :
  fst (Likelihood.aic Example.rv3 Example.w_fixed) = Ok PInf /\
  stdout (snd (Likelihood.aic Example.rv3 Example.w_fixed)) =
    Likelihood.aic_warning.
Proof.
  edestruct (aic_small_sample Example.rv3 Example.w_fixed)
    as (_ & Hinf & _).
  - exact xnum_int_compare.
  - exact I.
  - vm_compute. reflexivity.
  - destruct Hinf as (Hv & Hout & _); [vm_compute; discriminate|].
    split; [exact Hv | exact Hout].
Defined.

(** Two runs of [aic()] against the claim as the specification words it.
    With a three-point dataset and two vary-flagged slots, [n - k - 1 = 0],
    but a mask of one slot cached before the flags changed: a finite value is
    returned and nothing is printed.  With a GP likelihood over three points
    and one vary-flagged slot, [n - k - 1 = 1 > 0], whose [logprob()] is
    [-inf] (the kernel is not positive definite): [+inf] is returned, and no
    diagnostic is printed. *)
Lemma aic_not_exactly_when :
  (length (Likelihood.y (RVLikelihood.base Example.rv3)) = 3 /\
   length (Likelihood.vary_mask
             (rows_in Sample.w3_short_cache (RVLikelihood.base Example.rv3)))
     = 2 /\
   vary_params Sample.w3_short_cache
     (Likelihood.oid (RVLikelihood.base Example.rv3)) = Some [0] /\
   fisfinite
     (match fst (Likelihood.aic Example.rv3 Sample.w3_short_cache) with
      | Ok v => v
      | Raise _ => NaN
      end) = true /\
   stdout (snd (Likelihood.aic Example.rv3 Sample.w3_short_cache)) = []) /\
  (length (Likelihood.y (GPLikelihood.self_base Example.gp_j0)) = 3 /\
   length (Likelihood.vary_mask
             (rows_in Sample.w_gp_one_vary
                (GPLikelihood.self_base Example.gp_j0))) = 1 /\
   vary_params Sample.w_gp_one_vary 0 = None /\
   fst (GPLikelihood.logprob Example.gp_j0 Sample.w_gp_one_vary)
     = Ok NInf /\
   fst (Likelihood.aic Example.gp_j0 Sample.w_gp_one_vary) = Ok PInf /\
   stdout (snd (Likelihood.aic Example.gp_j0 Sample.w_gp_one_vary)) = []).
Proof. vm_compute. repeat split. Qed.

(** ** Residuals of an RVLikelihood *)

Section ArrayLemmas.
Context {F : Type}.

Lemma zip_with__length {A B C : Type} (f : A -> B -> C) (a : list A) :
  forall b, length a = length b -> length (zip_with_ f a b) = length a.
Proof.
  induction a as [|u a IH]; intros [|v b] Hl; simpl in *; try done.
  f_equal. apply IH. lia.
Qed.

Lemma zip_with__map_r {A B B' C : Type} (f : A -> B' -> C) (g : B -> B')
    (a : list A) :
  forall b, zip_with_ f a (map g b) = zip_with_ (fun u v => f u (g v)) a b.
Proof.
  induction a as [|u a IH]; intros [|v b]; simpl; try done.
  by rewrite IH.
Qed.

Lemma zip_with__map_l {A A' B C : Type} (f : A' -> B -> C) (g : A -> A')
    (a : list A) :
  forall b, zip_with_ f (map g a) b = zip_with_ (fun u v => f (g u) v) a b.
Proof.
  induction a as [|u a IH]; intros [|v b]; simpl; try done.
  by rewrite IH.
Qed.

Lemma np_binop_same_length (f : F -> F -> F) (a b : list F) :
  length a = length b -> np_binop f a b = Ok (zip_with_ f a b).
Proof. intros Hl. unfold np_binop. by rewrite Hl, Nat.eqb_refl. Qed.

Lemma np_inplace_same_length (f : F -> F -> F) (a b : list F) :
  length a = length b -> np_inplace f a b = Ok (zip_with_ f a b).
Proof. intros Hl. unfold np_inplace. by rewrite Hl, Nat.eqb_refl. Qed.

End ArrayLemmas.

Section RVResiduals.
Context {F K Model : Type} `{Num F} `{NumPy F}
  `{Likelihood.ModelCall F K Model}.

Implicit Types w : World F K.
Implicit Types self : RVLikelihood.t F Model.

Lemma sum_sig_quad_length (sigma : list F) (jit : F) :
  length (sum_sig_quad sigma jit) = length sigma.
Proof. apply length_map. Qed.

(** The quotient the code assigns to [ztil] is the weighted mean of the
    specification when the arrays have one entry per data point. *)
Lemma ztil_quotient_spec (d yerr : list F) (jit : F) :
  length d = length yerr ->
  RVLikelihood.ztil_quotient d yerr jit =
    Ok (inverse_variance_weighted_mean d yerr jit).
Proof.
  intros Hl. unfold RVLikelihood.ztil_quotient.
  rewrite np_binop_same_length by (by rewrite sum_sig_quad_length).
  unfold inverse_variance_weighted_mean, RVLikelihood.inv_var, sum_sig_quad.
  rewrite zip_with__map_r, map_map. done.
Qed.

(** With [d/s = (1/s)*d], that mean has its textbook form: the sum of the
    [w_i * d_i] over the sum of the weights [w_i = 1/(yerr_i**2 + jit**2)]. *)
Lemma weighted_mean_form (d yerr : list F) (jit : F) :
  (forall u s : F, fdiv u s = fmul (fdiv (of_Q 1) s) u) ->
  inverse_variance_weighted_mean d yerr jit =
    weighted_mean (RVLikelihood.inv_var yerr jit) d.
Proof.
  intros Hdiv.
  unfold inverse_variance_weighted_mean, weighted_mean, RVLikelihood.inv_var,
    sum_sig_quad.
  rewrite map_map. f_equal. f_equal.
  revert yerr. induction d as [|u d IH]; intros [|s yerr]; simpl; try done.
  by rewrite Hdiv, IH.
Qed.

(** C2. For an [RVLikelihood] whose offset slot has the linear flag set and
    the vary flag unset (and whose arrays have one entry per data point),
    [residuals()] computes [ztil], the inverse-variance-weighted mean of
    [y - model(x)] with weights [1/(yerr**2 + jit**2)], replaced by [0] when
    it is NaN; writes it into the value field of the offset slot of the
    shared vector, leaving the rest of the world alone; and computes
    [res = y - ztil - model(x)] with that value.  [res] then goes through the
    decorrelation loop, and is what [residuals()] returns when no
    decorrelation parameter is registered.  In exact arithmetic the mean is
    the sum of the weighted differences over the sum of the weights. *)
Theorem residuals_eliminates_linear_gamma self w (mod_ : list F)
    (grow jrow : Vector.Row F) :
  let b := RVLikelihood.base self in
  Likelihood.model_call (Likelihood.model b) w (Likelihood.x b) = Ok mod_ ->
  rows_in w b !! RVLikelihood.gamma_index self = Some grow ->
  truthy (Vector.linear grow) = true ->
  truthy (Vector.vary grow) = false ->
  rows_in w b !! RVLikelihood.jit_index self = Some jrow ->
  length mod_ = length (Likelihood.y b) ->
  length (Likelihood.yerr b) = length (Likelihood.y b) ->
  let q := inverse_variance_weighted_mean
             (zip_with_ fsub (Likelihood.y b) mod_) (Likelihood.yerr b)
             (Vector.value jrow) in
  let ztil := if fisnan q then of_Q 0 else q in
  let w' := set_vector (Likelihood.vector b)
              (Vector.with_rows
                 (<[RVLikelihood.gamma_index self :=
                      Vector.set_value ztil grow]> (rows_in w b))
                 (vectors w (Likelihood.vector b))) w in
  let res := zip_with_ fsub (map (fun u => fsub u ztil) (Likelihood.y b))
               mod_ in
  RVLikelihood.base_residuals self w = (Ok res, w') /\
  RVLikelihood.residuals self w =
    RVLikelihood.decorr_loop self (RVLikelihood.decorr_params self) res w' /\
  (RVLikelihood.decorr_params self = [] ->
   RVLikelihood.residuals self w = (Ok res, w')) /\
  (ExactArith F ->
   q = weighted_mean
         (RVLikelihood.inv_var (Likelihood.yerr b) (Vector.value jrow))
         (zip_with_ fsub (Likelihood.y b) mod_)).
Proof.
  intros b Hmod Hg Hlin Hvary Hj Hlm Hle q ztil w' res.
  assert (RVLikelihood.base_residuals self w = (Ok res, w')) as Hbase.
  { unfold RVLikelihood.base_residuals, RVLikelihood.eliminate_gamma,
      RVLikelihood.row_at, RVLikelihood.rows_of, RVLikelihood.write_value,
      RVLikelihood.row_at, RVLikelihood.rows_of.
    unfold_monad. unfold id, seq_get. fold b. unfold rows_in in *.
    rewrite Hmod, Hg. unfold RVLikelihood.gamma_is_linear.
    rewrite Hlin, Hvary. simpl.
    rewrite np_binop_same_length by done.
    rewrite Hj. rewrite ztil_quotient_spec
      by (rewrite zip_with__length; [lia|lia]).
    rewrite Hg. fold q. unfold RVLikelihood.nan_to_zero. fold ztil.
    unfold set_vector at 1. unfold upd at 1. cbn [vectors].
    rewrite Nat.eqb_refl. cbn [Vector.vector Vector.with_rows].
    rewrite list_lookup_insert_eq by (by eapply lookup_lt_Some).
    cbn [Vector.value Vector.set_value].
    rewrite np_binop_same_length by (rewrite length_map; lia).
    done. }
  split; [done|].
  assert (RVLikelihood.residuals self w =
          RVLikelihood.decorr_loop self (RVLikelihood.decorr_params self)
            res w') as Hres.
  { unfold RVLikelihood.residuals. unfold bind at 1. by rewrite Hbase. }
  split; [done|]. split.
  - intros Hnil. rewrite Hres, Hnil. done.
  - intros Hexact. apply weighted_mean_form, fdiv_fmul.
Qed.

End RVResiduals.

Section Decorrelation.
Context {F K Model : Type} `{Num F} `{NumPy F}
  `{Likelihood.ModelCall F K Model}.

Implicit Types w : World F K.
Implicit Types self : RVLikelihood.t F Model.

Lemma decorr_pars_run self w (var : string) (ps : list string) :
  (forall par, par ∈ ps ->
     exists i row,
       assoc par (Vector.indices
                    (vectors w (Likelihood.vector (RVLikelihood.base self))))
         = Some i /\
       rows_in w (RVLikelihood.base self) !! i = Some row) ->
  RVLikelihood.decorr_pars self var ps w =
    (Ok (map (value_of self w) (List.filter (contains var) ps) ++ [of_Q 0]), w).
Proof.
  induction ps as [|par ps IH]; intros Hreg; simpl; [done|].
  destruct (contains var par) eqn:Hc.
  - destruct (Hreg par) as (i & row & Hi & Hrow); [by left|].
    unfold RVLikelihood.row_at, RVLikelihood.rows_of.
    unfold_monad. unfold dict_get, seq_get. cbn beta.
    rewrite Hi. unfold rows_in in Hrow. rewrite Hrow.
    rewrite IH by (intros p Hp; apply Hreg; by right).
    simpl. unfold value_of. rewrite Hi. simpl. rewrite Hrow. done.
  - apply IH. intros p Hp. apply Hreg. by right.
Qed.

Lemma term_of_length self w (parname : string) :
  length (term_of self w parname) = length (aux_of self parname).
Proof. unfold term_of. by rewrite length_map. Qed.

(** One turn of the loop: the term is subtracted when the auxiliary vector is
    finite throughout, and the turn does nothing otherwise. *)
Lemma decorr_step_run self w (parname : string) (res : list F) :
  decorr_registered self w ->
  decorr_vectors_given self (length res) ->
  parname ∈ RVLikelihood.decorr_params self ->
  RVLikelihood.decorr_step self parname res w =
    (Ok (if finite_aux self parname
         then zip_with_ fsub res (term_of self w parname) else res), w).
Proof.
  intros Hreg Hvec Hin.
  destruct (Hvec parname Hin) as (var & v & Hvar & Hv & Hlen).
  unfold RVLikelihood.decorr_step. unfold bind at 1. unfold lift at 1.
  unfold seq_get. rewrite Hvar.
  unfold bind at 1. rewrite decorr_pars_run by done.
  unfold bind, lift, dict_get, ret. rewrite Hv.
  unfold finite_aux, aux_of, var_of, term_of, aux_of, var_of.
  rewrite Hvar. simpl. rewrite Hv. simpl.
  unfold RVLikelihood.all_finite.
  destruct (forallb fisfinite v); [|done].
  unfold RVLikelihood.decorr_term.
  rewrite np_inplace_same_length by (rewrite !length_map; lia).
  rewrite map_map. done.
Qed.

Lemma decorr_loop_run self w (ps : list string) : forall (res : list F),
  decorr_registered self w ->
  decorr_vectors_given self (length res) ->
  (forall p, p ∈ ps -> p ∈ RVLikelihood.decorr_params self) ->
  RVLikelihood.decorr_loop self ps res w =
    (Ok (subtract_terms self w (List.filter (finite_aux self) ps) res), w).
Proof.
  induction ps as [|p ps IH]; intros res Hreg Hvec Hsub; simpl; [done|].
  unfold bind. rewrite decorr_step_run by (try done; apply Hsub; by left).
  assert (p ∈ RVLikelihood.decorr_params self) as Hp by (apply Hsub; by left).
  destruct (finite_aux self p) eqn:Hfin.
  - rewrite IH; try done.
    + destruct (Hvec p Hp) as (var & v & Hvar & Hv & Hlen).
      rewrite zip_with__length; [done|].
      rewrite term_of_length. unfold aux_of, var_of.
      rewrite Hvar. simpl. rewrite Hv. simpl. lia.
    + intros q Hq. apply Hsub. by right.
  - apply IH; try done. intros q Hq. apply Hsub. by right.
Qed.

(** C8. For an [RVLikelihood] whose decorrelation parameters are registered
    in the vector and whose auxiliary vectors have one entry per residual,
    [residuals()] returns the residuals [res = y - gamma - model(x)] minus the
    decorrelation polynomial (on the mean-centred auxiliary vector, constant
    coefficient [0.0]) of exactly those parameters whose auxiliary vector has
    finite entries only.  A vector with a non-finite entry makes its own term
    drop out and nothing else: no exception, no warning, no change of the
    world, and the terms of the other variables are subtracted as before. *)
Theorem residuals_decorrelation self w w' (res : list F) :
  RVLikelihood.base_residuals self w = (Ok res, w') ->
  decorr_registered self w' ->
  decorr_vectors_given self (length res) ->
  RVLikelihood.residuals self w =
    (Ok (subtract_terms self w'
           (List.filter (finite_aux self) (RVLikelihood.decorr_params self))
           res), w') /\
  (forall parname, parname ∈ RVLikelihood.decorr_params self ->
     RVLikelihood.decorr_step self parname res w' =
       (Ok (if forallb fisfinite (aux_of self parname)
            then zip_with_ fsub res (term_of self w' parname)
            else res), w')) /\
  (forall var, last (pars_of self w' var) = Some (of_Q 0)).
Proof.
  intros Hbase Hreg Hvec. split; [|split].
  - unfold RVLikelihood.residuals, bind. rewrite Hbase.
    by apply decorr_loop_run.
  - intros parname Hin. by apply decorr_step_run.
  - intros var. unfold pars_of. by rewrite last_snoc.
Qed.

End Decorrelation.

(** ** The composite log-probability *)

Section CompositeLogprob.
Context {F K Model : Type} `{Num F} `{NumPy F}
  `{Likelihood.ModelCall F K Model} `{PySet}.

Implicit Types w : World F K.

Lemma sum_logprob_run (likes : list (RVLikelihood.t F Model)) :
  forall w (ls : list F) w' (acc : F),
    children_return likes w ls w' ->
    CompositeLikelihood.sum_logprob likes acc w =
      (Ok (fold_left fadd ls acc), w').
Proof.
  induction likes as [|like likes IH]; intros w ls w' acc Hrun;
    inversion Hrun as [|? ? ? l w1 ls' ? Hl Hrest]; subst; simpl; [done|].
  unfold bind. rewrite Hl. by apply IH.
Qed.

(** A child that raises ends the sum: the exception leaves [logprob]. *)
Lemma sum_logprob_raises (likes1 likes2 : list (RVLikelihood.t F Model))
    (like : RVLikelihood.t F Model) :
  forall w (ls : list F) w1 w2 (acc : F) (e : exn),
    children_return likes1 w ls w1 ->
    RVLikelihood.logprob like w1 = (Raise e, w2) ->
    CompositeLikelihood.sum_logprob (likes1 ++ like :: likes2) acc w =
      (Raise e, w2).
Proof.
  induction likes1 as [|l0 likes1 IH]; intros w ls w1 w2 acc e Hrun Hraise;
    inversion Hrun as [|? ? ? l w0 ls' ? Hl Hrest]; subst; simpl.
  - unfold bind. by rewrite Hraise.
  - unfold bind. rewrite Hl. by eapply IH.
Qed.

Lemma zip_with__app {A B C : Type} (f : A -> B -> C) (a1 : list A) :
  forall a2 b1 b2, length a1 = length b1 ->
    zip_with_ f (a1 ++ a2) (b1 ++ b2) = zip_with_ f a1 b1 ++ zip_with_ f a2 b2.
Proof.
  induction a1 as [|u a1 IH]; intros a2 [|v b1] b2 Hl; simpl in *; try done.
  f_equal. apply IH. lia.
Qed.

Lemma loglike_jitter_spec (r sigma : list F) (jit : F) :
  length r = length sigma ->
  loglike_jitter r sigma (NpFloat jit) = Ok (gaussian_loglike r sigma jit).
Proof.
  intros Hl. unfold loglike_jitter. cbn [scalar_sq].
  change (map (fun s => fadd (fsq s) (fsq jit)) sigma)
    with (sum_sig_quad sigma jit).
  rewrite np_binop_same_length
    by (rewrite length_map; unfold sum_sig_quad; rewrite length_map; done).
  unfold gaussian_loglike, chi2_terms, penalty_terms, sum_sig_quad.
  rewrite zip_with__map_r, zip_with__map_l, map_map. done.
Qed.

(** [logprob()] of an [RVLikelihood] without decorrelation whose offset is
    not eliminated: the Gaussian log-likelihood of [y - gamma - model(x)],
    and no change of the world. *)
Lemma rv_logprob_plain (like : RVLikelihood.t F Model) w (m : list F)
    (grow jrow : Vector.Row F) :
  let b := RVLikelihood.base like in
  Likelihood.model_call (Likelihood.model b) w (Likelihood.x b) = Ok m ->
  rows_in w b !! RVLikelihood.gamma_index like = Some grow ->
  RVLikelihood.gamma_is_linear grow = false ->
  rows_in w b !! RVLikelihood.jit_index like = Some jrow ->
  RVLikelihood.decorr_params like = [] ->
  length m = length (Likelihood.y b) ->
  length (Likelihood.yerr b) = length (Likelihood.y b) ->
  RVLikelihood.logprob like w =
    (Ok (gaussian_loglike
           (plain_residuals (Likelihood.y b) m (Vector.value grow))
           (Likelihood.yerr b) (Vector.value jrow)), w).
Proof.
  intros b Hm Hg Hlin Hj Hd Hlm Hle.
  unfold RVLikelihood.logprob, RVLikelihood.residuals,
    RVLikelihood.base_residuals, RVLikelihood.eliminate_gamma,
    RVLikelihood.row_at, RVLikelihood.rows_of.
  unfold_monad. unfold id, seq_get. fold b. unfold rows_in in *.
  rewrite Hj, Hm, Hg, Hlin. rewrite Hg.
  rewrite np_binop_same_length by (rewrite length_map; lia).
  rewrite Hd. simpl. unfold ret.
  rewrite loglike_jitter_spec.
  - rewrite Hg, Hlin. done.
  - rewrite zip_with__length; rewrite length_map; lia.
Qed.

Section Split.
Context `{!ExactArith F}.

Lemma fadd_interchange (a b c d : F) :
  fadd (fadd a b) (fadd c d) = fadd (fadd a c) (fadd b d).
Proof.
  rewrite <- (fadd_assoc a b (fadd c d)).
  rewrite (fadd_assoc b c d), (fadd_comm b c).
  rewrite <- (fadd_assoc c b d).
  by rewrite (fadd_assoc a c (fadd b d)).
Qed.

Lemma gaussian_loglike_app (r1 r2 s1 s2 : list F) (jit : F) :
  length r1 = length s1 ->
  gaussian_loglike (r1 ++ r2) (s1 ++ s2) jit =
    fadd (gaussian_loglike r1 s1 jit) (gaussian_loglike r2 s2 jit).
Proof.
  intros Hl. unfold gaussian_loglike, chi2_terms, penalty_terms.
  rewrite zip_with__app by done. rewrite map_app.
  rewrite !np_sum_app. rewrite !fsub_fadd.
  rewrite fmul_half_fadd, fneg_fadd.
  apply fadd_interchange.
Qed.

Lemma plain_residuals_app (y1 y2 m1 m2 : list F) (g : F) :
  length m1 = length y1 ->
  plain_residuals (y1 ++ y2) (m1 ++ m2) g =
    plain_residuals y1 m1 g ++ plain_residuals y2 m2 g.
Proof.
  intros Hl. unfold plain_residuals. rewrite map_app.
  apply zip_with__app. by rewrite length_map.
Qed.

Lemma plain_residuals_length (y m : list F) (g : F) :
  length m = length y -> length (plain_residuals y m g) = length y.
Proof.
  intros Hl. unfold plain_residuals.
  rewrite zip_with__length; rewrite length_map; done.
Qed.

(** The log-likelihoods of the parts, added from the left to that of the
    points before them, give the log-likelihood of all the points. *)
Lemma parts_loglike (g jit : F) (parts : list (list F * list F * list F)) :
  forall y0 m0 e0 : list F,
    length m0 = length y0 -> length e0 = length y0 ->
    Forall (fun p => length (p.1.2) = length (p.1.1) /\
                     length (p.2) = length (p.1.1)) parts ->
    fold_left fadd
      (map (fun p => gaussian_loglike (plain_residuals p.1.1 p.1.2 g) p.2 jit)
           parts)
      (gaussian_loglike (plain_residuals y0 m0 g) e0 jit) =
    gaussian_loglike
      (plain_residuals (y0 ++ concat (map (fun p => p.1.1) parts))
                       (m0 ++ concat (map (fun p => p.1.2) parts)) g)
      (e0 ++ concat (map (fun p => p.2) parts)) jit.
Proof.
  induction parts as [|[[y1 m1] e1] parts IH]; intros y0 m0 e0 Hm He Hall.
  - simpl. by rewrite !app_nil_r.
  - apply Forall_cons in Hall as [[Hm1 He1] Hall]. simpl in Hm1, He1.
    cbn [map fold_left concat fst snd].
    rewrite <- gaussian_loglike_app
      by (rewrite plain_residuals_length; done).
    rewrite <- plain_residuals_app by done.
    rewrite IH; [|rewrite !length_app; lia..|done].
    by rewrite <- !app_assoc.
Qed.

End Split.

(** The children that are parts of [W] return one after the other, each the
    log-likelihood of its own points, and change nothing. *)
Lemma sum_logprob_parts (W : RVLikelihood.t F Model) w
    (gW jW : Vector.Row F) :
  rows_in w (RVLikelihood.base W) !! RVLikelihood.gamma_index W = Some gW ->
  rows_in w (RVLikelihood.base W) !! RVLikelihood.jit_index W = Some jW ->
  forall likes ms, Forall2 (part_of W w) likes ms ->
  forall acc : F,
    CompositeLikelihood.sum_logprob likes acc w =
      (Ok (fold_left fadd
             (map (fun p => gaussian_loglike
                              (plain_residuals p.1.1 p.1.2 (Vector.value gW))
                              p.2 (Vector.value jW))
                  (zip_with_ (fun A m =>
                                (Likelihood.y (RVLikelihood.base A), m,
                                 Likelihood.yerr (RVLikelihood.base A)))
                             likes ms))
             acc), w).
Proof.
  intros HgW HjW likes ms Hparts.
  induction Hparts as [|A m likes ms HA Hrest IH]; intros acc; [done|].
  destruct HA as [Hmodel Hvec Hdec Hyerr Hcall Hlen
                    (gW' & gA & HgW' & HgA & Hlin & Hgv)
                    (jW' & jA & HjW' & HjA & Hjv)].
  rewrite HgW in HgW'. inversion HgW'; subst gW'.
  rewrite HjW in HjW'. inversion HjW'; subst jW'.
  cbn [CompositeLikelihood.sum_logprob zip_with_ map fold_left fst snd].
  unfold bind.
  rewrite (rv_logprob_plain A w m gA jA); try done.
  - rewrite Hgv, Hjv. apply IH.
  - by rewrite Hmodel.
  - unfold rows_in in *. by rewrite Hvec.
  - unfold rows_in in *. by rewrite Hvec.
Qed.

Lemma parts_arrays (W : RVLikelihood.t F Model) w :
  forall likes ms, Forall2 (part_of W w) likes ms ->
    let parts := zip_with_ (fun A m =>
                              (Likelihood.y (RVLikelihood.base A), m,
                               Likelihood.yerr (RVLikelihood.base A)))
                           likes ms in
    map (fun p => p.1.1) parts =
      map (fun A => Likelihood.y (RVLikelihood.base A)) likes /\
    map (fun p => p.1.2) parts = ms /\
    map (fun p => p.2) parts =
      map (fun A => Likelihood.yerr (RVLikelihood.base A)) likes /\
    Forall (fun p => length (p.1.2) = length (p.1.1) /\
                     length (p.2) = length (p.1.1)) parts.
Proof.
  intros likes ms Hparts.
  induction Hparts as [|A m likes ms HA Hrest IH]; [done|].
  destruct IH as (Hy & Hm & He & Hall). cbn [zip_with_ map fst snd].
  rewrite Hy, Hm, He. repeat split; try done.
  apply Forall_cons. split; [|done]. simpl.
  split; [apply HA|apply HA].
Qed.

Lemma parts_lengths (W : RVLikelihood.t F Model) w :
  forall likes ms, Forall2 (part_of W w) likes ms ->
    length (concat ms) =
      length (concat (map (fun A => Likelihood.y (RVLikelihood.base A))
                        likes)) /\
    length (concat (map (fun A => Likelihood.yerr (RVLikelihood.base A))
                      likes)) =
      length (concat (map (fun A => Likelihood.y (RVLikelihood.base A))
                        likes)).
Proof.
  intros likes ms Hparts.
  induction Hparts as [|A m likes ms HA Hrest [IHm IHe]]; [done|].
  cbn [map concat]. rewrite !length_app, IHm, IHe.
  rewrite (part_call_length _ _ _ _ HA), (part_yerr _ _ _ _ HA). done.
Qed.

(** One dataset against its parts: the composite of the parts has, in exact
    arithmetic, the log-probability of the whole. *)
Lemma partition_logprob `{!ExactArith F} (W : RVLikelihood.t F Model)
    (likes : list (RVLikelihood.t F Model)) w :
  likes <> [] ->
  partition_of W likes w ->
  CompositeLikelihood.sum_logprob likes (of_Z 0) w = RVLikelihood.logprob W w.
Proof.
  intros Hne (ms & Hparts & HdW & (gW & HgW & HlinW) & (jW & HjW)
              & Hx & Hy & He & Hcall).
  destruct (parts_lengths W w likes ms Hparts) as [Hlm Hle].
  rewrite (sum_logprob_parts W w gW jW HgW HjW likes ms Hparts).
  destruct Hparts as [|A m likes ms HA Hrest]; [done|].
  destruct (parts_arrays W w likes ms Hrest) as (Hys & Hms & Hes & Hall).
  cbn [zip_with_ map fold_left fst snd concat] in *.
  rewrite fadd_0_l.
  rewrite (parts_loglike (Vector.value gW) (Vector.value jW));
    [|apply HA|apply HA|exact Hall].
  rewrite Hys, Hms, Hes.
  rewrite (rv_logprob_plain W w (m ++ concat ms) gW jW); try done.
  - by rewrite Hy, He.
  - by rewrite Hy.
  - by rewrite He, Hy.
Qed.

(** C5. [CompositeLikelihood.logprob()] returns the sum of its children's
    [logprob()], taken in list order from the initial [0], each child starting
    in the world its predecessor left.  In particular, in exact arithmetic,
    when the children are the parts of one dataset with the same parameters,
    no decorrelation and no eliminated offset, the composite has the
    log-probability of the single-dataset likelihood. *)
Theorem composite_logprob_is_sum (self : CompositeLikelihood.t F Model) w
    (ls : list F) w' :
  children_return (CompositeLikelihood.like_list self) w ls w' ->
  CompositeLikelihood.logprob self w = (Ok (fold_left fadd ls (of_Z 0)), w') /\
  (forall W : RVLikelihood.t F Model,
     ExactArith F ->
     CompositeLikelihood.like_list self <> [] ->
     partition_of W (CompositeLikelihood.like_list self) w ->
     CompositeLikelihood.logprob self w = RVLikelihood.logprob W w).
Proof.
  intros Hrun. split.
  - by apply sum_logprob_run.
  - intros W Hexact Hne Hpart. unfold CompositeLikelihood.logprob.
    by apply partition_logprob.
Qed.

End CompositeLogprob.

(** ** The extended rationals are an exact arithmetic *)

Lemma xadd_0_l (a : xnum) : xadd (Fin 0) a = a.
Proof. destruct a; simpl; try done. f_equal. ring. Qed.

Lemma xadd_0_r (a : xnum) : xadd a (Fin 0) = a.
Proof. destruct a; simpl; try done. f_equal. ring. Qed.

Lemma xadd_assoc (a b c : xnum) : xadd a (xadd b c) = xadd (xadd a b) c.
Proof. destruct a, b, c; simpl; try done. f_equal. ring. Qed.

Lemma xadd_comm (a b : xnum) : xadd a b = xadd b a.
Proof. destruct a, b; simpl; try done. f_equal. ring. Qed.

Lemma xneg_xadd (a b : xnum) : xneg (xadd a b) = xadd (xneg a) (xneg b).
Proof. destruct a, b; simpl; try done. f_equal. ring. Qed.

Lemma xmul_half_xadd (a b : xnum) :
  xmul (Fin (Q2Qc (-1 # 2))) (xadd a b) =
  xadd (xmul (Fin (Q2Qc (-1 # 2))) a) (xmul (Fin (Q2Qc (-1 # 2))) b).
Proof. destruct a, b; simpl; try done. f_equal. ring. Qed.

Lemma Qccompare_inv (q : Qc) : (1 / q ?= 0)%Qc = (q ?= 0)%Qc.
Proof.
  unfold Qccompare. simpl. rewrite !Qred_correct.
  destruct q as [[n d] Hq]. simpl.
  destruct n; reflexivity.
Qed.

Lemma xdiv_xmul (d s : xnum) : xdiv d s = xmul (xdiv (Fin 1) s) d.
Proof.
  destruct s as [q| | |]; simpl.
  - destruct (q ?= 0)%Qc eqn:Hq.
    + destruct d as [p| | |]; simpl; rewrite ?Hq; try done.
      by destruct (p ?= 0)%Qc.
    + destruct d as [p| | |]; simpl; rewrite ?Hq; try done.
      * f_equal. unfold Qcdiv. ring.
      * by rewrite Qccompare_inv, Hq.
      * by rewrite Qccompare_inv, Hq.
    + destruct d as [p| | |]; simpl; rewrite ?Hq; try done.
      * f_equal. unfold Qcdiv. ring.
      * by rewrite Qccompare_inv, Hq.
      * by rewrite Qccompare_inv, Hq.
  - destruct d as [p| | |]; simpl; try done. f_equal. ring.
  - destruct d as [p| | |]; simpl; try done. f_equal. ring.
  - by destruct d.
Qed.

Lemma fold_xadd_shift (l : list xnum) : forall acc b,
  fold_left xadd l (xadd acc b) = xadd acc (fold_left xadd l b).
Proof.
  induction l as [|a l IH]; intros acc b; simpl; [done|].
  by rewrite <- xadd_assoc, IH.
Qed.

Lemma xsum_from (l : list xnum) (acc : xnum) :
  fold_left xadd l acc = xadd acc (Example.xsum l).
Proof.
  unfold Example.xsum. rewrite <- fold_xadd_shift. by rewrite xadd_0_r.
Qed.

Lemma xnum_exact : ExactArith xnum.
Proof.
  split.
  - apply xadd_0_l.
  - apply xadd_assoc.
  - apply xadd_comm.
  - reflexivity.
  - apply xneg_xadd.
  - apply xmul_half_xadd.
  - apply xdiv_xmul.
  - intros a b. simpl. unfold Example.xsum at 1.
    rewrite fold_left_app. apply xsum_from.
Qed.

(** ** Construction of a composite *)

Section CompositeInit.
Context {F K Model : Type} `{Num F} `{PySet}.

Implicit Types w : World F K.
Implicit Types like : RVLikelihood.t F Model.

(** C10. The constructor applied to a one-child list returns normally in
    every world and leaves the world as it found it: the loop that holds the
    two assertions starts at the second child, so nothing is checked.  The
    new object takes [model], [vector], [params], [x], [y], [yerr],
    [uparams] and [telvec] from the child as they are, its [suffixes] is the
    child's [suffix], its [like_list] is the list given; its [hnames] is
    empty, whatever the child's is; and its [extra_params] is
    [list(set(...))] of the child's: as [list(set(l))] holds the names of
    [l], each once, it holds the child's names, each once, and is a
    rearrangement of the child's list when that has no repetition. *)
Theorem composite_of_one_child (self_oid : nat) like w :
  exists self : CompositeLikelihood.t F Model,
    CompositeLikelihood.__init__ self_oid [like] w = (Ok self, w) /\
    CompositeLikelihood.nlike self = 1 /\
    CompositeLikelihood.like_list self = [like] /\
    Likelihood.model (CompositeLikelihood.base self) =
      Likelihood.model (RVLikelihood.base like) /\
    Likelihood.vector (CompositeLikelihood.base self) =
      Likelihood.vector (RVLikelihood.base like) /\
    Likelihood.params (CompositeLikelihood.base self) =
      Likelihood.params (RVLikelihood.base like) /\
    Likelihood.x (CompositeLikelihood.base self) =
      Likelihood.x (RVLikelihood.base like) /\
    Likelihood.y (CompositeLikelihood.base self) =
      Likelihood.y (RVLikelihood.base like) /\
    Likelihood.yerr (CompositeLikelihood.base self) =
      Likelihood.yerr (RVLikelihood.base like) /\
    Likelihood.uparams (CompositeLikelihood.base self) =
      Likelihood.uparams (RVLikelihood.base like) /\
    CompositeLikelihood.telvec self = RVLikelihood.telvec like /\
    CompositeLikelihood.suffixes self =
      CompositeLikelihood.Str (RVLikelihood.suffix like) /\
    CompositeLikelihood.hnames self = [] /\
    CompositeLikelihood.extra_params self =
      list_set (RVLikelihood.extra_params like) /\
    ((forall l, NoDup (list_set l) /\ forall x, x ∈ list_set l <-> x ∈ l) ->
     NoDup (CompositeLikelihood.extra_params self) /\
     (forall x, x ∈ CompositeLikelihood.extra_params self <->
                x ∈ RVLikelihood.extra_params like) /\
     (NoDup (RVLikelihood.extra_params like) ->
      CompositeLikelihood.extra_params self ≡ₚ
        RVLikelihood.extra_params like)).
Proof.
  eexists. split; [reflexivity|]. simpl. repeat (split; [done|]).
  intros Hset.
  destruct (Hset (RVLikelihood.extra_params like)) as [Hnd Hin].
  split; [done|]. split; [done|].
  intros Hnd'. by apply NoDup_Permutation.
Qed.

Lemma assoc_app_l {V : Type} (k : string) (d d' : list (string * V)) (v : V) :
  assoc k d = Some v -> assoc k (d ++ d') = Some v.
Proof.
  induction d as [|[k0 v0] d IH]; simpl; [done|].
  destruct (String.eqb k k0); [done|apply IH].
Qed.

Lemma assoc_app_new {V : Type} (k : string) (d : list (string * V)) (v : V) :
  assoc k d = None -> assoc k (d ++ [(k, v)]) = Some v.
Proof.
  induction d as [|[k0 v0] d IH]; simpl.
  - by rewrite String.eqb_refl.
  - destruct (String.eqb k k0); [done|apply IH].
Qed.

Lemma assoc_keys {V : Type} (k : string) (d : list (string * V)) :
  k ∈ map fst d -> exists v, assoc k d = Some v.
Proof.
  induction d as [|[k0 v0] d IH]; simpl; intros Hin.
  - by apply elem_of_nil in Hin.
  - destruct (String.eqb_spec k k0) as [->|Hne]; [eauto|].
    apply elem_of_cons in Hin as [?|Hin]; [done|by apply IH].
Qed.

Lemma params_grow_refl (P : nat) w : params_grow P w w.
Proof. repeat split; auto. Qed.

Lemma params_grow_trans (P : nat) w1 w2 w3 :
  params_grow P w1 w2 -> params_grow P w2 w3 -> params_grow P w1 w3.
Proof.
  intros (V1 & M1 & O1) (V2 & M2 & O2). split; [congruence|]. split.
  - intros a k f Hk. apply M2, M1, Hk.
  - intros a Ha. rewrite O2, O1 by done. done.
Qed.

Lemma params_grow_add (P : nat) w (k : string) (p : Param.t F) :
  assoc k (paramss w P) = None ->
  params_grow P w (set_params P (dict_add (paramss w P) k p) w) /\
  assoc k (paramss (set_params P (dict_add (paramss w P) k p) w) P) = Some p.
Proof.
  intros Hnone. unfold set_params, upd, dict_add; simpl.
  rewrite Nat.eqb_refl. split; [|by apply assoc_app_new].
  split; [done|]. split.
  - intros a k' f Hk'. simpl.
    destruct (Nat.eqb_spec a P) as [->|Hne]; [|done].
    by apply assoc_app_l.
  - intros a Ha. simpl. by destruct (Nat.eqb_spec a P).
Qed.

(** The loop over the names of a child: it returns or fails an assertion;
    when it returns, every name of the child has an entry in the merged
    dictionary that is the child's own or [_equals] it; and it does fail when
    the merged dictionary holds, under one of the names, a parameter that
    [_equals] tells apart from the child's. *)
Lemma merge_params_run (P pj : nat) (keys : list string) : forall w,
  (forall k, k ∈ keys -> exists q, assoc k (paramss w pj) = Some q) ->
  exists r w',
    CompositeLikelihood.merge_params P pj keys w = (r, w') /\
    params_grow P w w' /\
    match r with
    | Ok _ =>
        forall k q, k ∈ keys -> assoc k (paramss w pj) = Some q ->
          exists f, assoc k (paramss w' P) = Some f /\
                    (f = q \/ Param._equals q f = true)
    | Raise e => exists msg, e = AssertionError msg
    end /\
    ((exists k q f, k ∈ keys /\ assoc k (paramss w pj) = Some q /\
                    assoc k (paramss w P) = Some f /\
                    Param._equals q f = false) ->
     exists msg, r = Raise (AssertionError msg)).
Proof.
  induction keys as [|k keys IH]; intros w Hkeys.
  - exists (Ok tt), w. split; [done|]. split; [apply params_grow_refl|].
    split.
    + intros k q Hin. by apply elem_of_nil in Hin.
    + intros (k & q & f & Hin & _). by apply elem_of_nil in Hin.
  - destruct (Hkeys k) as [p Hp]; [by left|].
    simpl. unfold bind at 1, gets at 1. unfold bind at 1, gets at 1.
    unfold bind at 1, lift at 1, dict_get at 1. rewrite Hp.
    unfold dict_mem.
    destruct (assoc k (paramss w P)) as [f|] eqn:Hf.
    + unfold bind at 1. unfold bind at 1, lift at 1, dict_get at 1.
      rewrite Hf. unfold assert.
      destruct (Param._equals p f) eqn:Heq.
      * unfold ret at 1.
        destruct (IH w) as (r & w' & Hrun & Hgrow & Hpost & Hdet).
        { intros k' Hk'. apply Hkeys. by right. }
        exists r, w'. split; [done|]. split; [done|]. split.
        -- destruct r as [[]|e]; [|done].
           intros k' q Hin Hq. apply elem_of_cons in Hin as [->|Hin].
           ++ exists f. split; [by apply Hgrow|].
              right. congruence.
           ++ by apply Hpost.
        -- intros (k' & q & f' & Hin & Hq & Hf' & Hne).
           apply elem_of_cons in Hin as [->|Hin]; [congruence|].
           apply Hdet. eauto 10.
      * unfold raise. eexists _, w. split; [reflexivity|].
        split; [apply params_grow_refl|]. split; eauto.
    + unfold bind at 1, modify at 1.
      destruct (params_grow_add P w k p Hf) as [Hg1 Hnew].
      set (w1 := set_params P (dict_add (paramss w P) k p) w) in *.
      destruct (IH w1) as (r & w' & Hrun & Hgrow & Hpost & Hdet).
      { intros k' Hk'. destruct (Hkeys k') as [q Hq]; [by right|].
        exists q. by apply Hg1. }
      exists r, w'. split; [done|].
      split; [by eapply params_grow_trans|]. split.
      * destruct r as [[]|e]; [|done].
        intros k' q Hin Hq. apply elem_of_cons in Hin as [->|Hin].
        -- exists p. split; [by apply Hgrow|]. left. congruence.
        -- apply Hpost; [done|]. by apply Hg1.
      * intros (k' & q & f' & Hin & Hq & Hf' & Hne).
        apply elem_of_cons in Hin as [->|Hin]; [congruence|].
        apply Hdet. exists k', q, f'. repeat split; try done.
        -- by apply Hg1.
        -- by apply Hg1.
Qed.

Lemma assoc_in_keys {V : Type} (k : string) (d : list (string * V)) (v : V) :
  assoc k d = Some v -> k ∈ map fst d.
Proof.
  induction d as [|[k0 v0] d IH]; simpl; [done|].
  destruct (String.eqb_spec k k0) as [->|Hne]; [by left|].
  intros Hk. right. by apply IH.
Qed.

Section Detection.
Hypothesis feqb_sym : forall a b : F, feqb a b = true -> feqb b a = true.
Hypothesis feqb_trans : forall a b c : F,
  feqb a b = true -> feqb b c = true -> feqb a c = true.

Lemma equals_sym (p q : Param.t F) :
  Param._equals p q = true -> Param._equals q p = true.
Proof.
  unfold Param._equals. rewrite !andb_true_iff.
  intros [Hv Hb]. split; [by apply feqb_sym|].
  apply Bool.eqb_prop in Hb. rewrite Hb. apply Bool.eqb_reflx.
Qed.

Lemma equals_trans (p q r : Param.t F) :
  Param._equals p q = true -> Param._equals q r = true ->
  Param._equals p r = true.
Proof.
  unfold Param._equals. rewrite !andb_true_iff.
  intros [Hv1 Hb1] [Hv2 Hb2]. split; [by eapply feqb_trans|].
  apply Bool.eqb_prop in Hb1, Hb2. rewrite Hb1, Hb2. apply Bool.eqb_reflx.
Qed.

(** One turn of the constructor's loop. *)
Lemma absorb_run (P V : nat) (self : CompositeLikelihood.t F Model) like w :
  Likelihood.uparams (CompositeLikelihood.base self) = None ->
  offset_registered w like ->
  exists r w',
    CompositeLikelihood.absorb P V self like w = (r, w') /\
    params_grow P w w' /\
    match r with
    | Ok self' =>
        Likelihood.uparams (CompositeLikelihood.base self') = None /\
        forall k q, assoc k (params_of w like) = Some q ->
          exists f, assoc k (paramss w' P) = Some f /\
                    (f = q \/ Param._equals q f = true)
    | Raise e => exists msg, e = AssertionError msg
    end /\
    (Likelihood.vector (RVLikelihood.base like) <> V \/
     (exists k q f, assoc k (params_of w like) = Some q /\
                    assoc k (paramss w P) = Some f /\
                    Param._equals q f = false) ->
     exists msg, r = Raise (AssertionError msg)).
Proof.
  intros Hup (i & row & Hi & Hrow).
  destruct (merge_params_run P (Likelihood.params (RVLikelihood.base like))
              (map fst (params_of w like)) w)
    as (r & w' & Hrun & Hgrow & Hpost & Hdet).
  { intros k Hk. by apply assoc_keys. }
  unfold CompositeLikelihood.absorb, CompositeLikelihood.gamma_value.
  unfold bind at 1. unfold bind at 1, gets at 1.
  unfold bind at 1, lift at 1, dict_get at 1. rewrite Hi.
  unfold bind at 1, lift at 1, seq_get at 1. rewrite Hrow.
  unfold ret at 1.
  unfold bind at 1. rewrite Hup. unfold CompositeLikelihood.update_uparams.
  unfold ret at 1.
  unfold bind at 1, gets at 1. fold (params_of w like).
  unfold bind at 1. rewrite Hrun.
  destruct r as [[]|e].
  - unfold bind at 1, assert.
    destruct (Nat.eqb_spec (Likelihood.vector (RVLikelihood.base like)) V)
      as [HV|HV].
    + unfold ret. eexists _, w'. split; [reflexivity|]. split; [done|].
      split.
      * split; [done|]. intros k q Hq. apply Hpost; [|done].
        by eapply assoc_in_keys.
      * intros [Hne|(k & q & f & Hq & Hf & Hneq)]; [done|].
        destruct Hdet as [msg Hmsg]; [|done].
        exists k, q, f. split; [by eapply assoc_in_keys|done].
    + unfold raise. eexists _, w'. split; [reflexivity|]. split; [done|].
      split; eauto.
  - eexists _, w'. split; [reflexivity|]. split; [done|].
    destruct Hpost as [msg ->]. split; eauto.
Qed.

(** The loop stops at an assertion when a child to come refers to another
    vector or disagrees with a child already merged or still to come before
    it. *)
Lemma absorb_all_detects (P V : nat) (w0 : World F K)
    (rest : list (RVLikelihood.t F Model)) :
  forall (merged : list (RVLikelihood.t F Model))
         (self : CompositeLikelihood.t F Model) w,
    Likelihood.uparams (CompositeLikelihood.base self) = None ->
    params_grow P w0 w ->
    (forall li k p, li ∈ merged -> assoc k (params_of w0 li) = Some p ->
       exists f, assoc k (paramss w P) = Some f /\
                 (f = p \/ Param._equals p f = true)) ->
    (forall like, like ∈ rest -> offset_registered w0 like) ->
    (exists pre lj post,
       rest = pre ++ lj :: post /\
       (Likelihood.vector (RVLikelihood.base lj) <> V \/
        exists li, li ∈ merged ++ pre /\ params_conflict w0 li lj)) ->
    exists msg w',
      CompositeLikelihood.absorb_all P V self rest w =
        (Raise (AssertionError msg), w').
Proof.
  induction rest as [|l1 rest IH];
    intros merged self w Hup Hgrow Hinv Hreg (pre & lj & post & Hsplit & Hbad).
  { by destruct pre. }
  simpl.
  destruct (absorb_run P V self l1 w Hup) as (r & w1 & Hrun & Hg1 & Hpost & Hdet).
  { destruct (Hreg l1) as (i & row & Hi & Hrow); [by left|].
    destruct Hgrow as (Hv & _). exists i, row. by rewrite Hv. }
  unfold bind. rewrite Hrun.
  destruct r as [self1|e].
  2: { destruct Hpost as [msg ->]. eauto. }
  destruct Hpost as [Hup1 Hpost].
  destruct pre as [|l1' pre]; simpl in Hsplit; inversion Hsplit; subst.
  - (* the offending child is the one just merged *)
    exfalso. destruct Hdet as [msg Hmsg]; [|done].
    destruct Hbad as [Hv|(li & Hli & k & p & q & Hp & Hq & Hne)]; [by left|].
    right. rewrite app_nil_r in Hli.
    destruct (Hinv li k p Hli Hp) as (f & Hf & Hrel).
    exists k, q, f. split; [|split; [done|]].
    { destruct Hgrow as (_ & Hmono & _). by apply Hmono. }
    destruct Hrel as [->|Hpf]; [done|].
    destruct (Param._equals q f) eqn:Hqf; [|done].
    rewrite (equals_trans q f p Hqf (equals_sym p f Hpf)) in Hne. done.
  - (* it comes later *)
    apply (IH (merged ++ [l1'])); try done.
    + by eapply params_grow_trans.
    + intros li k p Hli Hp. apply elem_of_app in Hli as [Hli|Hli].
      * destruct (Hinv li k p Hli Hp) as (f & Hf & Hrel).
        exists f. split; [|done]. destruct Hg1 as (_ & Hmono & _).
        by apply Hmono.
      * apply list_elem_of_singleton in Hli as ->.
        apply Hpost. destruct Hgrow as (_ & Hmono & _). by apply Hmono.
    + intros like Hlike. apply Hreg. by right.
    + exists pre, lj, post. split; [done|].
      destruct Hbad as [Hv|(li & Hli & Hc)]; [by left|right].
      exists li. split; [|done]. by rewrite <- app_assoc.
Qed.

(** C6. For children that are [RVLikelihood]s as their constructor leaves
    them ([uparams] is [None], the offset has a slot in the vector), the
    constructor of [CompositeLikelihood] raises [AssertionError] whenever some
    child after the first refers to another vector object than the first, or
    some parameter name is in the dictionaries of two children with
    [(value, vary)] pairs that [_equals] tells apart; hence it returns only
    when every child refers to the vector of the first and no two children
    disagree.  The comparison [==] of values is assumed symmetric and
    transitive, as it is on floats. *)
Theorem composite_init_rejects_inconsistent (self_oid : nat)
    (like0 : RVLikelihood.t F Model) (rest : list (RVLikelihood.t F Model)) w :
  Likelihood.uparams (RVLikelihood.base like0) = None ->
  (forall like, like ∈ rest -> offset_registered w like) ->
  (inconsistent w like0 rest ->
   exists msg w',
     CompositeLikelihood.__init__ self_oid (like0 :: rest) w =
       (Raise (AssertionError msg), w')) /\
  (forall self w',
     CompositeLikelihood.__init__ self_oid (like0 :: rest) w = (Ok self, w') ->
     ~ inconsistent w like0 rest).
Proof.
  intros Hup Hreg.
  assert (inconsistent w like0 rest ->
          exists msg w',
            CompositeLikelihood.__init__ self_oid (like0 :: rest) w =
              (Raise (AssertionError msg), w')) as Hfail.
  { intros (pre & lj & post & Hsplit & Hbad).
    unfold CompositeLikelihood.__init__.
    unfold bind at 1, lift at 1, seq_get at 1. simpl.
    match goal with |- context [CompositeLikelihood.absorb_all ?P ?V ?s rest] =>
      destruct (absorb_all_detects P V w rest [like0] s w) as (msg & w' & Hrun)
    end.
    - exact Hup.
    - apply params_grow_refl.
    - intros li k p Hli Hp. apply list_elem_of_singleton in Hli as ->.
      exists p. split; [done|by left].
    - exact Hreg.
    - exists pre, lj, post. split; [done|]. done.
    - unfold bind. rewrite Hrun. eauto. }
  split; [done|].
  intros self w' Hok Hbad. destruct (Hfail Hbad) as (msg & w'' & Hrun).
  congruence.
Qed.

End Detection.

End CompositeInit.

(** ** The Gaussian-process likelihood *)

Section GPLogprob.
Context {F K Model Factor : Type} `{Num F} `{NumPy F}
  `{Likelihood.ModelCall F K Model} `{PySet} `{Kernel F K}
  `{LinAlg F Factor}.

Implicit Types w : World F K.
Implicit Types self : GPLikelihood.t F Model.

(** C1. Once [logprob()] has reached the factorization, that is once the
    kernel parameters are updated and the residuals [r] and the covariance
    matrix [K] are computed, a [cho_factor(K)] that fails, with
    [LinAlgError] because [K] is not positive definite or with [ValueError]
    because [K] holds a NaN or an infinity, does not make [logprob()] raise:
    it returns [-inf], and the one effect of the failure is the
    [RuntimeWarning] "Non-positive definite kernel detected." appended to the
    warnings. *)
Theorem gp_logprob_not_positive_definite self w w1 (r : list F)
    (Kmat : Matrix F) :
  GPLikelihood.prepare self w = (Ok (r, Kmat), w1) ->
  cho_factor Kmat = Raise LinAlgError \/ cho_factor Kmat = Raise ValueError ->
  GPLikelihood.logprob self w =
    (Ok (fneg finf),
     {| vectors := vectors w1; paramss := paramss w1;
        vary_params := vary_params w1; kernel := kernel w1;
        warnings := warnings w1 ++
          [("Non-positive definite kernel detected.", "RuntimeWarning")];
        stdout := stdout w1 |}).
Proof.
  intros Hprep Hfail.
  unfold GPLikelihood.logprob. unfold bind at 1. rewrite Hprep.
  unfold try_except, GPLikelihood.gp_like. simpl.
  unfold bind at 1, lift at 1.
  destruct Hfail as [-> | ->]; reflexivity.
Qed.

Lemma same_but_kernel_refl w : same_but_kernel w w.
Proof. repeat split. Qed.

Lemma same_but_kernel_trans w1 w2 w3 :
  same_but_kernel w1 w2 -> same_but_kernel w2 w3 -> same_but_kernel w1 w3.
Proof.
  intros (A1 & B1 & C1 & D1 & E1) (A2 & B2 & C2 & D2 & E2).
  repeat split; congruence.
Qed.

Lemma bind_Ok_inv {A B : Type} (m : @M F K A) (k : A -> @M F K B) w (b : B) w' :
  bind m k w = (Ok b, w') ->
  exists a w1, m w = (Ok a, w1) /\ k a w1 = (Ok b, w').
Proof.
  unfold bind. destruct (m w) as [[a|e] w1]; [eauto|done].
Qed.

Lemma read_only_kernel_only {A : Type} (m : @M F K A) :
  read_only m -> kernel_only m.
Proof.
  intros Hr w r w' Hrun. rewrite (Hr w r w' Hrun).
  apply same_but_kernel_refl.
Qed.

Lemma read_only_ret {A : Type} (a : A) : read_only (@ret F K A a).
Proof. intros w r w' Hrun. by inversion Hrun. Qed.

Lemma read_only_raise {A : Type} (e : exn) : read_only (@raise F K A e).
Proof. intros w r w' Hrun. by inversion Hrun. Qed.

Lemma read_only_lift {A : Type} (x : Result A) : read_only (@lift F K A x).
Proof. intros w r w' Hrun. by inversion Hrun. Qed.

Lemma read_only_gets {A : Type} (f : World F K -> A) : read_only (gets f).
Proof. intros w r w' Hrun. by inversion Hrun. Qed.

Lemma read_only_bind {A B : Type} (m : @M F K A) (k : A -> @M F K B) :
  read_only m -> (forall a, read_only (k a)) -> read_only (bind m k).
Proof.
  intros Hm Hk w r w' Hrun. unfold bind in Hrun.
  destruct (m w) as [[a|e] w1] eqn:Hmw.
  - rewrite (Hk a w1 r w' Hrun). by eapply Hm.
  - inversion Hrun; subst. by eapply Hm.
Qed.

Lemma kernel_only_bind {A B : Type} (m : @M F K A) (k : A -> @M F K B) :
  kernel_only m -> (forall a, kernel_only (k a)) -> kernel_only (bind m k).
Proof.
  intros Hm Hk w r w' Hrun. unfold bind in Hrun.
  destruct (m w) as [[a|e] w1] eqn:Hmw.
  - eapply same_but_kernel_trans; [by eapply Hm|by eapply Hk].
  - inversion Hrun; subst. by eapply Hm.
Qed.

Lemma kernel_only_set_kernel (k : K) :
  kernel_only (modify (@set_kernel F K k)).
Proof. intros w r w' Hrun. inversion Hrun; subst. repeat split. Qed.

Lemma kernel_only_on_kernel (f : K -> Result K) :
  kernel_only (GPLikelihood.on_kernel (F:=F) f).
Proof.
  unfold GPLikelihood.on_kernel.
  apply kernel_only_bind;
    [apply read_only_kernel_only, read_only_gets|intros k].
  apply kernel_only_bind;
    [apply read_only_kernel_only, read_only_lift|intros k'].
  apply kernel_only_set_kernel.
Qed.

Lemma kernel_only_covmatrix (errors : ErrArg F) (amp : option (AmpArg F)) :
  kernel_only (GPLikelihood.kernel_covmatrix errors amp).
Proof.
  unfold GPLikelihood.kernel_covmatrix.
  apply kernel_only_bind;
    [apply read_only_kernel_only, read_only_gets|intros k].
  apply kernel_only_bind;
    [apply read_only_kernel_only, read_only_lift|intros r].
  apply kernel_only_bind; [apply kernel_only_set_kernel|intros _].
  apply read_only_kernel_only, read_only_ret.
Qed.

Lemma kernel_only_update_keys self (keys : list string) :
  kernel_only (GPLikelihood.update_keys self keys).
Proof.
  induction keys as [|key keys IH]; simpl.
  - apply read_only_kernel_only, read_only_ret.
  - apply kernel_only_bind; [|done].
    destruct (existsb (String.eqb key) (GPLikelihood.hnames self)).
    + apply kernel_only_bind;
        [apply read_only_kernel_only, read_only_gets|intros v].
      apply kernel_only_bind;
        [apply read_only_kernel_only, read_only_lift|intros i].
      apply kernel_only_bind;
        [apply read_only_kernel_only, read_only_lift|intros row].
      apply kernel_only_on_kernel.
    + apply read_only_kernel_only, read_only_ret.
Qed.

Lemma kernel_only_update_kernel_params self :
  kernel_only (GPLikelihood.update_kernel_params self).
Proof.
  unfold GPLikelihood.update_kernel_params.
  apply kernel_only_bind;
    [apply read_only_kernel_only, read_only_gets|intros v].
  apply kernel_only_update_keys.
Qed.

Lemma mask_assign_length (a : list F) (mask : list bool) (v : F) (a' : list F) :
  mask_assign a mask v = Ok a' -> length a' = length a.
Proof.
  unfold mask_assign.
  destruct (Nat.eqb_spec (length mask) (length a)) as [Hl|]; [|done].
  intros Ha. inversion Ha; subst. rewrite zip_with__length; done.
Qed.

(** The offsets per point depend on the vectors of the world only, and the
    loop that fills them changes nothing. *)
Lemma fill_gammas_run self (is_ : list nat) : forall (g : list F) w,
  exists res,
    (forall w', vectors w' = vectors w ->
       GPLikelihood.fill_gammas self is_ g w' = (res, w')) /\
    (forall g', res = Ok g' -> length g' = length g).
Proof.
  induction is_ as [|i is_ IH]; intros g w; simpl.
  - exists (Ok g). split; [done|]. intros g' Hg. by inversion Hg.
  - unfold GPLikelihood.the_vector. unfold_monad.
    destruct (seq_get (GPLikelihood.insts self) i) as [inst|e].
    2: { exists (Raise e). split; [done|done]. }
    destruct (dict_get
                (Vector.indices
                   (vectors w (Likelihood.vector (GPLikelihood.self_base self))))
                ("gamma_" ++ inst)%string) as [idx|e] eqn:Hidx.
    2: { exists (Raise e). split; [|done]. intros w' Hv. cbn beta.
         by rewrite Hv, Hidx. }
    destruct (seq_get
                (Vector.vector
                   (vectors w (Likelihood.vector (GPLikelihood.self_base self))))
                idx) as [row|e] eqn:Hrow.
    2: { exists (Raise e). split; [|done]. intros w' Hv. cbn beta.
         by rewrite Hv, Hidx, Hrow. }
    destruct (mask_assign g
                (map (fun j => Nat.eqb j i) (GPLikelihood.inst_indices self))
                (Vector.value row)) as [g1|e] eqn:Hmask.
    2: { exists (Raise e). split; [|done]. intros w' Hv. cbn beta.
         by rewrite Hv, Hidx, Hrow, Hmask. }
    destruct (IH g1 w) as (res & Hres & Hlen).
    exists res. split.
    + intros w' Hv. cbn beta. rewrite Hv, Hidx, Hrow, Hmask. by apply Hres.
    + intros g' Hg'. rewrite (Hlen g' Hg').
      by eapply mask_assign_length.
Qed.

Lemma np_empty_length (n : nat) : length (np_empty (F:=F) n) = n.
Proof. unfold np_empty. by rewrite length_map, length_seq. Qed.

Lemma gammas_of_run self w :
  exists res,
    (forall w', vectors w' = vectors w ->
       GPLikelihood.gammas_of self w' = (res, w')) /\
    (forall g, res = Ok g -> length g = GPLikelihood.N self).
Proof.
  unfold GPLikelihood.gammas_of.
  destruct (fill_gammas_run self (seq 0 (length (GPLikelihood.insts self)))
              (np_empty (GPLikelihood.N self)) w) as (res & Hres & Hlen).
  exists res. split; [done|].
  intros g Hg. rewrite (Hlen g Hg). apply np_empty_length.
Qed.

Lemma read_only_y_minus_model self :
  read_only (GPLikelihood.y_minus_model self).
Proof.
  unfold GPLikelihood.y_minus_model.
  apply read_only_bind; [apply read_only_gets|intros w0].
  apply read_only_bind; [apply read_only_lift|intros m].
  apply read_only_lift.
Qed.

Lemma read_only_gammas_of self :
  read_only (GPLikelihood.gammas_of (K:=K) self).
Proof.
  intros w r w' Hrun.
  destruct (gammas_of_run self w) as (res & Hres & _).
  rewrite (Hres w eq_refl) in Hrun. by inversion Hrun.
Qed.

Lemma read_only__resids self : read_only (GPLikelihood._resids self).
Proof.
  unfold GPLikelihood._resids.
  apply read_only_bind; [apply read_only_gammas_of|intros g].
  apply read_only_bind; [apply read_only_y_minus_model|intros d].
  apply read_only_lift.
Qed.

Lemma read_only_rv_errorbars (like : RVLikelihood.t F Model) :
  read_only (RVLikelihood.errorbars (K:=K) like).
Proof.
  unfold RVLikelihood.errorbars, RVLikelihood.row_at, RVLikelihood.rows_of.
  apply read_only_bind; [|intros; apply read_only_ret].
  apply read_only_bind; [apply read_only_gets|intros rows].
  apply read_only_lift.
Qed.

Lemma read_only_append_each (f : RVLikelihood.t F Model -> @M F K (list F))
    (likes : list (RVLikelihood.t F Model)) :
  (forall like, read_only (f like)) ->
  forall res, read_only (CompositeLikelihood.append_each f likes res).
Proof.
  intros Hf. induction likes as [|like likes IH]; intros res; simpl.
  - apply read_only_ret.
  - apply read_only_bind; [apply Hf|intros r; apply IH].
Qed.

Lemma read_only_errorbars (c : CompositeLikelihood.t F Model) :
  read_only (CompositeLikelihood.errorbars (K:=K) c).
Proof.
  unfold CompositeLikelihood.errorbars.
  apply read_only_bind; [apply read_only_lift|intros like0].
  apply read_only_bind; [apply read_only_rv_errorbars|intros err].
  apply read_only_append_each. apply read_only_rv_errorbars.
Qed.

Lemma kernel_only_amp_outer self (xpred : list F) (name : string) :
  kernel_only (GPLikelihood.amp_outer self xpred name).
Proof.
  apply read_only_kernel_only. unfold GPLikelihood.amp_outer.
  apply read_only_bind; [apply read_only_gets|intros k].
  apply read_only_bind; [apply read_only_lift|intros a].
  apply read_only_bind; [apply read_only_lift|intros d].
  destruct (Nat.eqb (length d) (GPLikelihood.N self));
    [apply read_only_lift|apply read_only_raise].
Qed.

(** [predict] changes the state of the kernel and nothing else. *)
Lemma kernel_only_predict self (xpred : list F) (amp : option string) :
  kernel_only (GPLikelihood.predict self xpred amp).
Proof.
  unfold GPLikelihood.predict.
  apply kernel_only_bind; [apply kernel_only_update_kernel_params|intros _].
  apply kernel_only_bind;
    [apply read_only_kernel_only, read_only__resids|intros r0].
  apply kernel_only_bind; [apply kernel_only_on_kernel|intros _].
  apply kernel_only_bind;
    [apply read_only_kernel_only, read_only_errorbars|intros e].
  apply kernel_only_bind; [apply kernel_only_covmatrix|intros Kmat].
  apply kernel_only_bind; [apply kernel_only_on_kernel|intros _].
  apply kernel_only_bind.
  { destruct amp as [name|].
    - apply kernel_only_bind; [apply kernel_only_amp_outer|intros m].
      apply read_only_kernel_only, read_only_ret.
    - apply read_only_kernel_only, read_only_ret. }
  intros amp_matrix.
  apply kernel_only_bind; [apply kernel_only_covmatrix|intros Ks].
  apply kernel_only_bind;
    [apply read_only_kernel_only, read_only_lift|intros L].
  apply kernel_only_bind;
    [apply read_only_kernel_only, read_only_lift|intros alpha].
  apply kernel_only_bind;
    [apply read_only_kernel_only, read_only_lift|intros mu2].
  apply kernel_only_bind; [apply kernel_only_on_kernel|intros _].
  apply kernel_only_bind.
  { destruct amp as [name|].
    - apply read_only_kernel_only.
      apply read_only_bind; [apply read_only_gets|intros k].
      apply read_only_bind; [apply read_only_lift|intros a].
      apply read_only_ret.
    - apply read_only_kernel_only, read_only_ret. }
  intros amp_matrix'.
  apply kernel_only_bind; [apply kernel_only_covmatrix|intros Kss].
  apply kernel_only_bind;
    [apply read_only_kernel_only, read_only_lift|intros B].
  apply kernel_only_bind;
    [apply read_only_kernel_only, read_only_lift|intros KsB].
  apply kernel_only_bind;
    [apply read_only_kernel_only, read_only_lift|intros D].
  apply kernel_only_bind;
    [apply read_only_kernel_only, read_only_lift|intros var].
  apply kernel_only_bind; [apply kernel_only_on_kernel|intros _].
  apply read_only_kernel_only, read_only_ret.
Qed.

Lemma zip_with__swap (d : list F) :
  (forall a b c : F, fsub (fsub a b) c = fsub (fsub a c) b) ->
  forall mu g,
    zip_with_ fsub (zip_with_ fsub d mu) g =
    zip_with_ fsub (zip_with_ fsub d g) mu.
Proof.
  intros Hswap. induction d as [|a d IH]; intros [|b mu] [|c g]; simpl;
    try done.
  by rewrite Hswap, IH.
Qed.

(** What [residuals()] and [logprob()] of a GP likelihood run: the offsets
    are filled in before [predict] is called, [y - model(x)] is evaluated
    after it, and [logprob()] takes its residuals from [_resids()]. *)
Lemma gp_residuals_run self w w1 (mu sd d : list F) :
  GPLikelihood.predict self (Likelihood.x (GPLikelihood.self_base self)) None w
    = (Ok (mu, sd), w1) ->
  GPLikelihood.y_minus_model self w1 = (Ok d, w1) ->
  length d = GPLikelihood.N self ->
  length mu = GPLikelihood.N self ->
  (exists g,
     vectors w1 = vectors w /\
     GPLikelihood.gammas_of self w1 = (Ok g, w1) /\
     length g = GPLikelihood.N self /\
     GPLikelihood._resids self w1 = (Ok (zip_with_ fsub d g), w1) /\
     GPLikelihood.residuals self w =
       (Ok (zip_with_ fsub (zip_with_ fsub d mu) g), w1)) /\
  (forall w0 r' Kmat w2,
     GPLikelihood.prepare self w0 = (Ok (r', Kmat), w2) ->
     exists wa,
       GPLikelihood.update_kernel_params self w0 = (Ok tt, wa) /\
       GPLikelihood._resids self wa = (Ok r', wa) /\
       GPLikelihood.logprob self w0 =
         try_except (GPLikelihood.gp_like self Kmat r')
           GPLikelihood.not_positive_definite w2).
Proof.
  intros Hpred Hd Hld Hlmu. split.
  - pose proof (kernel_only_predict _ _ _ _ _ _ Hpred) as (Hv1 & _).
    pose proof Hpred as Hpred0.
    unfold GPLikelihood.predict in Hpred.
    apply bind_Ok_inv in Hpred as ([] & wa & Hupd & Hpred).
    apply bind_Ok_inv in Hpred as (r0 & wb & Hres0 & _).
    pose proof (kernel_only_update_kernel_params _ _ _ _ Hupd) as (Hva & _).
    unfold GPLikelihood._resids in Hres0.
    apply bind_Ok_inv in Hres0 as (g & wa2 & Hg & _).
    destruct (gammas_of_run self w) as (res & Hres & Hlen).
    rewrite (Hres wa Hva) in Hg. inversion Hg; subst res wa2.
    specialize (Hlen g eq_refl).
    assert (GPLikelihood.residuals self w =
            (Ok (zip_with_ fsub (zip_with_ fsub d mu) g), w1)) as Hlit.
    { unfold GPLikelihood.residuals. unfold bind at 1.
      rewrite (Hres w eq_refl).
      unfold bind at 1. rewrite Hpred0.
      simpl. unfold bind at 1. rewrite Hd. unfold bind, lift.
      rewrite np_binop_same_length by lia.
      by rewrite np_binop_same_length by (rewrite zip_with__length; lia). }
    exists g.
    split; [done|]. split; [by apply Hres|]. split; [done|].
    split; [|done].
    unfold GPLikelihood._resids. unfold bind at 1.
    rewrite (Hres w1 Hv1). unfold bind at 1. rewrite Hd.
    unfold lift. by rewrite np_binop_same_length by lia.
  - intros w0 r' Kmat w2 Hprep.
    assert (GPLikelihood.logprob self w0 =
            try_except (GPLikelihood.gp_like self Kmat r')
              GPLikelihood.not_positive_definite w2) as Hlog.
    { unfold GPLikelihood.logprob. unfold bind. by rewrite Hprep. }
    unfold GPLikelihood.prepare in Hprep.
    apply bind_Ok_inv in Hprep as ([] & wa & Hupd & Hprep).
    apply bind_Ok_inv in Hprep as (r0 & wb & Hres0 & Hprep).
    pose proof (read_only__resids self _ _ _ Hres0) as ->.
    apply bind_Ok_inv in Hprep as (e & wc & _ & Hprep).
    apply bind_Ok_inv in Hprep as (m & wd & _ & Hprep).
    apply bind_Ok_inv in Hprep as (Km & we & _ & Hprep).
    inversion Hprep; subst.
    exists wa. done.
Qed.

End GPLogprob.

(** ** The properties on concrete objects *)

Lemma xeqb_sym (a b : xnum) : feqb a b = true -> feqb b a = true.
Proof.
  destruct a as [p| | |], b as [q| | |]; simpl; try done.
  destruct (p ?= q)%Qc eqn:E; try done.
  apply Qceq_alt in E. subst q. intros _.
  assert ((p ?= p)%Qc = Eq) as -> by (by apply Qceq_alt). done.
Qed.

Lemma xeqb_trans (a b c : xnum) :
  feqb a b = true -> feqb b c = true -> feqb a c = true.
Proof.
  destruct a as [p| | |], b as [q| | |], c as [r| | |]; simpl; try done.
  destruct (p ?= q)%Qc eqn:E; try done.
  apply Qceq_alt in E. by subst q.
Qed.

Lemma xsub_swap (a b c : xnum) : fsub (fsub a b) c = fsub (fsub a c) b.
Proof.
  simpl. unfold xsub.
  destruct a, b, c; simpl; try done. f_equal. ring.
Qed.

Lemma gp_logprob_not_positive_definite_witness :
  fst (GPLikelihood.logprob Example.gp_j0 (Example.w_gp 0 0)) = Ok NInf /\
  warnings (snd (GPLikelihood.logprob Example.gp_j0 (Example.w_gp 0 0))) =
    [("Non-positive definite kernel detected.", "RuntimeWarning")].
Proof.
  eassert (GPLikelihood.prepare Example.gp_j0 (Example.w_gp 0 0)
           = (Ok (_, _), _)) as Hprep by (vm_compute; reflexivity).
  match type of Hprep with
  | _ = (Ok (_, ?Kmat), _) =>
      assert (cho_factor Kmat = Raise LinAlgError) as Hfail
        by (vm_compute; reflexivity)
  end.
  rewrite (gp_logprob_not_positive_definite _ _ _ _ _ Hprep
             (or_introl Hfail)).
  split; reflexivity.
Defined.

Lemma residuals_eliminates_linear_gamma_witness :
  exists res w',
    RVLikelihood.residuals Example.rv3 Example.w_linear = (Ok res, w') /\
    zip_with_ xeqb res [Example.num (-1); Example.num 1; Example.num 0]
      = [true; true; true] /\
    zip_with_ xeqb (map Vector.value (rows_in w' (RVLikelihood.base Example.rv3)))
      [Example.num 1; Example.num 3; Example.num 0] = [true; true; true].
Proof.
  edestruct (residuals_eliminates_linear_gamma Example.rv3 Example.w_linear)
    as (_ & _ & Hnil & _).
  - reflexivity.
  - reflexivity.
  - reflexivity.
  - reflexivity.
  - reflexivity.
  - reflexivity.
  - reflexivity.
  - eexists _, _. split; [exact (Hnil eq_refl)|].
    split; vm_compute; reflexivity.
Defined.

Lemma composite_logprob_is_sum_witness :
  exists ls w',
    children_return [Example.rvA; Example.rvB] Example.w_fixed ls w' /\
    CompositeLikelihood.logprob Example.composite_AB Example.w_fixed =
      (Ok (fold_left fadd ls (of_Z 0)), w') /\
    CompositeLikelihood.logprob Example.composite_AB Example.w_fixed =
      RVLikelihood.logprob Example.rv3 Example.w_fixed.
Proof.
  eassert (children_return
             (CompositeLikelihood.like_list Example.composite_AB)
             Example.w_fixed _ _) as Hrun.
  { simpl. eapply children_cons; [vm_compute; reflexivity|].
    eapply children_cons; [vm_compute; reflexivity|]. apply children_nil. }
  destruct (composite_logprob_is_sum Example.composite_AB Example.w_fixed
              _ _ Hrun) as [Hsum Hsplit].
  eexists _, _. split; [exact Hrun|]. split; [exact Hsum|].
  apply (Hsplit Example.rv3 xnum_exact); [done|].
  exists [[Example.num 1; Example.num 1]; [Example.num 1]].
  split; [|split; [reflexivity|]].
  - constructor; [|constructor; [|constructor]];
      (split; try reflexivity; eexists _, _; repeat split; reflexivity).
  - split; [eexists; split; reflexivity|].
    split; [eexists; reflexivity|]. repeat split; reflexivity.
Defined.

(** Two datasets split into children with the same model, vector and
    parameters, in exact arithmetic, whose composite does not have the
    log-probability of the whole.  In the first the offset is eliminated
    ("linear and not vary"): every child computes an offset from its own
    points.  In the second the likelihoods are decorrelated against a
    variable: every child centres the variable on the mean over its own
    points. *)
Lemma composite_logprob_split_differs :
  (Likelihood.x (RVLikelihood.base Example.rv3) =
     Likelihood.x (RVLikelihood.base Example.rvA) ++
     Likelihood.x (RVLikelihood.base Example.rvB) /\
   Likelihood.y (RVLikelihood.base Example.rv3) =
     Likelihood.y (RVLikelihood.base Example.rvA) ++
     Likelihood.y (RVLikelihood.base Example.rvB) /\
   Likelihood.yerr (RVLikelihood.base Example.rv3) =
     Likelihood.yerr (RVLikelihood.base Example.rvA) ++
     Likelihood.yerr (RVLikelihood.base Example.rvB) /\
   CompositeLikelihood.like_list Example.composite_AB =
     [Example.rvA; Example.rvB] /\
   match fst (CompositeLikelihood.logprob Example.composite_AB
                Example.w_linear),
         fst (RVLikelihood.logprob Example.rv3 Example.w_linear) with
   | Ok a, Ok b => fisfinite a = true /\ fisfinite b = true /\
                   feqb a b = false
   | _, _ => False
   end) /\
  (RVLikelihood.base Sample.rv3_bis = RVLikelihood.base Example.rv3 /\
   map RVLikelihood.base (CompositeLikelihood.like_list Sample.composite_AB_bis)
     = [RVLikelihood.base Example.rvA; RVLikelihood.base Example.rvB] /\
   match fst (CompositeLikelihood.logprob Sample.composite_AB_bis
                Example.w_decorr),
         fst (RVLikelihood.logprob Sample.rv3_bis Example.w_decorr) with
   | Ok a, Ok b => fisfinite a = true /\ fisfinite b = true /\
                   feqb a b = false
   | _, _ => False
   end).
Proof. vm_compute. repeat split. Qed.

Lemma pyset_laws :
  forall l, NoDup (list_set l) /\ forall x, x ∈ list_set l <-> x ∈ l.
Proof.
  intros l. simpl. split; [apply NoDup_remove_dups|].
  intros x. apply elem_of_remove_dups.
Qed.

Lemma composite_of_one_child_witness :
  exists self,
    CompositeLikelihood.__init__ 9 [Example.rv3] Example.w_fixed
      = (Ok self, Example.w_fixed) /\
    CompositeLikelihood.extra_params self ≡ₚ ["gamma"; "jit"].
Proof.
  destruct (composite_of_one_child (F:=xnum) (K:=unit) 9 Example.rv3
              Example.w_fixed) as (self & Hrun & Hrest).
  exists self. split; [exact Hrun|].
  do 13 destruct Hrest as [_ Hrest].
  destruct (Hrest pyset_laws) as (_ & _ & Hperm).
  apply Hperm. simpl. apply NoDup_cons. split; [|apply NoDup_singleton].
  intros Hin. apply list_elem_of_singleton in Hin. discriminate.
Defined.

(** One child, against "every field is taken verbatim".  Under an iteration
    order of the set that puts the last name first (it holds the names of its
    argument, each once, as Python's does) [extra_params] is not the child's
    list.  And a child with an attribute [hnames] does not pass it on. *)
Lemma composite_one_child_not_verbatim :
  (forall l, NoDup (list_set (PySet:=Sample.pyset_rev) l) /\
             forall x, x ∈ list_set (PySet:=Sample.pyset_rev) l <-> x ∈ l) /\
  RVLikelihood.extra_params Example.rv3 = ["gamma"; "jit"] /\
  match fst (CompositeLikelihood.__init__ (H2:=Sample.pyset_rev) 9
               [Example.rv3] Example.w_fixed) with
  | Ok self => CompositeLikelihood.extra_params self = ["jit"; "gamma"]
  | Raise _ => False
  end /\
  RVLikelihood.hnames Sample.rv_hnames = Some ["gp_amp"] /\
  match fst (CompositeLikelihood.__init__ 9 [Sample.rv_hnames]
               Example.w_fixed) with
  | Ok self => CompositeLikelihood.hnames self = []
  | Raise _ => False
  end.
Proof.
  split.
  - intros l. simpl. split.
    + rewrite reverse_Permutation. apply NoDup_remove_dups.
    + intros x. rewrite elem_of_reverse. apply elem_of_remove_dups.
  - vm_compute. repeat split.
Qed.

Lemma composite_init_rejects_inconsistent_witness :
  exists msg w',
    CompositeLikelihood.__init__ 9 [Example.rv3; Example.rv_other]
      Example.w_two_dicts = (Raise (AssertionError msg), w').
Proof.
  edestruct (composite_init_rejects_inconsistent (F:=xnum) (K:=unit)
               xeqb_sym xeqb_trans 9 Example.rv3 [Example.rv_other]
               Example.w_two_dicts) as [Hfail _].
  - reflexivity.
  - intros like Hin. apply list_elem_of_singleton in Hin. subst like.
    eexists _, _. split; reflexivity.
  - apply Hfail. exists [], Example.rv_other, []. split; [reflexivity|].
    right. exists Example.rv3. split; [by left|].
    eexists "k1", _, _. split; [reflexivity|]. split; reflexivity.
Defined.

Lemma residuals_decorrelation_witness :
  exists res w',
    RVLikelihood.residuals Example.rv_decorr Example.w_decorr = (Ok res, w') /\
    zip_with_ xeqb res [Example.num 2; Example.num 2; Example.num (-1)]
      = [true; true; true].
Proof.
  eassert (RVLikelihood.base_residuals Example.rv_decorr Example.w_decorr
           = (Ok _, _)) as Hbase by (vm_compute; reflexivity).
  destruct (residuals_decorrelation Example.rv_decorr Example.w_decorr
              _ _ Hbase) as (Hres & _).
  - intros par Hin. simpl in Hin.
    apply elem_of_cons in Hin as [->|Hin];
      [eexists _, _; split; reflexivity|].
    apply list_elem_of_singleton in Hin. subst par.
    eexists _, _; split; reflexivity.
  - intros par Hin. simpl in Hin.
    apply elem_of_cons in Hin as [->|Hin];
      [eexists _, _; repeat split; reflexivity|].
    apply list_elem_of_singleton in Hin. subst par.
    eexists _, _; repeat split; reflexivity.
  - eexists _, _. split; [exact Hres|]. vm_compute. reflexivity.
Defined.

(** * Further properties of the module *)

(** ** The cached vary mask *)

Section VaryCache.
Context {F K Model : Type} `{Num F}.

Implicit Types w : World F K.
Implicit Types self : Likelihood.t F Model.

Lemma vary_mask_from_increasing (rows : list (Vector.Row F)) :
  forall i j1 j2 i1 i2,
    Likelihood.vary_mask_from i rows !! j1 = Some i1 ->
    Likelihood.vary_mask_from i rows !! j2 = Some i2 ->
    j1 < j2 -> i1 < i2.
Proof.
  induction rows as [|r rows IH]; intros i j1 j2 i1 i2 H1 H2 Hlt;
    simpl in *; [done|].
  destruct (eq_True (Vector.vary r)); [|by eapply IH].
  destruct j2 as [|j2]; [lia|]. simpl in H2.
  destruct j1 as [|j1]; simpl in H1.
  - inversion H1; subst i1.
    apply list_elem_of_lookup_2 in H2.
    apply vary_mask_from_spec in H2 as (r' & Hle & _). lia.
  - eapply IH; [exact H1|exact H2|lia].
Qed.

(** X1. [list_vary_params] caches the positions of the rows whose vary column
    equals [True], each once and in increasing order, whatever was cached
    before; it changes nothing else, and the cache is current afterwards. *)
Theorem list_vary_params_caches_vary_slots self w :
  exists mask w1,
    Likelihood.list_vary_params self w = (Ok tt, w1) /\
    vary_params w1 (Likelihood.oid self) = Some mask /\
    (forall i, i ∈ mask <->
       exists r, rows_in w self !! i = Some r /\
                 eq_True (Vector.vary r) = true) /\
    (forall j1 j2 i1 i2, mask !! j1 = Some i1 -> mask !! j2 = Some i2 ->
       j1 < j2 -> i1 < i2) /\
    vectors w1 = vectors w /\
    same_outside (Likelihood.vector self) (Likelihood.oid self) w w1 /\
    cache_current w1 self.
Proof.
  exists (Likelihood.vary_mask (rows_in w self)).
  eexists. split; [reflexivity|].
  split; [simpl; unfold upd; by rewrite Nat.eqb_refl|].
  split; [intros i; apply vary_mask_spec|].
  split; [apply vary_mask_from_increasing|].
  split; [done|]. split.
  - unfold same_outside, set_vary_cache, upd; simpl. repeat split.
    intros o' Ho'. by destruct (Nat.eqb_spec o' (Likelihood.oid self)).
  - unfold cache_current. simpl. unfold upd. by rewrite Nat.eqb_refl.
Qed.

(** The mask that [set_vary_params] works with after its opening [try]: the
    cached one when it is as long as the values, a fresh one otherwise. *)
Lemma refresh_cache_cases self (vals : list F) w :
  exists w0,
    try_except
      (l <- Likelihood.read_vary_params self ;;
       if negb (Nat.eqb (length l) (length vals))
       then Likelihood.list_vary_params self
       else ret tt)
      (Likelihood.catch_AttributeError (Likelihood.list_vary_params self)) w
    = (Ok tt, w0) /\
    vary_params w0 (Likelihood.oid self) =
      Some (match vary_params w (Likelihood.oid self) with
            | Some l => if Nat.eqb (length l) (length vals) then l
                        else Likelihood.vary_mask (rows_in w self)
            | None => Likelihood.vary_mask (rows_in w self)
            end) /\
    vectors w0 = vectors w /\
    same_outside (Likelihood.vector self) (Likelihood.oid self) w w0.
Proof.
  assert (forall c, same_outside (Likelihood.vector self) (Likelihood.oid self)
            w (set_vary_cache (Likelihood.oid self) c w)) as Hset.
  { intros c. unfold same_outside, set_vary_cache, upd; simpl.
    repeat split. intros o' Ho'.
    by destruct (Nat.eqb_spec o' (Likelihood.oid self)). }
  unfold Likelihood.read_vary_params, Likelihood.list_vary_params.
  unfold_monad. simpl.
  destruct (vary_params w (Likelihood.oid self)) as [l|] eqn:Hl; simpl.
  - destruct (Nat.eqb (length l) (length vals)); simpl.
    + exists w. rewrite Hl. repeat split; done.
    + eexists. split; [reflexivity|]. simpl. unfold upd.
      rewrite Nat.eqb_refl. repeat split; try done. apply Hset.
  - eexists. split; [reflexivity|]. simpl. unfold upd.
    rewrite Nat.eqb_refl. repeat split; try done. apply Hset.
Qed.

(** [set_vary_params] in terms of the mask it works with. *)
Lemma set_vary_params_run_mask self (vals : list F) w :
  let l := match vary_params w (Likelihood.oid self) with
           | Some l => if Nat.eqb (length l) (length vals) then l
                       else Likelihood.vary_mask (rows_in w self)
           | None => Likelihood.vary_mask (rows_in w self)
           end in
  (forall j, j ∈ l -> j < length (rows_in w self)) ->
  exists w1,
    Likelihood.set_vary_params self vals w =
      (if decide (length vals < length l) then Raise IndexError
       else if decide (length vals = length l) then Ok tt
       else Raise (AssertionError
              "Length of array must match number of varied parameters"),
       w1) /\
    rows_in w1 self = write_all (rows_in w self) l vals /\
    vary_params w1 (Likelihood.oid self) = Some l /\
    same_outside (Likelihood.vector self) (Likelihood.oid self) w w1.
Proof.
  intros l Hrange.
  destruct (refresh_cache_cases self vals w) as (w0 & Hrun0 & Hc0 & Hv0 & Hs0).
  fold l in Hc0.
  unfold Likelihood.set_vary_params.
  unfold bind at 1. rewrite Hrun0.
  unfold bind at 1. unfold Likelihood.read_vary_params at 1.
  unfold bind at 1, gets at 1. rewrite Hc0. unfold ret at 1.
  destruct (write_values_run (Likelihood.vector self) l vals 0 w0)
    as (w1 & Hrun1 & Hrows1 & Hs1).
  { lia. }
  { intros j Hj. rewrite Hv0. by apply Hrange. }
  unfold bind at 1. rewrite Hrun1. simpl.
  rewrite Hv0 in Hrows1. rewrite drop_0 in Hrows1.
  exists w1. split; [|split; [done|split]].
  - destruct (decide (length l <= length vals)) as [Hle|Hgt].
    + rewrite decide_False by lia. unfold assert.
      destruct (decide (length vals = length l)) as [Heq|Hne].
      * rewrite Heq, Nat.eqb_refl. done.
      * destruct (Nat.eqb_spec (length l) (length vals)); [congruence|done].
    + rewrite decide_True by lia. done.
  - destruct Hs1 as (_ & _ & _ & -> & _). done.
  - by eapply same_outside_storage.
Qed.

(** X2. A cached mask as long as the values is trusted: [set_vary_params]
    does not look at the vary flags again and writes the j-th value into the
    j-th cached slot, flagged or not; it returns normally and keeps the
    cache. *)
Theorem set_vary_params_trusts_cache self (vals : list F) w (l : list nat) :
  vary_params w (Likelihood.oid self) = Some l ->
  length l = length vals ->
  (forall j, j ∈ l -> j < length (rows_in w self)) ->
  exists w1,
    Likelihood.set_vary_params self vals w = (Ok tt, w1) /\
    rows_in w1 self = write_all (rows_in w self) l vals /\
    vary_params w1 (Likelihood.oid self) = Some l /\
    same_outside (Likelihood.vector self) (Likelihood.oid self) w w1.
Proof.
  intros Hl Hlen Hrange.
  destruct (set_vary_params_run_mask self vals w) as (w1 & Hrun & Hrest).
  { rewrite Hl, Hlen, Nat.eqb_refl. done. }
  rewrite Hl, Hlen, Nat.eqb_refl in Hrun, Hrest.
  rewrite decide_False, decide_True in Hrun by lia.
  exists w1. done.
Qed.

(** X3. A cached mask of another length than the values is thrown away:
    [set_vary_params] recomputes it from the vary flags first, so that it
    behaves as under a current cache, whatever the stale mask held. *)
Theorem set_vary_params_refreshes_cache self (vals : list F) w (l : list nat) :
  vary_params w (Likelihood.oid self) = Some l ->
  length l <> length vals ->
  let mask := Likelihood.vary_mask (rows_in w self) in
  exists w1,
    Likelihood.set_vary_params self vals w =
      (if decide (length vals < length mask) then Raise IndexError
       else if decide (length vals = length mask) then Ok tt
       else Raise (AssertionError
              "Length of array must match number of varied parameters"),
       w1) /\
    rows_in w1 self = write_all (rows_in w self) mask vals /\
    vary_params w1 (Likelihood.oid self) = Some mask /\
    same_outside (Likelihood.vector self) (Likelihood.oid self) w w1.
Proof.
  intros Hl Hlen mask.
  destruct (set_vary_params_run_mask self vals w) as (w1 & Hrun & Hrest).
  { rewrite Hl. destruct (Nat.eqb_spec (length l) (length vals)); [done|].
    intros j. apply vary_mask_lt. }
  rewrite Hl in Hrun, Hrest.
  destruct (Nat.eqb_spec (length l) (length vals)); [done|].
  exists w1. done.
Qed.

End VaryCache.

(** ** Reading the free values and their names *)

Section ReadVary.
Context {F K Model : Type} `{Num F}.

Implicit Types w : World F K.
Implicit Types self : Likelihood.t F Model.

Lemma take_at_length {A : Type} (l : list A) (idxs : list nat) (sel : list A) :
  take_at l idxs = Ok sel -> length sel = length idxs.
Proof.
  revert sel. induction idxs as [|i idxs IH]; intros sel Hsel; simpl in *.
  - by inversion Hsel.
  - destruct (seq_get l i); [|done].
    destruct (take_at l idxs) as [r|]; [|done].
    inversion Hsel; subst. simpl. f_equal. by apply IH.
Qed.

Lemma get_vary_params_cached self w (l : list nat) (sel : list (Vector.Row F)) :
  vary_params w (Likelihood.oid self) = Some l ->
  take_at (rows_in w self) l = Ok sel ->
  Likelihood.get_vary_params self w = (Ok (map Vector.value sel), w).
Proof.
  intros Hl Hsel.
  unfold Likelihood.get_vary_params, Likelihood.read_vary_values,
    Likelihood.read_vary_params.
  unfold_monad. unfold rows_in in Hsel. cbn beta. by rewrite Hl, Hsel.
Qed.

Lemma name_vary_params_cached self w (l : list nat) (nms : list string) :
  vary_params w (Likelihood.oid self) = Some l ->
  take_at (Vector.names (vectors w (Likelihood.vector self))) l = Ok nms ->
  Likelihood.name_vary_params self w = (Ok nms, w).
Proof.
  intros Hl Hsel.
  unfold Likelihood.name_vary_params, Likelihood.read_vary_names,
    Likelihood.read_vary_params.
  unfold_monad. cbn beta. by rewrite Hl, Hsel.
Qed.

Lemma set_vary_cache_same_outside self w (c : option (list nat)) :
  same_outside (Likelihood.vector self) (Likelihood.oid self) w
    (set_vary_cache (Likelihood.oid self) c w).
Proof.
  unfold same_outside, set_vary_cache, upd; simpl. repeat split.
  intros o' Ho'. by destruct (Nat.eqb_spec o' (Likelihood.oid self)).
Qed.

(** A call that finds no cached mask computes it and goes on as if it had
    been there. *)
Lemma get_vary_params_uncached self w (sel : list (Vector.Row F)) :
  vary_params w (Likelihood.oid self) = None ->
  take_at (rows_in w self) (Likelihood.vary_mask (rows_in w self)) = Ok sel ->
  Likelihood.get_vary_params self w =
    (Ok (map Vector.value sel),
     set_vary_cache (Likelihood.oid self)
       (Some (Likelihood.vary_mask (rows_in w self))) w).
Proof.
  intros Hl Hsel.
  unfold Likelihood.get_vary_params, Likelihood.read_vary_values,
    Likelihood.read_vary_params, Likelihood.list_vary_params.
  unfold_monad. cbn. rewrite Hl. cbn. unfold upd. rewrite Nat.eqb_refl.
  unfold rows_in in Hsel.
  change (vectors (set_vary_cache ?o ?c w)) with (vectors w).
  by rewrite Hsel.
Qed.

Lemma name_vary_params_uncached self w (nms : list string) :
  vary_params w (Likelihood.oid self) = None ->
  take_at (Vector.names (vectors w (Likelihood.vector self)))
    (Likelihood.vary_mask (rows_in w self)) = Ok nms ->
  Likelihood.name_vary_params self w =
    (Ok nms,
     set_vary_cache (Likelihood.oid self)
       (Some (Likelihood.vary_mask (rows_in w self))) w).
Proof.
  intros Hl Hsel.
  unfold Likelihood.name_vary_params, Likelihood.read_vary_names,
    Likelihood.read_vary_params, Likelihood.list_vary_params.
  unfold_monad. cbn. rewrite Hl. cbn. unfold upd. rewrite Nat.eqb_refl.
  change (vectors (set_vary_cache ?o ?c w)) with (vectors w).
  unfold rows_in in Hsel. by rewrite Hsel.
Qed.

(** The world in which a reader of the mask ends up under a current cache:
    the one it started in, with the mask cached. *)
Lemma cache_filled self w :
  cache_current w self ->
  exists w1,
    vary_params w1 (Likelihood.oid self) =
      Some (Likelihood.vary_mask (rows_in w self)) /\
    vectors w1 = vectors w /\
    same_outside (Likelihood.vector self) (Likelihood.oid self) w w1 /\
    (forall sel,
       take_at (rows_in w self) (Likelihood.vary_mask (rows_in w self))
         = Ok sel ->
       Likelihood.get_vary_params self w = (Ok (map Vector.value sel), w1)) /\
    (forall nms,
       take_at (Vector.names (vectors w (Likelihood.vector self)))
         (Likelihood.vary_mask (rows_in w self)) = Ok nms ->
       Likelihood.name_vary_params self w = (Ok nms, w1)).
Proof.
  unfold cache_current. intros Hc.
  destruct (vary_params w (Likelihood.oid self)) as [l|] eqn:Hl.
  - exists w. subst l. split; [done|]. split; [done|].
    split; [repeat split; done|]. split.
    + intros sel Hsel. by eapply get_vary_params_cached.
    + intros nms Hnms. by eapply name_vary_params_cached.
  - exists (set_vary_cache (Likelihood.oid self)
              (Some (Likelihood.vary_mask (rows_in w self))) w).
    split; [simpl; unfold upd; by rewrite Nat.eqb_refl|].
    split; [done|]. split; [apply set_vary_cache_same_outside|].
    split.
    + intros sel Hsel. by apply get_vary_params_uncached.
    + intros nms Hnms. by apply name_vary_params_uncached.
Qed.

(** X4. Under a current (or absent) cache [get_vary_params] returns one value
    per vary-flagged slot, the j-th being the value field of the j-th
    vary-flagged row; it does not touch the vectors, it leaves the mask
    cached, and a second call returns the same values and changes nothing. *)
Theorem get_vary_params_reads_vary_slots self w :
  cache_current w self ->
  exists vals w1,
    Likelihood.get_vary_params self w = (Ok vals, w1) /\
    length vals = length (Likelihood.vary_mask (rows_in w self)) /\
    (forall j i, Likelihood.vary_mask (rows_in w self) !! j = Some i ->
       vals !! j = Vector.value <$> rows_in w self !! i) /\
    vectors w1 = vectors w /\
    same_outside (Likelihood.vector self) (Likelihood.oid self) w w1 /\
    vary_params w1 (Likelihood.oid self) =
      Some (Likelihood.vary_mask (rows_in w self)) /\
    Likelihood.get_vary_params self w1 = (Ok vals, w1).
Proof.
  intros Hc.
  destruct (cache_filled self w Hc) as (w1 & Hc1 & Hv & Hs & Hget & _).
  destruct (take_at_in_range (rows_in w self)
              (Likelihood.vary_mask (rows_in w self)))
    as (sel & Hsel & Hlen); [intros j; apply vary_mask_lt|].
  exists (map Vector.value sel), w1.
  split; [by apply Hget|]. split; [by rewrite length_map|].
  split.
  { intros j i Hj. rewrite list_lookup_fmap.
    by rewrite (take_at_lookup _ _ sel Hsel j i Hj). }
  split; [done|]. split; [done|]. split; [done|].
  apply (get_vary_params_cached self w1 _ sel Hc1).
  unfold rows_in. rewrite Hv. exact Hsel.
Qed.

(** X5. When the vector has a name for every row, [name_vary_params] returns
    one name per vary-flagged slot, the j-th being the name of the j-th
    vary-flagged row: the names line up with the values of
    [get_vary_params]. *)
Theorem name_vary_params_lines_up self w :
  cache_current w self ->
  length (rows_in w self) <=
    length (Vector.names (vectors w (Likelihood.vector self))) ->
  exists nms vals w1,
    Likelihood.name_vary_params self w = (Ok nms, w1) /\
    Likelihood.get_vary_params self w = (Ok vals, w1) /\
    length nms = length vals /\
    (forall j i, Likelihood.vary_mask (rows_in w self) !! j = Some i ->
       nms !! j = Vector.names (vectors w (Likelihood.vector self)) !! i /\
       vals !! j = Vector.value <$> rows_in w self !! i).
Proof.
  intros Hc Hnames.
  destruct (cache_filled self w Hc) as (w1 & Hc1 & Hv & Hs & Hget & Hname).
  destruct (take_at_in_range (rows_in w self)
              (Likelihood.vary_mask (rows_in w self)))
    as (sel & Hsel & Hlen); [intros j; apply vary_mask_lt|].
  destruct (take_at_in_range
              (Vector.names (vectors w (Likelihood.vector self)))
              (Likelihood.vary_mask (rows_in w self)))
    as (nms & Hnms & Hlen').
  { intros j Hj. apply vary_mask_lt in Hj. lia. }
  exists nms, (map Vector.value sel), w1.
  split; [by apply Hname|]. split; [by apply Hget|].
  split; [rewrite length_map; lia|].
  intros j i Hj. split.
  - by rewrite (take_at_lookup _ _ nms Hnms j i Hj).
  - rewrite list_lookup_fmap.
    by rewrite (take_at_lookup _ _ sel Hsel j i Hj).
Qed.

End ReadVary.

(** ** The wrappers around [logprob] *)

Section Wrappers.
Context {F K Model T : Type} `{Num F} `{NumPy F}
  `{Likelihood.Methods F K Model T}.

Implicit Types w : World F K.

(** X6. [logprob_array] writes the values with [set_vary_params] and then
    evaluates [logprob()] in the world so changed; [neglogprob_array]
    negates that result.  When the number of values differs from the number
    of vary-flagged slots the error of [set_vary_params] leaves both, after
    the values that found a slot are written and before [logprob()] is
    called. *)
Theorem logprob_array_sets_then_evaluates (self : T) (vals : list F) w :
  cache_current w (Likelihood.self_base self) ->
  let b := Likelihood.self_base self in
  let mask := Likelihood.vary_mask (rows_in w b) in
  exists w1,
    rows_in w1 b = write_all (rows_in w b) mask vals /\
    same_outside (Likelihood.vector b) (Likelihood.oid b) w w1 /\
    (length vals = length mask ->
       Likelihood.logprob_array self vals w = Likelihood.call_logprob self w1 /\
       Likelihood.neglogprob_array self vals w =
         match Likelihood.call_logprob self w1 with
         | (Ok l, w2) => (Ok (fneg l), w2)
         | (Raise e, w2) => (Raise e, w2)
         end) /\
    (length vals <> length mask ->
       exists e,
         e = (if decide (length vals < length mask) then IndexError
              else AssertionError
                     "Length of array must match number of varied parameters")
         /\ Likelihood.logprob_array self vals w = (Raise e, w1)
         /\ Likelihood.neglogprob_array self vals w = (Raise e, w1)).
Proof.
  intros Hc b mask.
  destruct (set_vary_params_run b vals w Hc) as (w1 & Hrun & Hrows & _ & Hs).
  fold mask in Hrun, Hrows.
  exists w1. split; [done|]. split; [done|]. split.
  - intros Hlen. rewrite decide_False, decide_True in Hrun by lia.
    assert (Likelihood.logprob_array self vals w =
            Likelihood.call_logprob self w1) as Hla.
    { unfold Likelihood.logprob_array. unfold bind at 1. fold b.
      rewrite Hrun. unfold bind, ret.
      by destruct (Likelihood.call_logprob self w1) as [[l|e] w2]. }
    split; [done|].
    unfold Likelihood.neglogprob_array. unfold bind at 1. rewrite Hla.
    by destruct (Likelihood.call_logprob self w1) as [[l|e] w2].
  - intros Hlen. eexists. split; [reflexivity|].
    assert (Likelihood.logprob_array self vals w =
            (Raise (if decide (length vals < length mask) then IndexError
                    else AssertionError
                      "Length of array must match number of varied parameters"),
             w1)) as Hla.
    { unfold Likelihood.logprob_array. unfold bind at 1. fold b.
      rewrite Hrun. destruct (decide (length vals < length mask)); [done|].
      by rewrite decide_False by done. }
    split; [done|].
    unfold Likelihood.neglogprob_array. unfold bind at 1. by rewrite Hla.
Qed.

(** X7. [bic()] returns [np.log(n)*k - 2.0*logprob()], [n] being the number
    of data points and [k] the number of vary-flagged slots, counted before
    [logprob()] runs; an exception of [logprob()] leaves [bic()] as it
    is, and [bic()] itself adds no effect to those of [logprob()] but the
    cached mask. *)
Theorem bic_value (self : T) w (r : Result F) w2 :
  cache_current w (Likelihood.self_base self) ->
  Likelihood.call_logprob self
    (snd (Likelihood.get_vary_params (Likelihood.self_base self) w))
    = (r, w2) ->
  let n := length (Likelihood.y (Likelihood.self_base self)) in
  let k := length (Likelihood.vary_mask
                     (rows_in w (Likelihood.self_base self))) in
  Likelihood.bic self w =
    (match r with
     | Ok l => Ok (fsub (fmul (np_log (of_nat n)) (of_nat k))
                        (fmul (of_Q 2) l))
     | Raise e => Raise e
     end, w2).
Proof.
  intros Hc Hlog n k.
  destruct (get_vary_params_run (Likelihood.self_base self) w Hc)
    as (vals & w1 & Hget & Hlen & _).
  rewrite Hget in Hlog. simpl in Hlog.
  unfold Likelihood.bic. unfold bind at 1. rewrite Hget.
  unfold bind at 1. rewrite Hlog. rewrite Hlen.
  by destruct r.
Qed.

End Wrappers.

(** ** What an RVLikelihood writes *)

Section RVWrites.
Context {F K Model : Type} `{Num F} `{NumPy F}
  `{Likelihood.ModelCall F K Model}.

Implicit Types w : World F K.
Implicit Types self : RVLikelihood.t F Model.

Lemma read_only_row_at self (i : nat) :
  read_only (RVLikelihood.row_at (K:=K) self i).
Proof.
  unfold RVLikelihood.row_at, RVLikelihood.rows_of.
  apply read_only_bind; [apply read_only_gets|intros rows].
  apply read_only_lift.
Qed.

Lemma read_only_decorr_pars self (var : string) (ps : list string) :
  read_only (RVLikelihood.decorr_pars (K:=K) self var ps).
Proof.
  induction ps as [|par ps IH]; simpl; [apply read_only_ret|].
  destruct (contains var par); [|done].
  apply read_only_bind; [apply read_only_gets|intros idx].
  apply read_only_bind; [apply read_only_lift|intros i].
  apply read_only_bind; [apply read_only_row_at|intros row].
  apply read_only_bind; [done|intros tl]. apply read_only_ret.
Qed.

Lemma read_only_decorr_loop self (ps : list string) : forall res : list F,
  read_only (RVLikelihood.decorr_loop (K:=K) self ps res).
Proof.
  induction ps as [|p ps IH]; intros res; simpl; [apply read_only_ret|].
  apply read_only_bind; [|intros res'; apply IH].
  unfold RVLikelihood.decorr_step.
  apply read_only_bind; [apply read_only_lift|intros var].
  apply read_only_bind; [apply read_only_decorr_pars|intros pars].
  apply read_only_bind; [apply read_only_lift|intros v].
  destruct (RVLikelihood.all_finite v);
    [apply read_only_lift|apply read_only_ret].
Qed.

Lemma eliminate_gamma_writes self (mod_ : list F) w (r : Result unit) w' :
  RVLikelihood.eliminate_gamma self mod_ w = (r, w') ->
  at_most_offset_written self w w'.
Proof.
  unfold RVLikelihood.eliminate_gamma, RVLikelihood.write_value,
    RVLikelihood.row_at, RVLikelihood.rows_of.
  unfold_monad. unfold seq_get. cbn beta.
  destruct (Vector.vector (vectors w (Likelihood.vector (RVLikelihood.base self)))
              !! RVLikelihood.gamma_index self) as [grow|] eqn:Hg;
    [|intros Hrun; inversion Hrun; by left].
  destruct (RVLikelihood.gamma_is_linear grow) eqn:Hlin;
    [|intros Hrun; inversion Hrun; by left].
  destruct (np_binop fsub (Likelihood.y (RVLikelihood.base self)) mod_)
    as [diff|e]; [|intros Hrun; inversion Hrun; by left].
  destruct (Vector.vector (vectors w (Likelihood.vector (RVLikelihood.base self)))
              !! RVLikelihood.jit_index self) as [jrow|];
    [|intros Hrun; inversion Hrun; by left].
  destruct (RVLikelihood.ztil_quotient diff
              (Likelihood.yerr (RVLikelihood.base self)) (Vector.value jrow))
    as [z|e]; [|intros Hrun; inversion Hrun; by left].
  rewrite Hg. intros Hrun; inversion Hrun; subst. right.
  exists grow, (RVLikelihood.nan_to_zero z).
  split; [done|]. split; [done|].
  unfold offset_set. by rewrite (insert_as_alter (Vector.set_value _) _ _ grow).
Qed.

Lemma base_residuals_writes self w (r : Result (list F)) w' :
  RVLikelihood.base_residuals self w = (r, w') ->
  at_most_offset_written self w w'.
Proof.
  unfold RVLikelihood.base_residuals.
  unfold bind at 1, gets at 1. unfold id.
  unfold bind at 1, lift at 1.
  destruct (Likelihood.model_call _ w _) as [mod_|e];
    [|intros Hrun; inversion Hrun; by left].
  unfold bind at 1.
  destruct (RVLikelihood.eliminate_gamma self mod_ w) as [[[]|e] w1] eqn:He;
    pose proof (eliminate_gamma_writes _ _ _ _ _ He) as Hw.
  - intros Hrun.
    assert (w' = w1) as ->; [|done].
    revert Hrun.
    match goal with |- ?m w1 = _ -> _ =>
      assert (read_only m) as Hro
    end.
    { apply read_only_bind; [apply read_only_row_at|intros grow].
      apply read_only_lift. }
    intros Hrun. by apply Hro in Hrun.
  - intros Hrun; inversion Hrun; by subst.
Qed.

Lemma residuals_writes self w (r : Result (list F)) w' :
  RVLikelihood.residuals self w = (r, w') ->
  at_most_offset_written self w w'.
Proof.
  unfold RVLikelihood.residuals. unfold bind.
  destruct (RVLikelihood.base_residuals self w) as [[res|e] w1] eqn:Hb;
    pose proof (base_residuals_writes _ _ _ _ Hb) as Hw.
  - intros Hrun. apply read_only_decorr_loop in Hrun. by subst.
  - intros Hrun; inversion Hrun; by subst.
Qed.

(** X8. Whatever they return or raise, [residuals()] and [logprob()] of an
    [RVLikelihood] change nothing in the world but, at most, the value field
    of the offset slot, and that only when the slot is "linear and not vary":
    with any other offset they are read-only. *)
Theorem rv_only_write_is_the_offset self w :
  (forall r w', RVLikelihood.residuals self w = (r, w') ->
     at_most_offset_written self w w') /\
  (forall r w', RVLikelihood.logprob self w = (r, w') ->
     at_most_offset_written self w w') /\
  (forall grow,
     rows_in w (RVLikelihood.base self) !! RVLikelihood.gamma_index self
       = Some grow ->
     RVLikelihood.gamma_is_linear grow = false ->
     snd (RVLikelihood.residuals self w) = w /\
     snd (RVLikelihood.logprob self w) = w).
Proof.
  assert (forall r w', RVLikelihood.logprob self w = (r, w') ->
            at_most_offset_written self w w') as Hlog.
  { intros r w'. unfold RVLikelihood.logprob. unfold bind at 1.
    destruct (RVLikelihood.row_at self (RVLikelihood.jit_index self) w)
      as [[jrow|e] w0] eqn:Hj;
      apply read_only_row_at in Hj; subst w0;
      [|intros Hrun; inversion Hrun; by left].
    unfold bind at 1.
    destruct (RVLikelihood.residuals self w) as [[res|e] w1] eqn:Hres;
      pose proof (residuals_writes _ _ _ _ Hres) as Hw;
      [|intros Hrun; inversion Hrun; by subst].
    intros Hrun. assert (w' = w1) as ->; [|done].
    revert Hrun.
    match goal with |- ?m w1 = _ -> _ => assert (read_only m) as Hro end.
    { apply read_only_bind; [apply read_only_lift|intros loglike].
      apply read_only_bind; [apply read_only_row_at|intros grow].
      destruct (RVLikelihood.gamma_is_linear grow); apply read_only_ret. }
    intros Hrun. by apply Hro in Hrun. }
  split; [intros r w'; apply residuals_writes|]. split; [exact Hlog|].
  intros grow Hg Hlin.
  assert (forall w', at_most_offset_written self w w' -> w' = w) as Hno.
  { intros w' [->|(grow' & z & Hg' & Hlin' & _)]; [done|]. congruence. }
  split; apply Hno.
  - destruct (RVLikelihood.residuals self w) as [r w'] eqn:Hr.
    by eapply residuals_writes.
  - destruct (RVLikelihood.logprob self w) as [r w'] eqn:Hr.
    by eapply Hlog.
Qed.

End RVWrites.

(** ** The eliminated offset *)

Section EliminatedOffset.
Context {F K Model : Type} `{Num F} `{NumPy F}
  `{Likelihood.ModelCall F K Model}.

Implicit Types w : World F K.
Implicit Types self : RVLikelihood.t F Model.

(** The first part of [residuals()] when the offset is eliminated. *)
Lemma base_residuals_linear self w (mod_ : list F) (grow jrow : Vector.Row F) :
  let b := RVLikelihood.base self in
  Likelihood.model_call (Likelihood.model b) w (Likelihood.x b) = Ok mod_ ->
  rows_in w b !! RVLikelihood.gamma_index self = Some grow ->
  RVLikelihood.gamma_is_linear grow = true ->
  rows_in w b !! RVLikelihood.jit_index self = Some jrow ->
  length mod_ = length (Likelihood.y b) ->
  length (Likelihood.yerr b) = length (Likelihood.y b) ->
  let ztil := RVLikelihood.nan_to_zero
                (inverse_variance_weighted_mean
                   (zip_with_ fsub (Likelihood.y b) mod_) (Likelihood.yerr b)
                   (Vector.value jrow)) in
  RVLikelihood.base_residuals self w =
    (Ok (plain_residuals (Likelihood.y b) mod_ ztil), offset_set self ztil w).
Proof.
  intros b Hmod Hg Hlin Hj Hlm Hle ztil.
  unfold RVLikelihood.base_residuals, RVLikelihood.eliminate_gamma,
    RVLikelihood.row_at, RVLikelihood.rows_of, RVLikelihood.write_value,
    RVLikelihood.row_at, RVLikelihood.rows_of.
  unfold_monad. unfold id, seq_get. fold b. unfold rows_in in *.
  rewrite Hmod, Hg, Hlin.
  rewrite np_binop_same_length by done.
  rewrite Hj. rewrite ztil_quotient_spec
    by (rewrite zip_with__length; [lia|lia]).
  rewrite Hg. fold ztil.
  unfold set_vector at 1. unfold upd at 1. cbn [vectors].
  rewrite Nat.eqb_refl. cbn [Vector.vector Vector.with_rows].
  rewrite list_lookup_insert_eq by (by eapply lookup_lt_Some).
  cbn [Vector.value Vector.set_value].
  rewrite np_binop_same_length by (rewrite length_map; lia).
  unfold offset_set, plain_residuals. fold b.
  by rewrite (insert_as_alter (Vector.set_value ztil) _ _ grow).
Qed.

Lemma offset_set_rows self (z : F) w :
  rows_in (offset_set self z w) (RVLikelihood.base self) =
    alter (Vector.set_value z) (RVLikelihood.gamma_index self)
      (rows_in w (RVLikelihood.base self)).
Proof.
  unfold offset_set, rows_in, set_vector, upd. simpl.
  by rewrite Nat.eqb_refl.
Qed.

Lemma alter_set_value_twice (z g : F) (i : nat) (l : list (Vector.Row F)) :
  alter (Vector.set_value z) i (alter (Vector.set_value g) i l) =
    alter (Vector.set_value z) i l.
Proof.
  revert i. induction l as [|r l IH]; intros [|i]; simpl; try done.
  f_equal. apply IH.
Qed.

Lemma offset_set_twice self (z g : F) w :
  vectors (offset_set self z (offset_set self g w))
    (Likelihood.vector (RVLikelihood.base self)) =
  vectors (offset_set self z w) (Likelihood.vector (RVLikelihood.base self)).
Proof.
  unfold offset_set, set_vector, upd. simpl. rewrite !Nat.eqb_refl. simpl.
  unfold Vector.with_rows. simpl. f_equal.
  apply alter_set_value_twice.
Qed.

(** The decorrelation loop reads the vector of the likelihood and nothing
    else of the world. *)
Lemma decorr_pars_reads_vector self (var : string) (ps : list string) w w' :
  vectors w (Likelihood.vector (RVLikelihood.base self)) =
    vectors w' (Likelihood.vector (RVLikelihood.base self)) ->
  fst (RVLikelihood.decorr_pars self var ps w) =
    fst (RVLikelihood.decorr_pars self var ps w').
Proof.
  intros Hv. induction ps as [|par ps IH]; simpl; [done|].
  destruct (contains var par); [|done].
  unfold RVLikelihood.row_at, RVLikelihood.rows_of.
  unfold_monad. cbn beta. rewrite <- Hv.
  destruct (dict_get _ par) as [i|e]; [|done].
  destruct (seq_get _ i) as [row|e]; [|done].
  destruct (RVLikelihood.decorr_pars self var ps w) as [r1 w1] eqn:R1.
  destruct (RVLikelihood.decorr_pars self var ps w') as [r2 w2] eqn:R2.
  simpl in IH. subst r2. by destruct r1.
Qed.

Lemma decorr_loop_reads_vector self (ps : list string) w w' :
  vectors w (Likelihood.vector (RVLikelihood.base self)) =
    vectors w' (Likelihood.vector (RVLikelihood.base self)) ->
  forall res : list F,
    fst (RVLikelihood.decorr_loop self ps res w) =
      fst (RVLikelihood.decorr_loop self ps res w').
Proof.
  intros Hv. induction ps as [|p ps IH]; intros res; simpl; [done|].
  unfold bind.
  destruct (RVLikelihood.decorr_step self p res w) as [r1 w1] eqn:R1.
  destruct (RVLikelihood.decorr_step self p res w') as [r2 w2] eqn:R2.
  assert (w1 = w /\ w2 = w' /\ r2 = r1) as (-> & -> & ->).
  { unfold RVLikelihood.decorr_step in R1, R2.
    unfold bind at 1, lift at 1 in R1. unfold bind at 1, lift at 1 in R2.
    destruct (seq_get (split_underscore p) 1) as [var|e];
      [|inversion R1; inversion R2; by subst].
    unfold bind at 1 in R1. unfold bind at 1 in R2.
    pose proof (decorr_pars_reads_vector self var
                  (RVLikelihood.decorr_params self) w w' Hv) as Hp.
    destruct (RVLikelihood.decorr_pars self var _ w) as [q1 u1] eqn:E1.
    destruct (RVLikelihood.decorr_pars self var _ w') as [q2 u2] eqn:E2.
    apply read_only_decorr_pars in E1, E2. subst u1 u2.
    simpl in Hp. subst q2.
    destruct q1 as [pars|e]; [|inversion R1; inversion R2; by subst].
    unfold bind, lift in R1, R2.
    destruct (dict_get (RVLikelihood.decorr_vectors self) var) as [v|e];
      [|inversion R1; inversion R2; by subst].
    destruct (RVLikelihood.all_finite v);
      inversion R1; inversion R2; by subst. }
  destruct r1 as [res'|e]; [apply IH|done].
Qed.

(** X9. With an eliminated offset, a model that does not read the offset
    slot and a jitter in another slot, [residuals()] forgets the value the
    offset slot held: started with any value [g] in the slot it returns the
    same array and leaves the same rows.  In particular a second call
    returns what the first returned and leaves the rows as they are. *)
Theorem rv_residuals_forget_offset self w (mod_ : list F)
    (grow jrow : Vector.Row F) :
  let b := RVLikelihood.base self in
  Likelihood.model_call (Likelihood.model b) w (Likelihood.x b) = Ok mod_ ->
  (forall g, Likelihood.model_call (Likelihood.model b) (offset_set self g w)
               (Likelihood.x b) = Ok mod_) ->
  rows_in w b !! RVLikelihood.gamma_index self = Some grow ->
  RVLikelihood.gamma_is_linear grow = true ->
  rows_in w b !! RVLikelihood.jit_index self = Some jrow ->
  RVLikelihood.gamma_index self <> RVLikelihood.jit_index self ->
  length mod_ = length (Likelihood.y b) ->
  length (Likelihood.yerr b) = length (Likelihood.y b) ->
  (forall g,
     fst (RVLikelihood.residuals self (offset_set self g w)) =
       fst (RVLikelihood.residuals self w) /\
     rows_in (snd (RVLikelihood.residuals self (offset_set self g w))) b =
       rows_in (snd (RVLikelihood.residuals self w)) b) /\
  (let w1 := snd (RVLikelihood.residuals self w) in
   fst (RVLikelihood.residuals self w1) = fst (RVLikelihood.residuals self w) /\
   rows_in (snd (RVLikelihood.residuals self w1)) b = rows_in w1 b).
Proof.
  intros b Hmod Hmodel Hg Hlin Hj Hne Hlm Hle.
  set (ztil := RVLikelihood.nan_to_zero
                 (inverse_variance_weighted_mean
                    (zip_with_ fsub (Likelihood.y b) mod_) (Likelihood.yerr b)
                    (Vector.value jrow))).
  set (res := plain_residuals (Likelihood.y b) mod_ ztil).
  assert (forall (u : World F K) r, RVLikelihood.decorr_loop self
                        (RVLikelihood.decorr_params self) r u
                      = (fst (RVLikelihood.decorr_loop self
                                (RVLikelihood.decorr_params self) r u), u))
    as Hloop.
  { intros u r.
    destruct (RVLikelihood.decorr_loop self (RVLikelihood.decorr_params self)
                r u) as [x u'] eqn:E.
    apply read_only_decorr_loop in E. by subst. }
  assert (RVLikelihood.residuals self w =
          (fst (RVLikelihood.decorr_loop self (RVLikelihood.decorr_params self)
                  res (offset_set self ztil w)), offset_set self ztil w))
    as Hfirst.
  { unfold RVLikelihood.residuals, bind.
    rewrite (base_residuals_linear self w mod_ grow jrow) by done.
    apply Hloop. }
  assert (forall g,
            RVLikelihood.residuals self (offset_set self g w) =
            (fst (RVLikelihood.decorr_loop self
                    (RVLikelihood.decorr_params self) res
                    (offset_set self ztil w)),
             offset_set self ztil (offset_set self g w))) as Hany.
  { intros g. unfold RVLikelihood.residuals, bind.
    rewrite (base_residuals_linear self (offset_set self g w) mod_
               (Vector.set_value g grow) jrow); try done.
    - rewrite Hloop. f_equal.
      apply decorr_loop_reads_vector, offset_set_twice.
    - rewrite offset_set_rows. fold b. by rewrite list_lookup_alter_eq, Hg.
    - rewrite offset_set_rows. fold b.
      by rewrite list_lookup_alter_ne by done. }
  assert (forall g,
            rows_in (offset_set self ztil (offset_set self g w)) b =
            rows_in (offset_set self ztil w) b) as Hrows.
  { intros g. unfold rows_in. by rewrite offset_set_twice. }
  split.
  - intros g. rewrite Hany, Hfirst. simpl. split; [done|apply Hrows].
  - rewrite Hfirst. cbn [snd fst]. rewrite Hany. simpl.
    split; [done|apply Hrows].
Qed.

(** X10. [logprob()] with an eliminated offset: the Gaussian
    log-likelihood, with the jitter read before the elimination, of the
    residuals around [ztil], plus [log(sqrt(2 pi sigz))] for
    [sigz = 1/sum(1/(yerr**2 + jit**2))]; and [ztil] is left in the offset
    slot, as [residuals()] leaves it. *)
Theorem rv_logprob_eliminated_offset self w (mod_ : list F)
    (grow jrow : Vector.Row F) :
  let b := RVLikelihood.base self in
  Likelihood.model_call (Likelihood.model b) w (Likelihood.x b) = Ok mod_ ->
  rows_in w b !! RVLikelihood.gamma_index self = Some grow ->
  RVLikelihood.gamma_is_linear grow = true ->
  rows_in w b !! RVLikelihood.jit_index self = Some jrow ->
  RVLikelihood.decorr_params self = [] ->
  length mod_ = length (Likelihood.y b) ->
  length (Likelihood.yerr b) = length (Likelihood.y b) ->
  let jit := Vector.value jrow in
  let ztil := RVLikelihood.nan_to_zero
                (inverse_variance_weighted_mean
                   (zip_with_ fsub (Likelihood.y b) mod_) (Likelihood.yerr b)
                   jit) in
  let sigz := fdiv (of_Q 1)
                (np_sum (RVLikelihood.inv_var (Likelihood.yerr b) jit)) in
  RVLikelihood.logprob self w =
    (Ok (fadd (gaussian_loglike (plain_residuals (Likelihood.y b) mod_ ztil)
                 (Likelihood.yerr b) jit)
              (np_log (np_sqrt (fmul (fmul (of_Q 2) np_pi) sigz)))),
     offset_set self ztil w) /\
  RVLikelihood.residuals self w =
    (Ok (plain_residuals (Likelihood.y b) mod_ ztil), offset_set self ztil w).
Proof.
  intros b Hmod Hg Hlin Hj Hd Hlm Hle jit ztil sigz.
  assert (RVLikelihood.residuals self w =
          (Ok (plain_residuals (Likelihood.y b) mod_ ztil),
           offset_set self ztil w)) as Hres.
  { unfold RVLikelihood.residuals, bind.
    rewrite (base_residuals_linear self w mod_ grow jrow) by done.
    by rewrite Hd. }
  split; [|done].
  unfold RVLikelihood.logprob. unfold bind at 1.
  unfold RVLikelihood.row_at at 1, RVLikelihood.rows_of at 1.
  unfold bind at 1, gets at 1, lift at 1, seq_get at 1.
  unfold rows_in in Hj. fold b. rewrite Hj.
  unfold bind at 1. rewrite Hres.
  unfold bind at 1, lift at 1.
  rewrite loglike_jitter_spec
    by (unfold plain_residuals; rewrite zip_with__length;
        rewrite length_map; lia).
  unfold RVLikelihood.row_at, RVLikelihood.rows_of.
  unfold_monad. unfold seq_get. cbn beta.
  pose proof (offset_set_rows self ztil w) as Hrows.
  unfold rows_in in Hrows. rewrite Hrows.
  unfold rows_in, b in Hg. rewrite list_lookup_alter_eq, Hg. simpl.
  replace (RVLikelihood.gamma_is_linear (Vector.set_value ztil grow))
    with true by (by rewrite <- Hlin).
  done.
Qed.

End EliminatedOffset.

(** ** A composite of children that agree *)

Section CompositeMerge.
Context {F K Model : Type} `{Num F} `{NumPy F}
  `{Likelihood.ModelCall F K Model} `{PySet}.

Implicit Types w : World F K.
Implicit Types like : RVLikelihood.t F Model.

Lemma assoc_app_inv {V : Type} (k k0 : string) (d : list (string * V))
    (v f : V) :
  assoc k (d ++ [(k0, v)]) = Some f ->
  assoc k d = Some f \/ (k = k0 /\ f = v /\ assoc k d = None).
Proof.
  induction d as [|[k1 v1] d IH]; simpl.
  - destruct (String.eqb_spec k k0) as [->|Hne]; [|done].
    intros Hf. inversion Hf. by right.
  - destruct (String.eqb k k1); [by left|apply IH].
Qed.

(** The loop over the names of a child whose parameters are accepted: every
    name that is new is added with the child's parameter, nothing else
    changes, and no assertion fails. *)
Lemma merge_params_ok (P pj : nat) (keys : list string) : forall w,
  (forall k, k ∈ keys -> exists q, assoc k (paramss w pj) = Some q) ->
  (forall k q f, assoc k (paramss w pj) = Some q ->
     assoc k (paramss w P) = Some f -> Param._equals q f = true) ->
  (forall k q, assoc k (paramss w pj) = Some q -> Param._equals q q = true) ->
  exists w',
    CompositeLikelihood.merge_params P pj keys w = (Ok tt, w') /\
    params_grow P w w' /\
    (forall k f, assoc k (paramss w' P) = Some f ->
       assoc k (paramss w P) = Some f \/ assoc k (paramss w pj) = Some f) /\
    (forall k, k ∈ keys -> exists f, assoc k (paramss w' P) = Some f).
Proof.
  induction keys as [|k keys IH]; intros w Hkeys Hacc Hself; simpl.
  { exists w. split; [done|]. split; [apply params_grow_refl|].
    split; [by left|]. intros k Hk. by apply elem_of_nil in Hk. }
  destruct (Hkeys k) as [p Hp]; [by left|].
  unfold bind at 1, gets at 1. unfold bind at 1, gets at 1.
  unfold bind at 1, lift at 1, dict_get at 1. rewrite Hp.
  unfold dict_mem.
  destruct (assoc k (paramss w P)) as [q|] eqn:Hq.
  - unfold bind at 1. unfold bind at 1, lift at 1, dict_get at 1.
    rewrite Hq. unfold assert. rewrite (Hacc k p q Hp Hq). unfold ret at 1.
    destruct (IH w) as (w' & Hrun & Hgrow & Horig & Hin); try done.
    { intros k' Hk'. apply Hkeys. by right. }
    exists w'. split; [done|]. split; [done|]. split; [done|].
    intros k' Hk'. apply elem_of_cons in Hk' as [->|Hk']; [|by apply Hin].
    exists q. destruct Hgrow as (_ & Hmono & _). by apply Hmono.
  - assert (pj <> P) as Hne by (intros ->; congruence).
    destruct (params_grow_add P w k p Hq) as [Hg1 Hnew].
    set (w1 := set_params P (dict_add (paramss w P) k p) w) in *.
    assert (paramss w1 pj = paramss w pj) as Hpj.
    { destruct Hg1 as (_ & _ & Hother). by apply Hother. }
    unfold bind at 1, modify at 1. fold w1.
    destruct (IH w1) as (w' & Hrun & Hgrow & Horig & Hin).
    { intros k' Hk'. rewrite Hpj. apply Hkeys. by right. }
    { intros k' q f. rewrite Hpj. intros Hq' Hf.
      unfold w1, set_params, upd, dict_add in Hf. simpl in Hf.
      rewrite Nat.eqb_refl in Hf.
      apply assoc_app_inv in Hf as [Hf|(-> & -> & _)]; [by eapply Hacc|].
      assert (q = p) as -> by congruence. by eapply Hself. }
    { intros k' q. rewrite Hpj. apply Hself. }
    exists w'. split; [done|].
    split; [by eapply params_grow_trans|]. split.
    + intros k' f Hf. destruct (Horig k' f Hf) as [Hf1|Hf1].
      * unfold w1, set_params, upd, dict_add in Hf1. simpl in Hf1.
        rewrite Nat.eqb_refl in Hf1.
        apply assoc_app_inv in Hf1 as [Hf1|(-> & -> & _)]; [by left|by right].
      * right. by rewrite <- Hpj.
    + intros k' Hk'. apply elem_of_cons in Hk' as [->|Hk']; [|by apply Hin].
      exists p. destruct Hgrow as (_ & Hmono & _). by apply Hmono.
Qed.

Lemma merged_nil w (self : CompositeLikelihood.t F Model) :
  Likelihood.uparams (CompositeLikelihood.base self) = None ->
  merged w self [] = self.
Proof.
  destruct self as [n [o m v p x y ye u] t e s h l]. simpl. intros ->.
  unfold merged, hnames_of. simpl. by rewrite !app_nil_r.
Qed.

(** One turn of the constructor's loop on a child that is accepted. *)
Lemma absorb_ok (P V : nat) (self : CompositeLikelihood.t F Model) like w :
  Likelihood.uparams (CompositeLikelihood.base self) = None ->
  offset_registered w like ->
  Likelihood.vector (RVLikelihood.base like) = V ->
  (forall k q f, assoc k (params_of w like) = Some q ->
     assoc k (paramss w P) = Some f -> Param._equals q f = true) ->
  (forall k q, assoc k (params_of w like) = Some q ->
     Param._equals q q = true) ->
  exists w',
    CompositeLikelihood.absorb P V self like w = (Ok (merged w self [like]), w')
    /\ params_grow P w w' /\
    (forall k f, assoc k (paramss w' P) = Some f ->
       assoc k (paramss w P) = Some f \/ assoc k (params_of w like) = Some f) /\
    (forall k q, assoc k (params_of w like) = Some q ->
       exists f, assoc k (paramss w' P) = Some f).
Proof.
  intros Hup (i & row & Hi & Hrow) HV Hacc Hself.
  destruct (merge_params_ok P (Likelihood.params (RVLikelihood.base like))
              (map fst (params_of w like)) w)
    as (w' & Hrun & Hgrow & Horig & Hin); try done.
  { intros k Hk. by apply assoc_keys. }
  exists w'.
  split; [|split; [done|split; [done|]]].
  - unfold CompositeLikelihood.absorb, CompositeLikelihood.gamma_value.
    unfold bind at 1. unfold bind at 1, gets at 1.
    unfold bind at 1, lift at 1, dict_get at 1. rewrite Hi.
    unfold bind at 1, lift at 1, seq_get at 1. rewrite Hrow.
    unfold ret at 1.
    unfold bind at 1. rewrite Hup. unfold CompositeLikelihood.update_uparams.
    unfold ret at 1.
    unfold bind at 1, gets at 1. fold (params_of w like).
    unfold bind at 1. rewrite Hrun.
    unfold bind at 1, assert. rewrite HV, Nat.eqb_refl. unfold ret.
    f_equal. unfold merged, hnames_of, shifted_y, value_of. simpl.
    rewrite Hi. simpl. rewrite Hrow. simpl. rewrite !app_nil_r.
    by destruct (RVLikelihood.hnames like); rewrite ?app_nil_r.
  - intros k q Hq. apply Hin. by eapply assoc_in_keys.
Qed.

Lemma merged_cons w (self : CompositeLikelihood.t F Model) like
    (rest : list (RVLikelihood.t F Model)) :
  merged w (merged w self [like]) rest = merged w self (like :: rest).
Proof.
  unfold merged, hnames_of. simpl. by rewrite !app_nil_r, <- !app_assoc.
Qed.

Lemma shifted_y_vectors w w' like :
  vectors w' = vectors w -> shifted_y w' like = shifted_y w like.
Proof. intros Hv. unfold shifted_y, value_of. by rewrite Hv. Qed.

Lemma merged_vectors w w' (self : CompositeLikelihood.t F Model)
    (rest : list (RVLikelihood.t F Model)) :
  vectors w' = vectors w -> merged w' self rest = merged w self rest.
Proof.
  intros Hv. unfold merged. do 3 f_equal.
  induction rest as [|l rest IH]; simpl; [done|].
  by rewrite IH, (shifted_y_vectors w w' l Hv).
Qed.

(** The loop of the constructor over children that agree: it returns, the
    merged dictionary has grown by the names it lacked, and every entry of it
    is the parameter of some child. *)
Lemma absorb_all_ok (P V : nat) (w0 : World F K)
    (all rest : list (RVLikelihood.t F Model)) :
  agree w0 all ->
  forall (self : CompositeLikelihood.t F Model) w,
    Likelihood.uparams (CompositeLikelihood.base self) = None ->
    params_grow P w0 w ->
    (forall k f, assoc k (paramss w P) = Some f ->
       exists l, l ∈ all /\ assoc k (params_of w0 l) = Some f) ->
    (forall l, l ∈ rest ->
       l ∈ all /\ offset_registered w0 l /\
       Likelihood.vector (RVLikelihood.base l) = V) ->
    exists w',
      CompositeLikelihood.absorb_all P V self rest w =
        (Ok (merged w0 self rest), w') /\
      params_grow P w w' /\
      (forall k f, assoc k (paramss w' P) = Some f ->
         exists l, l ∈ all /\ assoc k (params_of w0 l) = Some f) /\
      (forall l k q, l ∈ rest -> assoc k (params_of w0 l) = Some q ->
         exists f, assoc k (paramss w' P) = Some f).
Proof.
  intros Hagree. induction rest as [|l1 rest IH];
    intros self w Hup Hgrow Hinv Hrest; simpl.
  { exists w. rewrite merged_nil by done. split; [done|].
    split; [apply params_grow_refl|].
    split; [done|]. intros l k q Hl. by apply elem_of_nil in Hl. }
  destruct (Hrest l1) as (Hl1 & (i & row & Hi & Hrow) & HV); [by left|].
  pose proof Hgrow as (Hv & Hmono & Hother).
  (* every entry the child holds now is the parameter of some child *)
  assert (forall k q, assoc k (params_of w l1) = Some q ->
            exists l, l ∈ all /\ assoc k (params_of w0 l) = Some q) as Horigin.
  { intros k q Hq. unfold params_of in Hq.
    destruct (decide (Likelihood.params (RVLikelihood.base l1) = P))
      as [HP|HP].
    - rewrite HP in Hq. by apply Hinv.
    - rewrite (Hother _ HP) in Hq. by exists l1. }
  destruct (absorb_ok P V self l1 w Hup) as (w1 & Hrun & Hg1 & Horig & Hin).
  { exists i, row. by rewrite Hv. }
  { done. }
  { intros k q f Hq Hf.
    destruct (Horigin k q Hq) as (lq & Hlq & Hq0).
    destruct (Hinv k f Hf) as (lf & Hlf & Hf0).
    by apply (Hagree lf lq k f q). }
  { intros k q Hq. destruct (Horigin k q Hq) as (lq & Hlq & Hq0).
    by apply (Hagree lq lq k q q). }
  unfold bind. rewrite Hrun.
  destruct (IH (merged w self [l1]) w1) as (w' & Hrun' & Hg' & Hinv' & Hin').
  { done. }
  { by eapply params_grow_trans. }
  { intros k f Hf. destruct (Horig k f Hf) as [Hf1|Hf1];
      [by apply Hinv|by apply Horigin]. }
  { intros l Hl. apply Hrest. by right. }
  exists w'. split.
  { rewrite Hrun'. rewrite (merged_vectors w0 w) by done.
    by rewrite merged_cons. }
  split; [by eapply params_grow_trans|]. split; [done|].
  intros l k q Hl Hq. apply elem_of_cons in Hl as [->|Hl].
  - destruct (Hin k q) as [f Hf].
    { by apply Hmono. }
    exists f. destruct Hg' as (_ & Hmono' & _). by apply Hmono'.
  - by eapply Hin'.
Qed.

(** X13. On children that agree ([uparams] unset and offsets registered, as
    their constructors leave them; every child on the vector of the first;
    [_equals] accepting every pair of parameters two children hold under one
    name) the constructor returns.  The arrays of the composite are the
    concatenations, in list order, of the children's [x], [yerr], [telvec]
    and [extra_params] (the latter through [list(set(...))]); its [y] is the
    first child's [y] followed by the [y] of each later child minus the
    value its offset has at construction time; [hnames] collects those of
    the later children only.  The vectors are untouched; the only dictionary
    that changes is the first child's own, which keeps its entries and ends
    with exactly the names the children hold, each with a parameter taken
    from one of the children that holds it, which [_equals] accepts against
    the parameter of every child holding the name. *)
Theorem composite_init_merges (self_oid : nat) (like0 : RVLikelihood.t F Model)
    (rest : list (RVLikelihood.t F Model)) w :
  Likelihood.uparams (RVLikelihood.base like0) = None ->
  (forall l, l ∈ rest ->
     offset_registered w l /\
     Likelihood.vector (RVLikelihood.base l) =
       Likelihood.vector (RVLikelihood.base like0)) ->
  agree w (like0 :: rest) ->
  let P := Likelihood.params (RVLikelihood.base like0) in
  exists self w',
    CompositeLikelihood.__init__ self_oid (like0 :: rest) w = (Ok self, w') /\
    CompositeLikelihood.like_list self = like0 :: rest /\
    CompositeLikelihood.nlike self = S (length rest) /\
    Likelihood.vector (CompositeLikelihood.base self) =
      Likelihood.vector (RVLikelihood.base like0) /\
    Likelihood.params (CompositeLikelihood.base self) = P /\
    Likelihood.x (CompositeLikelihood.base self) =
      concat (map (fun l => Likelihood.x (RVLikelihood.base l))
                (like0 :: rest)) /\
    Likelihood.y (CompositeLikelihood.base self) =
      Likelihood.y (RVLikelihood.base like0) ++
      concat (map (shifted_y w) rest) /\
    Likelihood.yerr (CompositeLikelihood.base self) =
      concat (map (fun l => Likelihood.yerr (RVLikelihood.base l))
                (like0 :: rest)) /\
    CompositeLikelihood.telvec self =
      concat (map RVLikelihood.telvec (like0 :: rest)) /\
    CompositeLikelihood.extra_params self =
      list_set (concat (map RVLikelihood.extra_params (like0 :: rest))) /\
    CompositeLikelihood.hnames self = hnames_of rest /\
    vectors w' = vectors w /\
    (forall a, a <> P -> paramss w' a = paramss w a) /\
    (forall k f, assoc k (paramss w P) = Some f ->
       assoc k (paramss w' P) = Some f) /\
    (forall l k q, l ∈ like0 :: rest -> assoc k (params_of w l) = Some q ->
       exists f, assoc k (paramss w' P) = Some f /\
                 Param._equals q f = true) /\
    (forall k f, assoc k (paramss w' P) = Some f ->
       exists l, l ∈ like0 :: rest /\ assoc k (params_of w l) = Some f).
Proof.
  intros Hup Hrest Hagree P.
  unfold CompositeLikelihood.__init__.
  unfold bind at 1, lift at 1, seq_get at 1. simpl.
  match goal with |- context [CompositeLikelihood.absorb_all ?P' ?V ?s rest] =>
    destruct (absorb_all_ok P' V w (like0 :: rest) rest Hagree s w)
      as (w' & Hrun & Hgrow & Hinv & Hin)
  end.
  - exact Hup.
  - apply params_grow_refl.
  - intros k f Hf. exists like0. split; [by left|done].
  - intros l Hl. destruct (Hrest l Hl) as [Hreg HV].
    split; [by right|]. split; done.
  - unfold bind. rewrite Hrun. unfold ret.
    destruct Hgrow as (Hv & Hmono & Hother).
    eexists _, w'. split; [reflexivity|]. simpl.
    repeat (split; [done|]).
    split; [intros k f; apply Hmono|].
    split.
    { intros l k q Hl Hq.
      assert (exists f, assoc k (paramss w' P) = Some f) as [f Hf].
      { apply elem_of_cons in Hl as [->|Hl]; [|by eapply Hin].
        exists q. by apply Hmono. }
      exists f. split; [done|].
      destruct (Hinv k f Hf) as (lf & Hlf & Hf0).
      by apply (Hagree lf l k f q). }
    exact Hinv.
Qed.

End CompositeMerge.

(** ** The arrays of a composite *)

Section CompositeArrays.
Context {F K Model : Type} `{Num F} `{NumPy F}
  `{Likelihood.ModelCall F K Model} `{PySet}.

Implicit Types w : World F K.
Implicit Types self : CompositeLikelihood.t F Model.

Lemma append_each_run (f : RVLikelihood.t F Model -> @M F K (list F))
    (likes : list (RVLikelihood.t F Model)) :
  forall w (rs : list (list F)) w' (res : list F),
    run_in_order f likes w rs w' ->
    CompositeLikelihood.append_each f likes res w = (Ok (res ++ concat rs), w').
Proof.
  induction likes as [|like likes IH]; intros w rs w' res Hrun;
    inversion Hrun as [|? ? ? a w1 rs' ? Ha Hrest]; subst; simpl.
  - by rewrite app_nil_r.
  - unfold bind. rewrite Ha. rewrite (IH _ _ _ _ Hrest).
    by rewrite <- app_assoc.
Qed.

Lemma append_each_raises (f : RVLikelihood.t F Model -> @M F K (list F))
    (likes1 likes2 : list (RVLikelihood.t F Model))
    (like : RVLikelihood.t F Model) :
  forall w (rs : list (list F)) w1 w2 (res : list F) (e : exn),
    run_in_order f likes1 w rs w1 ->
    f like w1 = (Raise e, w2) ->
    CompositeLikelihood.append_each f (likes1 ++ like :: likes2) res w =
      (Raise e, w2).
Proof.
  induction likes1 as [|l0 likes1 IH]; intros w rs w1 w2 res e Hrun Hraise;
    inversion Hrun as [|? ? ? a w0 rs' ? Ha Hrest]; subst; simpl.
  - unfold bind. by rewrite Hraise.
  - unfold bind. rewrite Ha. by eapply IH.
Qed.

(** X14. [residuals()] of a composite with at least one child calls the
    children's [residuals()] in list order, each in the world its
    predecessor left (an eliminated offset is written on the way), and
    returns the concatenation of what they return; the first child that
    raises ends the call with its exception, the later ones are not
    called. *)
Theorem composite_residuals_concatenates self w :
  (forall (rs : list (list F)) w',
     CompositeLikelihood.like_list self <> [] ->
     run_in_order RVLikelihood.residuals (CompositeLikelihood.like_list self)
       w rs w' ->
     CompositeLikelihood.residuals self w = (Ok (concat rs), w')) /\
  (forall likes1 like likes2 (rs : list (list F)) w1 w2 (e : exn),
     CompositeLikelihood.like_list self = likes1 ++ like :: likes2 ->
     run_in_order RVLikelihood.residuals likes1 w rs w1 ->
     RVLikelihood.residuals like w1 = (Raise e, w2) ->
     CompositeLikelihood.residuals self w = (Raise e, w2)).
Proof.
  split.
  - intros rs w' Hne Hrun. unfold CompositeLikelihood.residuals.
    destruct (CompositeLikelihood.like_list self) as [|like0 likes]; [done|].
    inversion Hrun as [|? ? ? a w1 rs' ? Ha Hrest]; subst.
    unfold bind at 1, lift at 1. simpl.
    unfold bind. rewrite Ha. by apply append_each_run.
  - intros likes1 like likes2 rs w1 w2 e Hl Hrun Hraise.
    unfold CompositeLikelihood.residuals. rewrite Hl.
    destruct likes1 as [|l0 likes1];
      inversion Hrun as [|? ? ? a w0 rs' ? Ha Hrest]; subst; simpl.
    + unfold bind at 1, lift at 1. simpl. unfold bind. by rewrite Hraise.
    + unfold bind at 1, lift at 1. simpl. unfold bind. rewrite Ha.
      by eapply append_each_raises.
Qed.

Lemma rv_errorbars_run (like : RVLikelihood.t F Model) w (jrow : Vector.Row F) :
  rows_in w (RVLikelihood.base like) !! RVLikelihood.jit_index like
    = Some jrow ->
  RVLikelihood.errorbars like w = (Ok (errorbars_of w like), w).
Proof.
  intros Hj. unfold RVLikelihood.errorbars, RVLikelihood.row_at,
    RVLikelihood.rows_of, errorbars_of.
  unfold_monad. unfold seq_get. unfold rows_in in *. by rewrite Hj.
Qed.

Lemma errorbars_in_order (likes : list (RVLikelihood.t F Model)) w :
  (forall l, l ∈ likes ->
     exists jrow, rows_in w (RVLikelihood.base l) !! RVLikelihood.jit_index l
                    = Some jrow) ->
  run_in_order RVLikelihood.errorbars likes w (map (errorbars_of w) likes) w.
Proof.
  induction likes as [|l likes IH]; intros Hj; simpl; [constructor|].
  destruct (Hj l) as [jrow Hjrow]; [by left|].
  econstructor; [by eapply rv_errorbars_run|].
  apply IH. intros l' Hl'. apply Hj. by right.
Qed.

(** X15. [errorbars()] of a composite with at least one child, each child's
    jitter slot being in the vector: the concatenation, in list order, of
    [sqrt(yerr**2 + jit**2)] of each child with the child's own jitter, one
    value per data point; the world is left as it is.  A child whose jitter
    slot is out of range makes the call raise [IndexError]. *)
Theorem composite_errorbars_concatenates self w :
  (CompositeLikelihood.like_list self <> [] ->
   (forall l, l ∈ CompositeLikelihood.like_list self ->
      exists jrow, rows_in w (RVLikelihood.base l) !! RVLikelihood.jit_index l
                     = Some jrow) ->
   CompositeLikelihood.errorbars self w =
     (Ok (concat (map (errorbars_of w) (CompositeLikelihood.like_list self))),
      w) /\
   length (concat (map (errorbars_of w) (CompositeLikelihood.like_list self)))
     = sum_list (map (fun l => length (Likelihood.yerr (RVLikelihood.base l)))
                   (CompositeLikelihood.like_list self))) /\
  (forall likes1 like likes2,
     CompositeLikelihood.like_list self = likes1 ++ like :: likes2 ->
     (forall l, l ∈ likes1 ->
        exists jrow, rows_in w (RVLikelihood.base l) !! RVLikelihood.jit_index l
                       = Some jrow) ->
     rows_in w (RVLikelihood.base like) !! RVLikelihood.jit_index like = None ->
     CompositeLikelihood.errorbars self w = (Raise IndexError, w)).
Proof.
  split.
  - intros Hne Hj. split.
    + pose proof (errorbars_in_order _ w Hj) as Hrun.
      unfold CompositeLikelihood.errorbars.
      destruct (CompositeLikelihood.like_list self) as [|like0 likes]; [done|].
      simpl in Hrun.
      inversion Hrun as [|? ? ? a w1 rs' ? Ha Hrest]; subst.
      unfold bind at 1, lift at 1. simpl.
      unfold bind. rewrite Ha. by apply append_each_run.
    + induction (CompositeLikelihood.like_list self) as [|l likes IH];
        simpl; [done|].
      rewrite length_app. f_equal.
      * unfold errorbars_of, sum_sig_quad. by rewrite !length_map.
      * destruct likes as [|l' likes']; [done|]. apply IH; [done|].
        intros l0 Hl0. apply Hj. by right.
  - intros likes1 like likes2 Hl Hj Hnone.
    assert (RVLikelihood.errorbars like w = (Raise IndexError, w)) as Hraise.
    { unfold RVLikelihood.errorbars, RVLikelihood.row_at, RVLikelihood.rows_of.
      unfold_monad. unfold seq_get. unfold rows_in in Hnone.
      by rewrite Hnone. }
    pose proof (errorbars_in_order likes1 w Hj) as Hrun.
    unfold CompositeLikelihood.errorbars. rewrite Hl.
    destruct likes1 as [|l0 likes1]; simpl in *.
    + unfold bind at 1, lift at 1. simpl. unfold bind. by rewrite Hraise.
    + inversion Hrun as [|? ? ? a w0 rs' ? Ha Hrest]; subst.
      unfold bind at 1, lift at 1. simpl. unfold bind. rewrite Ha.
      by eapply append_each_raises.
Qed.

(** X16. A child whose [logprob()] raises ends [logprob()] of the composite:
    the exception leaves the composite as it is, the children after it are
    not evaluated, and what the children before it wrote stays written. *)
Theorem composite_logprob_stops_at_error self w
    (likes1 likes2 : list (RVLikelihood.t F Model))
    (like : RVLikelihood.t F Model) (ls : list F) w1 w2 (e : exn) :
  CompositeLikelihood.like_list self = likes1 ++ like :: likes2 ->
  children_return likes1 w ls w1 ->
  RVLikelihood.logprob like w1 = (Raise e, w2) ->
  CompositeLikelihood.logprob self w = (Raise e, w2).
Proof.
  intros Hl Hrun Hraise. unfold CompositeLikelihood.logprob. rewrite Hl.
  by eapply sum_logprob_raises.
Qed.

End CompositeArrays.

(** ** The residuals and the frame of a GP likelihood *)

Section GPResids.
Context {F K Model Factor : Type} `{Num F} `{NumPy F}
  `{Likelihood.ModelCall F K Model} `{PySet} `{Kernel F K}
  `{LinAlg F Factor}.

Implicit Types w : World F K.
Implicit Types self : GPLikelihood.t F Model.

Lemma zip_with__lookup {A B C : Type} (f : A -> B -> C) (a : list A) :
  forall (b : list B) (j : nat) (x : A) (y : B),
    a !! j = Some x -> b !! j = Some y ->
    zip_with_ f a b !! j = Some (f x y).
Proof.
  induction a as [|u a IH]; intros [|v b] [|j] x y Ha Hb; simpl in *;
    try done.
  - by inversion Ha; inversion Hb.
  - by apply IH.
Qed.

(** The loop that fills the offsets: the points of the instruments visited
    receive the offset of their instrument, the others keep what they had. *)
Lemma fill_gammas_spec self w (is_ : list nat) : forall g : list F,
  length g = length (GPLikelihood.inst_indices self) ->
  offsets_registered self w ->
  (forall i, i ∈ is_ -> i < length (GPLikelihood.insts self)) ->
  exists g',
    GPLikelihood.fill_gammas self is_ g w = (Ok g', w) /\
    length g' = length g /\
    forall j i, GPLikelihood.inst_indices self !! j = Some i ->
      g' !! j = if decide (i ∈ is_) then Some (instrument_offset self w i)
                else g !! j.
Proof.
  induction is_ as [|i0 is_ IH]; intros g Hlen Hreg Hlt; simpl.
  { exists g. split; [done|]. split; [done|].
    done. }
  destruct (lookup_lt_is_Some_2 (GPLikelihood.insts self) i0) as [inst Hinst];
    [apply Hlt; by left|].
  destruct (Hreg i0 inst Hinst) as (idx & row & Hidx & Hrow).
  unfold GPLikelihood.the_vector. unfold_monad.
  unfold seq_get, dict_get. rewrite Hinst. cbn beta. rewrite Hidx, Hrow.
  unfold mask_assign. rewrite length_map, <- Hlen, Nat.eqb_refl.
  set (g1 := zip_with_ (fun (m : bool) u => if m then Vector.value row else u)
               (map (fun j => Nat.eqb j i0) (GPLikelihood.inst_indices self))
               g).
  assert (length g1 = length g) as Hlen1.
  { unfold g1. rewrite zip_with__length; rewrite length_map; lia. }
  destruct (IH g1) as (g' & Hrun & Hlen' & Hspec); try done.
  { lia. }
  { intros i Hi. apply Hlt. by right. }
  exists g'. split; [done|]. split; [lia|].
  intros j i Hj. rewrite (Hspec j i Hj).
  assert (instrument_offset self w i0 = Vector.value row) as Hoff.
  { unfold instrument_offset. rewrite Hinst. simpl. rewrite Hidx. simpl.
    by rewrite Hrow. }
  destruct (decide (i ∈ is_)) as [Hin|Hnin].
  - rewrite decide_True; [done|by right].
  - destruct (lookup_lt_is_Some_2 g j) as [u Hu].
    { rewrite Hlen. by eapply lookup_lt_Some. }
    unfold g1.
    rewrite (zip_with__lookup _ _ _ j (Nat.eqb i i0) u);
      [|by rewrite list_lookup_fmap, Hj|done].
    destruct (Nat.eqb_spec i i0) as [->|Hne].
    + rewrite decide_True by (by left). by rewrite Hoff.
    + rewrite decide_False; [done|].
      intros Hin. apply elem_of_cons in Hin as [?|?]; done.
Qed.

(** The same loop read from its result: when it returns, it has changed
    nothing and every point of an instrument visited holds the offset of that
    instrument. *)
Lemma fill_gammas_Ok self w (is_ : list nat) : forall (g g' : list F) w',
  GPLikelihood.fill_gammas self is_ g w = (Ok g', w') ->
  forall j i, GPLikelihood.inst_indices self !! j = Some i ->
    g' !! j = if decide (i ∈ is_) then Some (instrument_offset self w i)
              else g !! j.
Proof.
  induction is_ as [|i0 is_ IH]; intros g g' w' Hrun j i Hj.
  { simpl in Hrun. unfold ret in Hrun. by inversion Hrun. }
  simpl in Hrun. unfold GPLikelihood.the_vector in Hrun.
  unfold_monad.
  destruct (seq_get (GPLikelihood.insts self) i0) as [inst|e] eqn:Hinst;
    [|done].
  cbn beta in Hrun.
  destruct (dict_get
              (Vector.indices
                 (vectors w (Likelihood.vector (GPLikelihood.self_base self))))
              ("gamma_" ++ inst)%string) as [idx|e] eqn:Hidx; [|done].
  destruct (seq_get
              (Vector.vector
                 (vectors w (Likelihood.vector (GPLikelihood.self_base self))))
              idx) as [row|e] eqn:Hrow; [|done].
  destruct (mask_assign g
              (map (fun j => Nat.eqb j i0) (GPLikelihood.inst_indices self))
              (Vector.value row)) as [g1|e] eqn:Hmask; [|done].
  rewrite (IH g1 g' w' Hrun j i Hj).
  unfold seq_get in Hinst, Hrow. unfold dict_get in Hidx.
  destruct (GPLikelihood.insts self !! i0) as [inst'|] eqn:Hinst'; [|done].
  inversion Hinst; subst inst'.
  destruct (assoc ("gamma_" ++ inst)%string _) as [idx'|] eqn:Hidx'; [|done].
  inversion Hidx; subst idx'.
  destruct (Vector.vector _ !! idx) as [row'|] eqn:Hrow'; [|done].
  inversion Hrow; subst row'.
  assert (instrument_offset self w i0 = Vector.value row) as Hoff.
  { unfold instrument_offset. rewrite Hinst'. simpl. rewrite Hidx'. simpl.
    by rewrite Hrow'. }
  unfold mask_assign in Hmask. rewrite length_map in Hmask.
  destruct (Nat.eqb_spec (length (GPLikelihood.inst_indices self)) (length g))
    as [Hlen|]; [|done].
  inversion Hmask as [Hg1]; clear Hmask.
  destruct (decide (i ∈ is_)) as [Hin|Hnin].
  - rewrite decide_True; [done|by right].
  - destruct (lookup_lt_is_Some_2 g j) as [u Hu].
    { rewrite <- Hlen. by eapply lookup_lt_Some. }
    rewrite (zip_with__lookup _ _ _ j (Nat.eqb i i0) u);
      [|by rewrite list_lookup_fmap, Hj|done].
    destruct (Nat.eqb_spec i i0) as [->|Hne].
    + rewrite decide_True by (by left). by rewrite Hoff.
    + rewrite decide_False; [done|].
      intros Hin. apply elem_of_cons in Hin as [?|?]; done.
Qed.

(** C9. When [predict(self.x)] returns the mean [mu] and leaves the world
    [w1], and [y - model(x)] has one entry per data point, [residuals()]
    returns [((y - model(x)) - mu) - gammas] and [_resids()] returns
    [(y - model(x)) - gammas], with one array [gammas] that holds, for every
    point, the offset of the point's own instrument (the slot
    ['gamma_' + insts[i]] for a point with [inst_indices[j] == i]).  So the
    two notions differ by [mu] but for the order of the two subtractions: where
    subtraction is exact, [(a - b) - c = (a - c) - b], [residuals()] is
    [_resids() - mu] entry by entry.  [logprob()] on the other hand feeds the
    residuals of [_resids()], taken right after the kernel parameters are
    updated, to the likelihood formula, and never calls [predict]. *)
Theorem gp_residuals_differ_by_mean self w w1 (mu sd d : list F) :
  GPLikelihood.predict self (Likelihood.x (GPLikelihood.self_base self)) None w
    = (Ok (mu, sd), w1) ->
  GPLikelihood.y_minus_model self w1 = (Ok d, w1) ->
  length d = GPLikelihood.N self ->
  length mu = GPLikelihood.N self ->
  (exists g r,
     vectors w1 = vectors w /\
     GPLikelihood.gammas_of self w1 = (Ok g, w1) /\
     length g = GPLikelihood.N self /\
     (forall j i, GPLikelihood.inst_indices self !! j = Some i ->
        i < length (GPLikelihood.insts self) ->
        g !! j = Some (instrument_offset self w1 i)) /\
     GPLikelihood._resids self w1 = (Ok r, w1) /\
     r = zip_with_ fsub d g /\
     GPLikelihood.residuals self w =
       (Ok (zip_with_ fsub (zip_with_ fsub d mu) g), w1) /\
     ((forall a b c : F, fsub (fsub a b) c = fsub (fsub a c) b) ->
      GPLikelihood.residuals self w = (Ok (zip_with_ fsub r mu), w1))) /\
  (forall w0 r' Kmat w2,
     GPLikelihood.prepare self w0 = (Ok (r', Kmat), w2) ->
     exists wa,
       GPLikelihood.update_kernel_params self w0 = (Ok tt, wa) /\
       GPLikelihood._resids self wa = (Ok r', wa) /\
       GPLikelihood.logprob self w0 =
         try_except (GPLikelihood.gp_like self Kmat r')
           GPLikelihood.not_positive_definite w2).
Proof.
  intros Hpred Hd Hld Hlmu.
  destruct (gp_residuals_run self w w1 mu sd d Hpred Hd Hld Hlmu)
    as [(g & Hv & Hg & Hlg & Hr & Hres) Hlog].
  split; [|exact Hlog].
  exists g, (zip_with_ fsub d g).
  split; [done|]. split; [done|]. split; [done|]. split.
  { intros j i Hj Hi. unfold GPLikelihood.gammas_of in Hg.
    rewrite (fill_gammas_Ok self w1 _ _ _ _ Hg j i Hj).
    rewrite decide_True; [done|]. apply elem_of_seq. lia. }
  split; [done|]. split; [done|]. split; [done|].
  intros Hswap. rewrite Hres. by rewrite zip_with__swap.
Qed.

(** X17. [_resids()] subtracts from each point of [y - model(x)] the offset
    of the point's own instrument, the slot ['gamma_' + insts[i]] for a
    point with [inst_indices[j] == i]; a point whose instrument index names
    no instrument is left with the uninitialised cell of [np.empty].  The
    call changes nothing: no offset is eliminated at this layer. *)
Theorem gp_resids_per_instrument self w (d : list F) :
  GPLikelihood.y_minus_model self w = (Ok d, w) ->
  length d = GPLikelihood.N self ->
  length (GPLikelihood.inst_indices self) = GPLikelihood.N self ->
  offsets_registered self w ->
  exists r,
    GPLikelihood._resids self w = (Ok r, w) /\
    length r = GPLikelihood.N self /\
    forall j dj i, d !! j = Some dj ->
      GPLikelihood.inst_indices self !! j = Some i ->
      r !! j =
        Some (fsub dj
                (if decide (i < length (GPLikelihood.insts self))
                 then instrument_offset self w i
                 else np_empty_item j)).
Proof.
  intros Hd Hld Hli Hreg.
  destruct (fill_gammas_spec self w
              (seq 0 (length (GPLikelihood.insts self)))
              (np_empty (GPLikelihood.N self)))
    as (g & Hrun & Hlg & Hspec).
  { by rewrite np_empty_length. }
  { done. }
  { intros i Hi. apply elem_of_seq in Hi. lia. }
  rewrite np_empty_length in Hlg.
  exists (zip_with_ fsub d g). split; [|split].
  - unfold GPLikelihood._resids, GPLikelihood.gammas_of.
    unfold bind at 1. rewrite Hrun. unfold bind at 1. rewrite Hd.
    unfold lift. by rewrite np_binop_same_length by lia.
  - rewrite zip_with__length; lia.
  - intros j dj i Hdj Hj.
    assert (g !! j = Some (if decide (i < length (GPLikelihood.insts self))
                           then instrument_offset self w i
                           else np_empty_item j)) as Hg.
    { rewrite (Hspec j i Hj).
      destruct (decide (i < length (GPLikelihood.insts self))) as [Hlt|Hge].
      - rewrite decide_True; [done|]. apply elem_of_seq. lia.
      - rewrite decide_False by (rewrite elem_of_seq; lia).
        unfold np_empty. rewrite list_lookup_fmap.
        rewrite lookup_seq_lt; [done|].
        apply lookup_lt_Some in Hdj. lia. }
    by apply zip_with__lookup.
Qed.

End GPResids.

Section GPFrame.
Context {F K Model Factor : Type} `{Num F} `{NumPy F}
  `{Likelihood.ModelCall F K Model} `{PySet} `{Kernel F K}
  `{LinAlg F Factor}.

Implicit Types w : World F K.
Implicit Types self : GPLikelihood.t F Model.

Lemma on_kernel_Ok (f : K -> Result K) w w' :
  GPLikelihood.on_kernel (F:=F) f w = (Ok tt, w') ->
  f (kernel w) = Ok (kernel w').
Proof.
  unfold GPLikelihood.on_kernel. unfold_monad.
  destruct (f (kernel w)) as [k'|e]; [|done].
  intros Hrun. by inversion Hrun.
Qed.

Lemma read_only_gp_like self (Kmat : Matrix F) (r : list F) :
  read_only (GPLikelihood.gp_like (K:=K) self Kmat r).
Proof.
  unfold GPLikelihood.gp_like.
  apply read_only_bind; [apply read_only_lift|intros L].
  apply read_only_bind; [apply read_only_lift|intros alpha].
  apply read_only_bind; [apply read_only_lift|intros sd].
  apply read_only_bind; [apply read_only_lift|intros ra].
  apply read_only_ret.
Qed.

Lemma kernel_only_prepare self : kernel_only (GPLikelihood.prepare self).
Proof.
  unfold GPLikelihood.prepare.
  apply kernel_only_bind; [apply kernel_only_update_kernel_params|intros _].
  apply kernel_only_bind;
    [apply read_only_kernel_only, read_only__resids|intros r].
  apply kernel_only_bind;
    [apply read_only_kernel_only, read_only_errorbars|intros e].
  apply kernel_only_bind; [apply kernel_only_covmatrix|intros Kmat].
  apply kernel_only_bind;
    [apply read_only_kernel_only, read_only_gets|intros Km].
  apply read_only_kernel_only, read_only_ret.
Qed.

Lemma same_but_kernel_frame w w' :
  same_but_kernel w w' ->
  vectors w' = vectors w /\ vary_params w' = vary_params w /\
  warnings w' = warnings w /\ stdout w' = stdout w.
Proof. intros (? & ? & ? & ? & ?). done. Qed.

(** X18. [predict] works on the kernel object only: whether it returns or
    raises, the vectors, the cached masks, the warnings and the output are
    as before.  When it returns, the last thing it has done to the kernel is
    [compute_distances(self.x, self.x)]: the distances are back to those of
    the training times. *)
Theorem gp_predict_frame self (xpred : list F) (amp : option string) w :
  (forall r w1, GPLikelihood.predict self xpred amp w = (r, w1) ->
     vectors w1 = vectors w /\ vary_params w1 = vary_params w /\
     warnings w1 = warnings w /\ stdout w1 = stdout w) /\
  (forall mu sd w1,
     GPLikelihood.predict self xpred amp w = (Ok (mu, sd), w1) ->
     exists k0,
       compute_distances k0 (Likelihood.x (GPLikelihood.self_base self))
         (Likelihood.x (GPLikelihood.self_base self)) = Ok (kernel w1)).
Proof.
  split.
  { intros r w1 Hp. by eapply same_but_kernel_frame, kernel_only_predict. }
  intros mu sd w1 Hp. unfold GPLikelihood.predict in Hp.
  repeat (apply bind_Ok_inv in Hp as (? & ? & ? & Hp); cbn beta in Hp).
  unfold ret in Hp. inversion Hp; subst; clear Hp.
  repeat match goal with u : unit |- _ => destruct u end.
  match goal with
  | Hk : GPLikelihood.on_kernel _ ?wz = (Ok _, w1) |- _ =>
      apply on_kernel_Ok in Hk; cbn beta in Hk; exists (kernel wz); exact Hk
  end.
Qed.

(** X19. Once the kernel parameters are updated and the residuals and the
    covariance matrix computed, the outcome of [logprob()] of a GP
    likelihood is that of the body of its [try]: the value of the body when
    it returns; [-inf] with the [RuntimeWarning] when it raises
    [LinAlgError] or [ValueError], at the factorization or at any later
    step; any other exception leaves [logprob()] as it is.  An exception
    before the [try] is not caught.  In every case the vectors, the cached
    masks and the output are as before. *)
Theorem gp_logprob_outcomes self w :
  (forall (r : list F) (Kmat : Matrix F) w1,
     GPLikelihood.prepare self w = (Ok (r, Kmat), w1) ->
     GPLikelihood.logprob self w =
       match fst (GPLikelihood.gp_like self Kmat r w1) with
       | Ok l => (Ok l, w1)
       | Raise LinAlgError | Raise ValueError =>
           (Ok (fneg finf),
            warned "Non-positive definite kernel detected." "RuntimeWarning"
              w1)
       | Raise e => (Raise e, w1)
       end) /\
  (forall e w1,
     GPLikelihood.prepare self w = (Raise e, w1) ->
     GPLikelihood.logprob self w = (Raise e, w1)) /\
  (let w2 := snd (GPLikelihood.logprob self w) in
   vectors w2 = vectors w /\ vary_params w2 = vary_params w /\
   stdout w2 = stdout w).
Proof.
  assert (forall (r : list F) (Kmat : Matrix F) w1,
     GPLikelihood.prepare self w = (Ok (r, Kmat), w1) ->
     GPLikelihood.logprob self w =
       match fst (GPLikelihood.gp_like self Kmat r w1) with
       | Ok l => (Ok l, w1)
       | Raise LinAlgError | Raise ValueError =>
           (Ok (fneg finf),
            warned "Non-positive definite kernel detected." "RuntimeWarning"
              w1)
       | Raise e => (Raise e, w1)
       end) as Hok.
  { intros r Kmat w1 Hprep.
    unfold GPLikelihood.logprob. unfold bind at 1. rewrite Hprep.
    unfold try_except. cbn [fst snd].
    destruct (GPLikelihood.gp_like self Kmat r w1) as [res w2] eqn:Hl.
    pose proof (read_only_gp_like self Kmat r _ _ _ Hl) as ->.
    destruct res as [l|e]; [done|].
    by destruct e. }
  assert (forall e w1,
     GPLikelihood.prepare self w = (Raise e, w1) ->
     GPLikelihood.logprob self w = (Raise e, w1)) as Hraise.
  { intros e w1 Hprep.
    unfold GPLikelihood.logprob. unfold bind at 1. by rewrite Hprep. }
  split; [done|]. split; [done|].
  destruct (GPLikelihood.prepare self w) as [[[r Kmat]|e] w1] eqn:Hprep;
    pose proof (kernel_only_prepare self _ _ _ Hprep) as (Hv & _ & Hc & _ & Ho).
  - rewrite (Hok r Kmat w1 eq_refl).
    destruct (fst (GPLikelihood.gp_like self Kmat r w1)) as [l|e];
      [done|by destruct e].
  - by rewrite (Hraise e w1 eq_refl).
Qed.

End GPFrame.

(** ** The Gaussian log-likelihood with jitter *)

Section Jitter.
Context {F : Type} `{Num F} `{NumPy F}.

(** A Python float whose square does not overflow is squared as a numpy
    scalar is. *)
Lemma loglike_jitter_py (r sigma : list F) (v : F) :
  fisfinite v = false \/ fisfinite (fsq v) = true ->
  loglike_jitter r sigma (PyFloat v) = loglike_jitter r sigma (NpFloat v).
Proof.
  intros Hv. unfold loglike_jitter. cbn [scalar_sq].
  by destruct Hv as [-> | ->]; rewrite ?andb_false_r.
Qed.

(** X11. With a jitter of zero, and [a + 0.0**2 = a], [loglike_jitter] is
    the Gaussian log-likelihood of the residuals with the error bars alone:
    minus half the sum of the [r_i**2/sigma_i**2] minus the sum of the
    [log(sqrt(2 pi sigma_i**2))]; for a numpy scalar, and for a Python
    float, whose square [0.0**2] is finite. *)
Theorem loglike_jitter_zero_jitter (r sigma : list F) :
  (forall a : F, fadd a (fsq (of_Q 0)) = a) ->
  length r = length sigma ->
  let value :=
    fsub
      (fmul (of_Q (-1 # 2))
         (np_sum (zip_with_ (fun ri s => fdiv (fsq ri) (fsq s)) r sigma)))
      (np_sum (map (fun s => np_log (np_sqrt
                              (fmul (fmul (of_Q 2) np_pi) (fsq s))))
                 sigma)) in
  loglike_jitter r sigma (NpFloat (of_Q 0)) = Ok value /\
  (fisfinite (fsq (of_Q 0)) = true ->
   loglike_jitter r sigma (PyFloat (of_Q 0)) = Ok value).
Proof.
  intros Hzero Hlen value.
  assert (loglike_jitter r sigma (NpFloat (of_Q 0)) = Ok value) as Hnp;
    [|split; [done|intros Hfin; rewrite loglike_jitter_py; [done|by right]]].
  subst value. rewrite loglike_jitter_spec by done.
  unfold gaussian_loglike, chi2_terms, penalty_terms.
  assert (zip_with_ (fun ri s => fdiv (fsq ri) (fadd (fsq s) (fsq (of_Q 0))))
            r sigma =
          zip_with_ (fun ri s => fdiv (fsq ri) (fsq s)) r sigma) as ->.
  { clear Hlen. revert sigma.
    induction r as [|ri r IH]; intros [|s sigma]; simpl; try done.
    by rewrite Hzero, IH. }
  do 3 f_equal. apply map_ext. intros s. by rewrite Hzero.
Qed.

Lemma np_binop_shapes (f : F -> F -> F) (a b : list F) :
  (length a = length b \/ length a = 1 \/ length b = 1 ->
   exists q, np_binop f a b = Ok q) /\
  (length a <> length b -> length a <> 1 -> length b <> 1 ->
   np_binop f a b = Raise ValueError) /\
  (forall v, b = [v] -> np_binop f a b = Ok (map (fun u => f u v) a)).
Proof.
  unfold np_binop. split; [|split].
  - intros Hsh.
    destruct (Nat.eqb_spec (length a) (length b)); [by eexists|].
    destruct Hsh as [?|[Ha|Hb]]; [done| |].
    + destruct a as [|a0 [|a1 a]]; try done. by eexists.
    + destruct b as [|b0 [|b1 b]]; try done.
      destruct a as [|a0 [|a1 a]]; by eexists.
  - intros Hne Ha Hb.
    destruct (Nat.eqb_spec (length a) (length b)); [done|].
    destruct a as [|a0 [|a1 a]]; destruct b as [|b0 [|b1 b]]; done.
  - intros v ->.
    destruct (Nat.eqb_spec (length a) (length [v])) as [Ha|Ha].
    + by destruct a as [|a0 [|a1 a]].
    + by destruct a as [|a0 [|a1 a]].
Qed.

(** X12. The errors of [loglike_jitter].  With a numpy scalar for the
    jitter the shapes accepted are those numpy broadcasts: residuals and
    error bars of one length, or one of them of length one; any other pair
    raises [ValueError]; with a single error bar for many residuals the
    penalty term is counted once, not once per residual.  With a Python
    float for the jitter, [sigma_jit**2] raises [OverflowError] when the
    jitter is finite and its square is not, whatever the shapes; any other
    Python float behaves as the numpy scalar of that value. *)
Theorem loglike_jitter_shapes (r sigma : list F) (jit : F) :
  (length r = length sigma \/ length r = 1 \/ length sigma = 1 ->
   exists l, loglike_jitter r sigma (NpFloat jit) = Ok l) /\
  (length r <> length sigma -> length r <> 1 -> length sigma <> 1 ->
   loglike_jitter r sigma (NpFloat jit) = Raise ValueError) /\
  (forall s, sigma = [s] ->
   let ssq := fadd (fsq s) (fsq jit) in
   loglike_jitter r sigma (NpFloat jit) =
     Ok (fsub
           (fmul (of_Q (-1 # 2))
              (np_sum (map (fun ri => fdiv (fsq ri) ssq) r)))
           (np_sum [np_log (np_sqrt (fmul (fmul (of_Q 2) np_pi) ssq))]))) /\
  (fisfinite jit = true -> fisfinite (fsq jit) = false ->
   loglike_jitter r sigma (PyFloat jit) = Raise OverflowError) /\
  (fisfinite jit = false \/ fisfinite (fsq jit) = true ->
   loglike_jitter r sigma (PyFloat jit) =
     loglike_jitter r sigma (NpFloat jit)).
Proof.
  destruct (np_binop_shapes fdiv (map fsq r) (sum_sig_quad sigma jit))
    as (Hok & Hbad & Hone).
  unfold sum_sig_quad in Hok, Hbad, Hone. rewrite !length_map in Hok, Hbad.
  split; [|split; [|split; [|split]]].
  - intros Hsh. destruct (Hok Hsh) as [q Hq].
    unfold loglike_jitter. cbn [scalar_sq]. rewrite Hq. by eexists.
  - intros Hne Hr Hs. unfold loglike_jitter. cbn [scalar_sq].
    by rewrite Hbad.
  - intros s Hs. subst sigma. cbv zeta.
    unfold loglike_jitter. cbn [scalar_sq].
    rewrite (Hone (fadd (fsq s) (fsq jit)) eq_refl). simpl.
    by rewrite map_map.
  - intros Hfin Hsq. unfold loglike_jitter. cbn [scalar_sq].
    by rewrite Hfin, Hsq.
  - apply loglike_jitter_py.
Qed.

End Jitter.

(** ** The further properties on concrete objects *)

Lemma xadd_zero_sq (a : xnum) : fadd a (fsq (of_Q 0)) = a.
Proof.
  destruct a as [p| | |]; try reflexivity.
  unfold fsq. simpl. f_equal. apply Qc_is_canon. simpl.
  rewrite !Qred_correct. ring.
Qed.

Lemma set_vary_params_trusts_cache_witness :
  exists w1,
    Likelihood.set_vary_params Example.flat [Example.num 7; Example.num 8]
      Example.w3_stale = (Ok tt, w1) /\
    rows_in w1 Example.flat =
      write_all (rows_in Example.w3_stale Example.flat) [0; 2]
        [Example.num 7; Example.num 8].
Proof.
  destruct (set_vary_params_trusts_cache Example.flat
              [Example.num 7; Example.num 8] Example.w3_stale [0; 2])
    as (w1 & Hrun & Hrows & _).
  - reflexivity.
  - reflexivity.
  - intros j Hj. apply elem_of_cons in Hj as [->|Hj]; [simpl; lia|].
    apply list_elem_of_singleton in Hj as ->. simpl. lia.
  - exists w1. split; assumption.
Defined.

Lemma set_vary_params_refreshes_cache_witness :
  exists w1,
    Likelihood.set_vary_params Example.flat [Example.num 7; Example.num 8]
      Sample.w3_short_cache = (Ok tt, w1) /\
    vary_params w1 0 = Some [1; 2].
Proof.
  destruct (set_vary_params_refreshes_cache Example.flat
              [Example.num 7; Example.num 8] Sample.w3_short_cache [0])
    as (w1 & Hrun & _ & Hc & _).
  - reflexivity.
  - simpl. lia.
  - exists w1. split; [exact Hrun|exact Hc].
Defined.

Lemma get_vary_params_reads_vary_slots_witness :
  exists vals w1,
    Likelihood.get_vary_params Example.flat Example.w3 = (Ok vals, w1) /\
    length vals = 2 /\
    Likelihood.get_vary_params Example.flat w1 = (Ok vals, w1).
Proof.
  destruct (get_vary_params_reads_vary_slots Example.flat Example.w3)
    as (vals & w1 & Hget & Hlen & _ & _ & _ & _ & Hagain).
  - exact I.
  - exists vals, w1. split; [exact Hget|]. split; [exact Hlen|exact Hagain].
Defined.

Lemma name_vary_params_lines_up_witness :
  exists nms vals w1,
    Likelihood.name_vary_params Example.flat Example.w3 = (Ok nms, w1) /\
    Likelihood.get_vary_params Example.flat Example.w3 = (Ok vals, w1) /\
    nms !! 1 = Some "c".
Proof.
  destruct (name_vary_params_lines_up Example.flat Example.w3)
    as (nms & vals & w1 & Hn & Hg & _ & Hline).
  - exact I.
  - simpl. lia.
  - exists nms, vals, w1. split; [exact Hn|]. split; [exact Hg|].
    destruct (Hline 1 2 eq_refl) as [H1 _]. exact H1.
Defined.

Lemma logprob_array_sets_then_evaluates_witness :
  exists w1,
    map Vector.value (rows_in w1 (RVLikelihood.base Example.rv3)) =
      [Example.num 3; Example.num 2; Example.num 1] /\
    Likelihood.logprob_array Example.rv3 [Example.num 3; Example.num 1]
      Example.w_fixed = RVLikelihood.logprob Example.rv3 w1.
Proof.
  destruct (logprob_array_sets_then_evaluates Example.rv3
              [Example.num 3; Example.num 1] Example.w_fixed)
    as (w1 & Hrows & _ & Hok & _).
  - exact I.
  - exists w1. split.
    + change (Likelihood.self_base Example.rv3)
        with (RVLikelihood.base Example.rv3) in Hrows.
      rewrite Hrows. vm_compute. reflexivity.
    + destruct (Hok eq_refl) as [Hla _]. exact Hla.
Defined.

Lemma bic_value_witness :
  exists l,
    fst (Likelihood.bic Example.rv3 Example.w_fixed) =
      Ok (fsub (fmul (np_log (of_nat 3)) (of_nat 2)) (fmul (of_Q 2) l)).
Proof.
  eassert (Likelihood.call_logprob Example.rv3
             (snd (Likelihood.get_vary_params
                     (Likelihood.self_base Example.rv3) Example.w_fixed))
           = (Ok _, _)) as Hlog by (vm_compute; reflexivity).
  eexists.
  rewrite (bic_value Example.rv3 Example.w_fixed _ _ I Hlog). reflexivity.
Defined.

Lemma rv_residuals_forget_offset_witness :
  let w1 := snd (RVLikelihood.residuals Example.rv3 Example.w_linear) in
  fst (RVLikelihood.residuals Example.rv3 w1) =
    fst (RVLikelihood.residuals Example.rv3 Example.w_linear) /\
  rows_in (snd (RVLikelihood.residuals Example.rv3 w1))
    (RVLikelihood.base Example.rv3) =
  rows_in w1 (RVLikelihood.base Example.rv3).
Proof.
  edestruct (rv_residuals_forget_offset Example.rv3 Example.w_linear)
    as [_ Hagain].
  - reflexivity.
  - intros g. reflexivity.
  - reflexivity.
  - vm_compute. reflexivity.
  - reflexivity.
  - simpl. lia.
  - reflexivity.
  - reflexivity.
  - exact Hagain.
Defined.

Lemma rv_logprob_eliminated_offset_witness :
  exists l z,
    RVLikelihood.logprob Example.rv3 Example.w_linear =
      (Ok l, offset_set Example.rv3 z Example.w_linear) /\
    RVLikelihood.residuals Example.rv3 Example.w_linear =
      (Ok (plain_residuals (Likelihood.y (RVLikelihood.base Example.rv3))
             [Example.num 1; Example.num 1; Example.num 1] z),
       offset_set Example.rv3 z Example.w_linear).
Proof.
  edestruct (rv_logprob_eliminated_offset Example.rv3 Example.w_linear)
    as [Hlog Hres].
  - reflexivity.
  - reflexivity.
  - vm_compute. reflexivity.
  - reflexivity.
  - reflexivity.
  - reflexivity.
  - reflexivity.
  - eexists _, _. split; [exact Hlog|exact Hres].
Defined.

Lemma loglike_jitter_zero_jitter_witness :
  exists l,
    loglike_jitter [Example.num 1; Example.num 2]
      [Example.num 1; Example.num 2] (NpFloat (of_Q 0)) = Ok l /\
    loglike_jitter [Example.num 1; Example.num 2]
      [Example.num 1; Example.num 2] (PyFloat (of_Q 0)) = Ok l.
Proof.
  destruct (loglike_jitter_zero_jitter [Example.num 1; Example.num 2]
              [Example.num 1; Example.num 2] xadd_zero_sq eq_refl)
    as [Hnp Hpy].
  eexists. split; [exact Hnp|]. apply Hpy. reflexivity.
Defined.

Lemma composite_logprob_stops_at_error_witness :
  exists w2,
    CompositeLikelihood.logprob Sample.composite_bad Example.w_fixed =
      (Raise IndexError, w2).
Proof.
  eassert (children_return [Example.rvA] Example.w_fixed _ _) as Hrun.
  { eapply children_cons; [vm_compute; reflexivity|]. apply children_nil. }
  eexists.
  eapply (composite_logprob_stops_at_error Sample.composite_bad
            Example.w_fixed [Example.rvA] [Example.rvB] Sample.rv_bad
            _ _ _ IndexError eq_refl Hrun).
  vm_compute. reflexivity.
Defined.

Lemma gp_resids_per_instrument_witness :
  exists r,
    GPLikelihood._resids Example.gp_j (Example.w_gp 1 0) =
      (Ok r, Example.w_gp 1 0) /\
    length r = 3.
Proof.
  eassert (GPLikelihood.y_minus_model Example.gp_j (Example.w_gp 1 0)
           = (Ok _, Example.w_gp 1 0)) as Hd by (vm_compute; reflexivity).
  destruct (gp_resids_per_instrument Example.gp_j (Example.w_gp 1 0) _ Hd)
    as (r & Hr & Hlen & _).
  - reflexivity.
  - reflexivity.
  - intros i inst Hi. destruct i as [|i]; simpl in Hi; [|done].
    inversion Hi; subst inst. eexists _, _. split; reflexivity.
  - exists r. split; [exact Hr|exact Hlen].
Defined.

Lemma sample_agree :
  agree Sample.w_agree [Example.rv3; Example.rv_other].
Proof.
  assert (forall p : Param.t xnum,
            p = {| Param.value := Example.num 1; Param.vary := true |} \/
            p = {| Param.value := Example.num 5; Param.vary := false |} ->
            Param._equals p p = true) as Hself.
  { intros p [->| ->]; vm_compute; reflexivity. }
  intros li lj k p q Hi Hj Hp Hq.
  apply elem_of_cons in Hi as [->|Hi];
    [|apply list_elem_of_singleton in Hi as ->];
    (apply elem_of_cons in Hj as [->|Hj];
     [|apply list_elem_of_singleton in Hj as ->]);
    unfold params_of in Hp, Hq; simpl in Hp, Hq;
    destruct (String.eqb k "k1"); try destruct (String.eqb k "k2");
    try discriminate;
    inversion Hp; inversion Hq; subst; vm_compute; reflexivity.
Qed.

Lemma composite_init_merges_witness :
  exists self w',
    CompositeLikelihood.__init__ 9 [Example.rv3; Example.rv_other]
      Sample.w_agree = (Ok self, w') /\
    Likelihood.y (CompositeLikelihood.base self) =
      Likelihood.y (RVLikelihood.base Example.rv3) ++
      shifted_y Sample.w_agree Example.rv_other /\
    exists f, assoc "k2" (paramss w' 0) = Some f.
Proof.
  destruct (composite_init_merges 9 Example.rv3 [Example.rv_other]
              Sample.w_agree)
    as (self & w' & Hrun & _ & _ & _ & _ & _ & Hy & _ & _ & _ & _ & _ & _ & _
        & Hall & _).
  - reflexivity.
  - intros l Hl. apply list_elem_of_singleton in Hl as ->.
    split; [|reflexivity]. eexists _, _. split; reflexivity.
  - exact sample_agree.
  - exists self, w'. split; [exact Hrun|]. split.
    + rewrite Hy. cbn [map concat]. rewrite app_nil_r. reflexivity.
    + destruct (Hall Example.rv_other "k2"
                  {| Param.value := Example.num 5; Param.vary := false |})
        as (f & Hf & _); [by right; left|reflexivity|].
      by exists f.
Defined.

(** ** The constructors *)

Section Registration.
Context {F K Model : Type} `{Num F} `{ModelAttrs F K Model}.

Implicit Types w : World F K.

Lemma only_registry_changed_refl (vec params : nat) w :
  only_registry_changed vec params w w.
Proof. repeat split. Qed.

Lemma only_registry_changed_trans (vec params : nat) w1 w2 w3 :
  only_registry_changed vec params w1 w2 ->
  only_registry_changed vec params w2 w3 ->
  only_registry_changed vec params w1 w3.
Proof.
  intros (A1 & B1 & C1 & D1 & E1 & G1 & I1 & J1)
         (A2 & B2 & C2 & D2 & E2 & G2 & I2 & J2).
  repeat split; try congruence.
  - intros a Ha. rewrite C2, C1 by done. done.
  - intros a Ha. rewrite D2, D1 by done. done.
Qed.

Lemma assoc_app_None {V : Type} (k k0 : string) (d : list (string * V)) (v : V) :
  assoc k d = None -> k <> k0 -> assoc k (d ++ [(k0, v)]) = None.
Proof.
  induction d as [|[k1 v1] d IH]; simpl; intros Hk Hne.
  - by destruct (String.eqb_spec k k0).
  - destruct (String.eqb k k1); [done|by apply IH].
Qed.

(** The registration loop: it cannot raise; names that had a slot or a
    parameter keep it; every key ends up with both; a new slot is at or
    above [n]; and slots stay below the counter and distinct when they were
    so at the start. *)
Lemma register_keys_run (vec params : nat) (keys : list string) :
  forall (n : nat) w,
    slots_below (Vector.indices (vectors w vec)) n ->
    slots_distinct (Vector.indices (vectors w vec)) ->
    exists n' w',
      Init.register_keys vec params keys n w = (Ok n', w') /\
      n <= n' <= n + length keys /\
      only_registry_changed vec params w w' /\
      slots_below (Vector.indices (vectors w' vec)) n' /\
      slots_distinct (Vector.indices (vectors w' vec)) /\
      (forall k i, assoc k (Vector.indices (vectors w vec)) = Some i ->
         assoc k (Vector.indices (vectors w' vec)) = Some i) /\
      (forall k, k ∈ keys ->
         exists i, assoc k (Vector.indices (vectors w' vec)) = Some i) /\
      (forall k i, assoc k (Vector.indices (vectors w' vec)) = Some i ->
         assoc k (Vector.indices (vectors w vec)) = Some i \/
         (k ∈ keys /\ n <= i)) /\
      (forall k q, assoc k (paramss w params) = Some q ->
         assoc k (paramss w' params) = Some q) /\
      (forall k, k ∈ keys -> exists q, assoc k (paramss w' params) = Some q) /\
      (forall k q, assoc k (paramss w' params) = Some q ->
         assoc k (paramss w params) = Some q \/
         (k ∈ keys /\ q = new_parameter (of_Q 0))).
Proof.
  induction keys as [|key keys IH]; intros n w Hbelow Hdist; simpl.
  { exists n, w. split; [done|]. split; [lia|].
    split; [apply only_registry_changed_refl|].
    repeat split; try done.
    - intros k Hk. by apply elem_of_nil in Hk.
    - by left.
    - intros k Hk. by apply elem_of_nil in Hk.
    - by left. }
  (* the parameter *)
  set (d := paramss w params).
  set (wp := if dict_mem key d then w
             else set_params params (dict_add d key (new_parameter (of_Q 0)))
                    w).
  assert (vectors wp = vectors w) as Hvp by (unfold wp; by destruct (dict_mem key d)).
  assert (only_registry_changed vec params w wp) as Hfp.
  { unfold wp. destruct (dict_mem key d); [apply only_registry_changed_refl|].
    unfold only_registry_changed, set_params, upd; simpl. repeat split.
    intros a Ha. by destruct (Nat.eqb_spec a params). }
  assert (forall k q, assoc k d = Some q -> assoc k (paramss wp params) = Some q)
    as Hpkeep.
  { intros k q Hk. unfold wp. destruct (dict_mem key d); [done|].
    unfold set_params, upd, dict_add; simpl. rewrite Nat.eqb_refl.
    by apply assoc_app_l. }
  assert (exists q, assoc key (paramss wp params) = Some q) as Hpkey.
  { unfold wp, dict_mem. destruct (assoc key d) as [q|] eqn:Hq; [by exists q|].
    unfold set_params, upd, dict_add; simpl. rewrite Nat.eqb_refl.
    eexists. by apply assoc_app_new. }
  assert (forall k q, assoc k (paramss wp params) = Some q ->
            assoc k d = Some q \/ (k = key /\ q = new_parameter (of_Q 0)))
    as Hpnew.
  { intros k q. unfold wp. destruct (dict_mem key d); [by left|].
    unfold set_params, upd, dict_add; simpl. rewrite Nat.eqb_refl.
    intros Hk. apply assoc_app_inv in Hk as [?|(? & ? & _)]; auto. }
  assert ((d0 <- gets (fun w0 => paramss w0 params) ;;
           (if dict_mem key d0 then ret tt
            else modify (set_params params
                           (dict_add d0 key (new_parameter (of_Q 0)))))) w
          = (Ok tt, wp)) as Hstep1.
  { unfold_monad. fold d. unfold wp. by destruct (dict_mem key d). }
  unfold bind at 1. unfold bind at 1 in Hstep1.
  unfold bind at 1. unfold bind at 1. unfold gets at 1.
  fold d.
  replace ((if dict_mem key d then ret tt
            else modify (set_params params
                           (dict_add d key (new_parameter (of_Q 0))))) w)
    with (@Ok unit tt, wp)
    by (unfold wp; unfold_monad; by destruct (dict_mem key d)).
  unfold bind at 1, gets at 1. rewrite Hvp.
  set (idx := Vector.indices (vectors w vec)) in *.
  unfold dict_mem at 1.
  destruct (assoc key idx) as [i0|] eqn:Hi0.
  - (* the key has a slot *)
    destruct (IH n wp) as (n' & w' & Hrun & Hn & Hf & Hb' & Hd' & Hkeep & Hin
                           & Hnew & Hpk & Hpin & Hpn).
    { by rewrite Hvp. }
    { by rewrite Hvp. }
    rewrite Hvp in Hkeep, Hnew.
    exists n', w'. split; [done|]. split; [lia|].
    split; [by eapply only_registry_changed_trans|].
    split; [done|]. split; [done|]. split; [done|]. split.
    { intros k Hk. apply elem_of_cons in Hk as [->|Hk]; [|by apply Hin].
      exists i0. by apply Hkeep. }
    split.
    { intros k i Hk. destruct (Hnew k i Hk) as [?|[? ?]]; [by left|].
      right. split; [by right|done]. }
    split; [intros k q Hk; by apply Hpk, Hpkeep|].
    split.
    { intros k Hk. apply elem_of_cons in Hk as [->|Hk]; [|by apply Hpin].
      destruct Hpkey as [q Hq]. exists q. by apply Hpk. }
    intros k q Hk. destruct (Hpn k q Hk) as [Hk'|[? ?]].
    + destruct (Hpnew k q Hk') as [?|[-> ->]]; [by left|].
      right. split; [by left|done].
    + right. split; [by right|done].
  - (* the key receives the slot [n] *)
    set (v1 := {| Vector.indices := dict_add idx key n;
                  Vector.vector := Vector.vector (vectors w vec);
                  Vector.names := Vector.names (vectors w vec) |}).
    unfold modify at 1. cbv beta iota.
    set (w1 := set_vector vec v1 wp).
    assert (Vector.indices (vectors w1 vec) = dict_add idx key n) as Hidx1.
    { unfold w1, set_vector, upd. simpl. by rewrite Nat.eqb_refl. }
    assert (only_registry_changed vec params wp w1) as Hf1.
    { unfold only_registry_changed, w1, set_vector, upd; simpl.
      rewrite Nat.eqb_refl, Hvp. simpl. repeat split.
      intros a Ha. by destruct (Nat.eqb_spec a vec). }
    assert (paramss w1 = paramss wp) as Hp1 by done.
    destruct (IH (S n) w1) as (n' & w' & Hrun & Hn & Hf & Hb' & Hd' & Hkeep
                               & Hin & Hnew & Hpk & Hpin & Hpn).
    { rewrite Hidx1. intros k i Hk. unfold dict_add in Hk.
      apply assoc_app_inv in Hk as [Hk|(_ & -> & _)]; [|lia].
      apply Hbelow in Hk. lia. }
    { rewrite Hidx1. intros k1 k2 i H1 H2. unfold dict_add in H1, H2.
      apply assoc_app_inv in H1 as [H1|(-> & -> & _)];
        apply assoc_app_inv in H2 as [H2|(-> & ? & _)]; try done.
      - by eapply Hdist.
      - subst i. apply Hbelow in H1. lia.
      - apply Hbelow in H2. lia. }
    rewrite Hidx1 in Hkeep, Hnew. rewrite Hp1 in Hpk, Hpn.
    exists n', w'. split; [done|]. split; [simpl; lia|].
    split.
    { eapply only_registry_changed_trans; [exact Hfp|].
      by eapply only_registry_changed_trans. }
    split; [done|]. split; [done|]. split.
    { intros k i Hk. apply Hkeep. unfold dict_add. by apply assoc_app_l. }
    split.
    { intros k Hk. apply elem_of_cons in Hk as [->|Hk]; [|by apply Hin].
      exists n. apply Hkeep. unfold dict_add. by apply assoc_app_new. }
    split.
    { intros k i Hk. destruct (Hnew k i Hk) as [Hk'|[? ?]].
      - unfold dict_add in Hk'.
        apply assoc_app_inv in Hk' as [?|(-> & -> & _)]; [by left|].
        right. split; [by left|done].
      - right. split; [by right|lia]. }
    split; [intros k q Hk; by apply Hpk, Hpkeep|].
    split.
    { intros k Hk. apply elem_of_cons in Hk as [->|Hk]; [|by apply Hpin].
      destruct Hpkey as [q Hq]. exists q. by apply Hpk. }
    intros k q Hk. destruct (Hpn k q Hk) as [Hk'|[? ?]].
    + destruct (Hpnew k q Hk') as [?|[-> ->]]; [by left|].
      right. split; [by left|done].
    + right. split; [by right|done].
Qed.

End Registration.

Section LikelihoodInit.
Context {F K Model : Type} `{Num F} `{ModelAttrs F K Model}.

Implicit Types w : World F K.

(** The two registration loops together. *)
Lemma register_all_run (vec params : nat)
    (extra_params decorr_params : list string) w :
  let idx := Vector.indices (vectors w vec) in
  let n := length (Vector.vector (vectors w vec)) in
  slots_below idx n ->
  slots_distinct idx ->
  exists n' w1,
    Init.register_all vec params extra_params decorr_params w = (Ok n', w1) /\
    only_registry_changed vec params w w1 /\
    n <= n' <= n + length (extra_params ++ decorr_params) /\
    slots_below (Vector.indices (vectors w1 vec)) n' /\
    slots_distinct (Vector.indices (vectors w1 vec)) /\
    (forall k i, assoc k idx = Some i ->
       assoc k (Vector.indices (vectors w1 vec)) = Some i) /\
    (forall k, k ∈ extra_params ++ decorr_params ->
       (exists i, assoc k (Vector.indices (vectors w1 vec)) = Some i) /\
       (exists q, assoc k (paramss w1 params) = Some q)) /\
    (forall k i, assoc k (Vector.indices (vectors w1 vec)) = Some i ->
       assoc k idx = Some i \/ (k ∈ extra_params ++ decorr_params /\ n <= i)) /\
    (forall k q, assoc k (paramss w params) = Some q ->
       assoc k (paramss w1 params) = Some q) /\
    (forall k q, assoc k (paramss w1 params) = Some q ->
       assoc k (paramss w params) = Some q \/
       (k ∈ extra_params ++ decorr_params /\ q = new_parameter (of_Q 0))).
Proof.
  intros idx n Hbelow Hdist.
  destruct (register_keys_run vec params extra_params n w Hbelow Hdist)
    as (n1 & wa & Hrun1 & Hn1 & Hf1 & Hb1 & Hd1 & Hk1 & Hin1 & Hnew1 & Hpk1
        & Hpin1 & Hpn1).
  destruct (register_keys_run vec params decorr_params n1 wa Hb1 Hd1)
    as (n2 & wb & Hrun2 & Hn2 & Hf2 & Hb2 & Hd2 & Hk2 & Hin2 & Hnew2 & Hpk2
        & Hpin2 & Hpn2).
  exists n2, wb. split.
  { unfold Init.register_all. unfold bind at 1, gets at 1.
    unfold bind. fold n. by rewrite Hrun1. }
  split; [by eapply only_registry_changed_trans|].
  split; [rewrite length_app; lia|].
  split; [done|]. split; [done|].
  split; [intros k i Hk; by apply Hk2, Hk1|].
  split.
  { intros k Hk. apply elem_of_app in Hk as [Hk|Hk]; split.
    - destruct (Hin1 k Hk) as [i Hi]. exists i. by apply Hk2.
    - destruct (Hpin1 k Hk) as [q Hq]. exists q. by apply Hpk2.
    - by apply Hin2.
    - by apply Hpin2. }
  split.
  { intros k i Hk. destruct (Hnew2 k i Hk) as [Hk'|[Hk' Hle]].
    - destruct (Hnew1 k i Hk') as [?|[? ?]]; [by left|].
      right. split; [apply elem_of_app; by left|done].
    - right. split; [apply elem_of_app; by right|lia]. }
  split; [intros k q Hk; by apply Hpk2, Hpk1|].
  intros k q Hk. destruct (Hpn2 k q Hk) as [Hk'|[Hk' ->]].
  - destruct (Hpn1 k q Hk') as [?|[? ->]]; [by left|].
    right. split; [apply elem_of_app; by left|done].
  - right. split; [apply elem_of_app; by right|done].
Qed.

Lemma likelihood_init_run (oid : nat) (model : Model)
    (x y yerr : list F) (extra_params decorr_params : list string)
    (decorr_vectors : list (string * list F)) w (n' : nat) w1 :
  Init.register_all (model_vector model) (model_params model) extra_params
    decorr_params w = (Ok n', w1) ->
  Init.Likelihood__init__ oid model x y yerr extra_params decorr_params
    decorr_vectors w =
    (match Init.rebuild (model_vector model) w1 with
     | (Ok _, w2) =>
         (Ok ({| Likelihood.oid := oid; Likelihood.model := model;
                 Likelihood.vector := model_vector model;
                 Likelihood.params := model_params model;
                 Likelihood.x := x; Likelihood.y := y;
                 Likelihood.yerr := yerr; Likelihood.uparams := None |},
              map fst decorr_vectors), w2)
     | (Raise e, w2) => (Raise e, w2)
     end).
Proof.
  intros Hall. unfold Init.Likelihood__init__.
  unfold bind at 1. rewrite Hall. unfold bind at 1.
  by destruct (Init.rebuild (model_vector model) w1) as [[[]|e] w2].
Qed.

(** X20. The constructor of [Likelihood] registers the extra and the
    decorrelation parameters without raising, before it hands over to
    [dict_to_vector]: starting from a vector whose names have distinct slots
    below the number of rows, every name that had a slot or a parameter
    keeps it, every key receives both, a key without a parameter receives
    [Parameter(value=0.0)], a key without a slot receives a free slot at or
    above the number of rows, and the slots are still distinct.  Nothing
    else changes before [dict_to_vector] runs, and the constructor returns
    exactly when [dict_to_vector] and [vector_names] do. *)
Theorem likelihood_init_registers (oid : nat) (model : Model)
    (x y yerr : list F) (extra_params decorr_params : list string)
    (decorr_vectors : list (string * list F)) w :
  let vec := model_vector model in
  let params := model_params model in
  let idx := Vector.indices (vectors w vec) in
  let n := length (Vector.vector (vectors w vec)) in
  slots_below idx n ->
  slots_distinct idx ->
  exists n' w1,
    Init.register_all vec params extra_params decorr_params w = (Ok n', w1) /\
    Init.Likelihood__init__ oid model x y yerr extra_params decorr_params
      decorr_vectors w =
      (match Init.rebuild vec w1 with
       | (Ok _, w2) =>
           (Ok ({| Likelihood.oid := oid; Likelihood.model := model;
                   Likelihood.vector := vec; Likelihood.params := params;
                   Likelihood.x := x; Likelihood.y := y;
                   Likelihood.yerr := yerr; Likelihood.uparams := None |},
                map fst decorr_vectors), w2)
       | (Raise e, w2) => (Raise e, w2)
       end) /\
    only_registry_changed vec params w w1 /\
    n <= n' <= n + length (extra_params ++ decorr_params) /\
    slots_below (Vector.indices (vectors w1 vec)) n' /\
    slots_distinct (Vector.indices (vectors w1 vec)) /\
    (forall k i, assoc k idx = Some i ->
       assoc k (Vector.indices (vectors w1 vec)) = Some i) /\
    (forall k, k ∈ extra_params ++ decorr_params ->
       (exists i, assoc k (Vector.indices (vectors w1 vec)) = Some i) /\
       (exists q, assoc k (paramss w1 params) = Some q)) /\
    (forall k i, assoc k (Vector.indices (vectors w1 vec)) = Some i ->
       assoc k idx = Some i \/ (k ∈ extra_params ++ decorr_params /\ n <= i)) /\
    (forall k q, assoc k (paramss w params) = Some q ->
       assoc k (paramss w1 params) = Some q) /\
    (forall k q, assoc k (paramss w1 params) = Some q ->
       assoc k (paramss w params) = Some q \/
       (k ∈ extra_params ++ decorr_params /\ q = new_parameter (of_Q 0))).
Proof.
  intros vec params idx n Hbelow Hdist.
  destruct (register_all_run vec params extra_params decorr_params w
              Hbelow Hdist) as (n' & w1 & Hall & Hrest).
  exists n', w1. split; [done|]. split; [|done].
  by eapply likelihood_init_run.
Qed.

(** When the methods of the vector object keep its name-to-slot mapping,
    so does [rebuild]. *)
Lemma rebuild_keeps_indices (vec : nat) w w2 :
  (forall w0 v, dict_to_vector w0 vec = Ok v ->
     Vector.indices v = Vector.indices (vectors w0 vec)) ->
  (forall w0 v, vector_names w0 vec = Ok v ->
     Vector.indices v = Vector.indices (vectors w0 vec)) ->
  Init.rebuild vec w = (Ok tt, w2) ->
  Vector.indices (vectors w2 vec) = Vector.indices (vectors w vec).
Proof.
  intros Hd Hn. unfold Init.rebuild. unfold_monad. unfold id.
  destruct (dict_to_vector w vec) as [v|e] eqn:Hv; [|done].
  destruct (vector_names (set_vector vec v w) vec) as [v'|e] eqn:Hv'; [|done].
  intros Hrun. inversion Hrun; subst w2. simpl. unfold upd.
  rewrite Nat.eqb_refl.
  rewrite (Hn _ _ Hv'). simpl. unfold upd. rewrite Nat.eqb_refl.
  by apply Hd.
Qed.

Lemma gamma_is_not_jit (suffix : string) :
  ("gamma" ++ suffix)%string <> ("jit" ++ suffix)%string.
Proof. simpl. discriminate. Qed.

Lemma prefix_underscore (suffix : string) :
  String.prefix "_" suffix = true <-> exists s, suffix = String "_" s.
Proof.
  rewrite String.prefix_correct.
  destruct suffix as [|c s]; cbn [String.length String.substring].
  - split; [discriminate|]. by intros [s Hs].
  - replace (String.substring 0 0 s) with EmptyString by (by destruct s).
    split.
    + intros Hc. inversion Hc. by exists s.
    + intros [s' Hs']. by inversion Hs'.
Qed.

Lemma underscore_grows (s : string) : String "_" s <> s.
Proof.
  intros Heq. apply (f_equal String.length) in Heq. simpl in Heq. lia.
Qed.

(** X21. When [RVLikelihood.__init__] returns (on a vector whose names have
    distinct slots below the number of rows, the methods of the vector
    object keeping the name-to-slot mapping): the offset and the jitter are
    named ['gamma' + suffix] and ['jit' + suffix]; [gamma_index] and
    [jit_index] are their slots in the vector, and they differ; names that
    had a slot keep it; [telvec] holds, once per time, the suffix without
    its leading underscore.  The key ['gamma_' + self.suffix], under which a
    [GPLikelihood] looks the offset up, is the name of the offset exactly
    when the suffix given starts with an underscore. *)
Theorem rv_init_names (oid : nat) (model : Model) (t vel errvel : list F)
    (suffix : string) (decorr_vars : list string)
    (decorr_vectors : list (string * list F)) w
    (self : RVLikelihood.t F Model) w' :
  let vec := model_vector model in
  slots_below (Vector.indices (vectors w vec))
    (length (Vector.vector (vectors w vec))) ->
  slots_distinct (Vector.indices (vectors w vec)) ->
  (forall w0 v, dict_to_vector w0 vec = Ok v ->
     Vector.indices v = Vector.indices (vectors w0 vec)) ->
  (forall w0 v, vector_names w0 vec = Ok v ->
     Vector.indices v = Vector.indices (vectors w0 vec)) ->
  Init.RVLikelihood__init__ oid model t vel errvel suffix decorr_vars
    decorr_vectors w = (Ok self, w') ->
  RVLikelihood.gamma_param self = ("gamma" ++ suffix)%string /\
  RVLikelihood.jit_param self = ("jit" ++ suffix)%string /\
  Likelihood.vector (RVLikelihood.base self) = vec /\
  assoc (RVLikelihood.gamma_param self) (Vector.indices (vectors w' vec))
    = Some (RVLikelihood.gamma_index self) /\
  assoc (RVLikelihood.jit_param self) (Vector.indices (vectors w' vec))
    = Some (RVLikelihood.jit_index self) /\
  RVLikelihood.gamma_index self <> RVLikelihood.jit_index self /\
  (forall k i, assoc k (Vector.indices (vectors w vec)) = Some i ->
     assoc k (Vector.indices (vectors w' vec)) = Some i) /\
  (forall k, k ∈ RVLikelihood.decorr_params self ->
     exists i, assoc k (Vector.indices (vectors w' vec)) = Some i) /\
  RVLikelihood.telvec self = map (fun _ => RVLikelihood.suffix self) t /\
  (("gamma_" ++ RVLikelihood.suffix self)%string
     = RVLikelihood.gamma_param self
   <-> String.prefix "_" suffix = true).
Proof.
  intros vec Hbelow Hdist Hkeepd Hkeepn Hinit.
  destruct (register_all_run vec (model_params model)
              [("gamma" ++ suffix)%string; ("jit" ++ suffix)%string]
              (if Nat.ltb 0 (length decorr_vars)
               then [] ++ map (fun d => ("c1_" ++ d ++ suffix)%string)
                            decorr_vars
               else []) w Hbelow Hdist)
    as (n' & w1 & Hall & _ & _ & _ & Hd1 & Hk1 & Hin1 & _).
  unfold Init.RVLikelihood__init__ in Hinit.
  apply bind_Ok_inv in Hinit as (b & wb & Hb & Hinit).
  rewrite (likelihood_init_run _ _ _ _ _ _ _ _ _ _ _ Hall) in Hb.
  fold vec in Hb.
  destruct (Init.rebuild vec w1) as [[[]|e] w2] eqn:Hre; [|done].
  inversion Hb; subst b wb; clear Hb.
  pose proof (rebuild_keeps_indices vec w1 w2 Hkeepd Hkeepn Hre) as Hidx.
  cbn [fst Likelihood.vector] in Hinit.
  unfold bind at 1, gets at 1 in Hinit.
  unfold bind at 1, lift at 1, dict_get at 1 in Hinit.
  destruct (assoc ("gamma" ++ suffix)%string (Vector.indices (vectors w2 vec)))
    as [gi|] eqn:Hgi; [|done].
  unfold bind at 1, lift at 1, dict_get at 1 in Hinit.
  destruct (assoc ("jit" ++ suffix)%string (Vector.indices (vectors w2 vec)))
    as [ji|] eqn:Hji; [|done].
  unfold ret in Hinit. inversion Hinit; subst self w'; clear Hinit.
  cbn [RVLikelihood.gamma_param RVLikelihood.jit_param RVLikelihood.base
       RVLikelihood.gamma_index RVLikelihood.jit_index RVLikelihood.telvec
       RVLikelihood.suffix RVLikelihood.decorr_params Likelihood.vector].
  rewrite Hidx in *.
  split; [done|]. split; [done|]. split; [done|].
  split; [done|]. split; [done|]. split.
  { intros ->. apply (gamma_is_not_jit suffix). by eapply Hd1. }
  split; [done|]. split.
  { intros k Hk. apply Hin1. apply elem_of_app. by right. }
  split; [done|].
  unfold Init.strip_suffix.
  destruct (String.prefix "_" suffix) eqn:Hp.
  - apply prefix_underscore in Hp as [s ->]. done.
  - split; [|discriminate].
    intros Heq. exfalso. cbn in Heq. inversion Heq as [Heq'].
    by apply (underscore_grows suffix).
Qed.

End LikelihoodInit.

Section DecorrNames.
Context {F K Model : Type} `{Num F} `{ModelAttrs F K Model}.

Lemma string_app_cons (c : ascii) (a b : string) :
  (String c a ++ b)%string = String c (a ++ b)%string.
Proof. reflexivity. Qed.

Lemma string_app_nil_r (s : string) : (s ++ "")%string = s.
Proof.
  induction s as [|c s IH]; [done|]. by rewrite string_app_cons, IH.
Qed.

Lemma string_app_assoc (a b c : string) :
  ((a ++ b) ++ c)%string = (a ++ b ++ c)%string.
Proof.
  induction a as [|x a IH]; [done|]. by rewrite !string_app_cons, IH.
Qed.

Lemma split_underscore_aux_skip (d rest : string) : forall cur,
  no_underscore d ->
  split_underscore_aux (d ++ rest) cur = split_underscore_aux rest (cur ++ d).
Proof.
  unfold no_underscore.
  induction d as [|c d IH]; intros cur Hd.
  - by rewrite string_app_nil_r.
  - rewrite string_app_cons. simpl in Hd.
    apply andb_true_iff in Hd as [Hc Hd].
    cbn [split_underscore_aux].
    destruct (Ascii.eqb c "_"); [done|].
    rewrite IH by done. by rewrite string_app_assoc.
Qed.

Lemma prefix_app (d s : string) : String.prefix d (d ++ s) = true.
Proof.
  induction d as [|c d IH]; [by destruct s|].
  rewrite string_app_cons. cbn [String.prefix].
  destruct (ascii_dec c c); [done|done].
Qed.

Lemma contains_after (a d s : string) : contains d (a ++ d ++ s) = true.
Proof.
  induction a as [|c a IH].
  - change ("" ++ d ++ s)%string with (d ++ s)%string.
    destruct (d ++ s)%string eqn:E; cbn [contains]; rewrite <- E;
      by rewrite prefix_app.
  - rewrite string_app_cons. cbn [contains].
    destruct (String.prefix d (String c (a ++ d ++ s))); [done|apply IH].
Qed.

(** X22. The name the constructor gives the decorrelation coefficient of a
    variable is read back by [residuals()]: for a variable [d] without
    underscore, and a suffix that is empty or starts with an underscore,
    ['c1_' + d + suffix] is a decorrelation parameter of the new object, its
    [split('_')[1]] is [d], and [d] occurs in it, so that the coefficient is
    picked up for the variable. *)
Theorem decorr_name_round_trip (oid : nat) (model : Model)
    (t vel errvel : list F) (suffix : string) (decorr_vars : list string)
    (decorr_vectors : list (string * list F)) w
    (self : RVLikelihood.t F Model) w' :
  Init.RVLikelihood__init__ oid model t vel errvel suffix decorr_vars
    decorr_vectors w = (Ok self, w') ->
  suffix = EmptyString \/ String.prefix "_" suffix = true ->
  forall d, d ∈ decorr_vars -> no_underscore d ->
    let parname := ("c1_" ++ d ++ suffix)%string in
    parname ∈ RVLikelihood.decorr_params self /\
    split_underscore parname !! 1 = Some d /\
    contains d parname = true /\
    RVLikelihood.decorr_vectors self = decorr_vectors.
Proof.
  intros Hinit Hsuffix d Hd Hno parname.
  unfold Init.RVLikelihood__init__ in Hinit.
  apply bind_Ok_inv in Hinit as (b & wb & _ & Hinit).
  apply bind_Ok_inv in Hinit as (v & wv & _ & Hinit).
  apply bind_Ok_inv in Hinit as (gi & wg & _ & Hinit).
  apply bind_Ok_inv in Hinit as (ji & wj & _ & Hinit).
  unfold ret in Hinit. inversion Hinit; subst self w'; clear Hinit.
  cbn [RVLikelihood.decorr_params RVLikelihood.decorr_vectors].
  split; [|split; [|split; [|done]]].
  - destruct decorr_vars as [|d0 ds]; [by apply elem_of_nil in Hd|].
    cbn [length Nat.ltb Nat.leb app].
    apply (list_elem_of_fmap_2 (fun d => ("c1_" ++ d ++ suffix)%string)).
    exact Hd.
  - unfold parname, split_underscore.
    change (split_underscore_aux ("c1_" ++ d ++ suffix) "")
      with ("c1" :: split_underscore_aux (d ++ suffix) "").
    rewrite split_underscore_aux_skip by done.
    destruct Hsuffix as [->|Hp].
    + done.
    + apply prefix_underscore in Hp as [s ->]. done.
  - apply (contains_after "c1_" d suffix).
Qed.

End DecorrNames.

Section Instruments.

Lemma elem_of_insert_sorted (x s : string) (l : list string) :
  x ∈ Init.insert_sorted s l <-> x = s \/ x ∈ l.
Proof.
  induction l as [|t l IH]; simpl.
  - rewrite list_elem_of_singleton. split; [by left|].
    intros [?|Hin]; [done|by apply elem_of_nil in Hin].
  - destruct (String.compare s t) eqn:Hc.
    + apply String.compare_eq_iff in Hc as ->.
      split; [by right|]. intros [->|?]; [by left|done].
    + by rewrite elem_of_cons.
    + rewrite !elem_of_cons, IH. tauto.
Qed.

Lemma elem_of_np_unique (x : string) (l : list string) :
  x ∈ Init.np_unique l <-> x ∈ l.
Proof.
  induction l as [|s l IH]; simpl; [done|].
  rewrite elem_of_insert_sorted, elem_of_cons, IH. done.
Qed.

Lemma last_hit_Some (mask : nat -> list bool) (is_ : list nat) (j i : nat) :
  last_hit mask is_ j = Some i -> i ∈ is_ /\ mask i !! j = Some true.
Proof.
  induction is_ as [|i0 is_ IH]; simpl; [done|].
  destruct (last_hit mask is_ j) as [i'|].
  - intros Hi. inversion Hi; subst i'. destruct IH as [? ?]; [done|].
    split; [by right|done].
  - destruct (decide (mask i0 !! j = Some true)); [|done].
    intros Hi. inversion Hi; subst i. split; [by left|done].
Qed.

Lemma last_hit_None (mask : nat -> list bool) (is_ : list nat) (j : nat) :
  last_hit mask is_ j = None ->
  forall i, i ∈ is_ -> mask i !! j <> Some true.
Proof.
  induction is_ as [|i0 is_ IH]; simpl; intros Hn i Hi.
  - by apply elem_of_nil in Hi.
  - destruct (last_hit mask is_ j) as [i'|]; [done|].
    destruct (decide (mask i0 !! j = Some true)); [done|].
    apply elem_of_cons in Hi as [->|Hi]; [done|by apply IH].
Qed.

(** The loop of masked assignments: a cell holds the value of the last index
    whose mask is set on it, or what it held before. *)
Lemma assign_each_spec {A : Type} (mask : nat -> list bool) (value : nat -> A)
    (is_ : list nat) : forall a : list A,
  (forall i, i ∈ is_ -> length (mask i) = length a) ->
  exists a',
    Init.assign_each mask value is_ a = Ok a' /\
    length a' = length a /\
    forall j u, a !! j = Some u ->
      a' !! j = Some (match last_hit mask is_ j with
                      | Some i => value i
                      | None => u
                      end).
Proof.
  induction is_ as [|i0 is_ IH]; intros a Hlen; simpl.
  { exists a. done. }
  unfold mask_assign. rewrite (Hlen i0) by (by left). rewrite Nat.eqb_refl.
  set (a1 := zip_with_ (fun (m : bool) u => if m then value i0 else u)
               (mask i0) a).
  assert (length a1 = length a) as Hl1.
  { unfold a1. rewrite zip_with__length; rewrite (Hlen i0); by try left. }
  destruct (IH a1) as (a' & Hrun & Hl' & Hspec).
  { intros i Hi. rewrite Hl1. apply Hlen. by right. }
  exists a'. split; [done|]. split; [lia|].
  intros j u Hu.
  destruct (lookup_lt_is_Some_2 (mask i0) j) as [m Hm].
  { rewrite (Hlen i0) by (by left). by eapply lookup_lt_Some. }
  rewrite (Hspec j (if m then value i0 else u)).
  2: { exact (zip_with__lookup (fun (m : bool) u => if m then value i0 else u)
                _ _ _ _ _ Hm Hu). }
  destruct (last_hit mask is_ j); [done|].
  rewrite Hm. destruct m.
  - by rewrite decide_True.
  - by rewrite decide_False.
Qed.

(** X23. The instrument bookkeeping of [GPLikelihood.__init__], for one
    label per data point: [insts] holds the labels of [telvec], each once;
    every data point receives, in [inst_indices], the position of its own
    label in [insts], and in [amp_array] the name ['gp_amp_' + label]; so
    that no cell keeps its initial content. *)
Theorem gp_init_instruments (N : nat) (telvec : list string) :
  length telvec = N ->
  exists insts inds amps,
    Init.instruments N telvec = Ok (insts, inds, amps) /\
    (forall tel, tel ∈ insts <-> tel ∈ telvec) /\
    length inds = N /\
    length amps = N /\
    forall j tel, telvec !! j = Some tel ->
      exists i,
        inds !! j = Some i /\
        insts !! i = Some tel /\
        amps !! j = Some (Some ("gp_amp_" ++ tel)%string).
Proof.
  intros HN. unfold Init.instruments. cbv zeta.
  set (insts := Init.np_unique telvec).
  set (inst_at := fun i => default EmptyString (insts !! i)).
  set (mask1 := fun i => map (fun tel => String.eqb tel (inst_at i)) telvec).
  destruct (assign_each_spec mask1 (fun i => i) (seq 0 (length insts))
              (seq 0 N)) as (inds & Hrun1 & Hl1 & Hspec1).
  { intros i _. unfold mask1. by rewrite length_map, length_seq. }
  unfold mask1, inst_at in Hrun1. rewrite Hrun1. rewrite length_seq in Hl1.
  set (mask2 := fun i => map (fun j => Nat.eqb j i) inds).
  destruct (assign_each_spec mask2
              (fun i => Some ("gp_amp_" ++ inst_at i)%string)
              (seq 0 (length insts))
              (map (fun _ => @None string) (seq 0 N)))
    as (amps & Hrun2 & Hl2 & Hspec2).
  { intros i _. unfold mask2. by rewrite !length_map, length_seq. }
  unfold inst_at in Hrun2. rewrite Hrun2.
  rewrite length_map, length_seq in Hl2.
  exists insts, inds, amps. split; [done|].
  split; [intros tel; apply elem_of_np_unique|].
  split; [done|]. split; [done|].
  intros j tel Hj.
  assert (j < N) as HjN by (rewrite <- HN; by eapply lookup_lt_Some).
  (* the position of the label *)
  assert (exists i, inds !! j = Some i /\ insts !! i = Some tel) as (i & Hi & Hinst).
  { rewrite (Hspec1 j j) by (by apply lookup_seq_lt).
    destruct (last_hit mask1 (seq 0 (length insts)) j) as [i|] eqn:Hhit.
    - apply last_hit_Some in Hhit as [Hin Hm].
      exists i. split; [done|].
      unfold mask1 in Hm. rewrite list_lookup_fmap, Hj in Hm. simpl in Hm.
      inversion Hm as [Heq]. apply String.eqb_eq in Heq.
      apply elem_of_seq in Hin.
      destruct (lookup_lt_is_Some_2 insts i) as [s Hs]; [lia|].
      unfold inst_at in Heq. rewrite Hs in Heq. simpl in Heq. by subst s.
    - exfalso.
      assert (tel ∈ insts) as Hin.
      { apply elem_of_np_unique. by eapply list_elem_of_lookup_2. }
      apply list_elem_of_lookup_1 in Hin as [i0 Hi0].
      apply (last_hit_None _ _ _ Hhit i0).
      + apply elem_of_seq. apply lookup_lt_Some in Hi0. lia.
      + unfold mask1. rewrite list_lookup_fmap, Hj. simpl.
        unfold inst_at. rewrite Hi0. simpl. by rewrite String.eqb_refl. }
  exists i. split; [done|]. split; [done|].
  rewrite (Hspec2 j None).
  2: { rewrite list_lookup_fmap, lookup_seq_lt by done. done. }
  destruct (last_hit mask2 (seq 0 (length insts)) j) as [i'|] eqn:Hhit.
  - apply last_hit_Some in Hhit as [_ Hm].
    unfold mask2 in Hm. rewrite list_lookup_fmap, Hi in Hm. simpl in Hm.
    inversion Hm as [Heq]. apply Nat.eqb_eq in Heq. subst i'.
    unfold inst_at. by rewrite Hinst.
  - exfalso. apply (last_hit_None _ _ _ Hhit i).
    + apply elem_of_seq. apply lookup_lt_Some in Hinst. lia.
    + unfold mask2. rewrite list_lookup_fmap, Hi. simpl.
      by rewrite Nat.eqb_refl.
Qed.

End Instruments.

(** ** The constructors on concrete objects *)

Lemma fresh_slots_below :
  slots_below (Vector.indices (vectors Sample.w_fresh 0))
    (length (Vector.vector (vectors Sample.w_fresh 0))).
Proof.
  intros k i. simpl. destruct (String.eqb k "k1"); [|done].
  intros Hi. inversion Hi. lia.
Qed.

Lemma fresh_slots_distinct :
  slots_distinct (Vector.indices (vectors Sample.w_fresh 0)).
Proof.
  intros k1 k2 i. simpl.
  destruct (String.eqb_spec k1 "k1") as [->|]; [|done].
  destruct (String.eqb_spec k2 "k1") as [->|]; done.
Qed.

Lemma sample_dict_to_vector_keeps (w0 : World xnum unit) (v : Vector.t xnum) :
  dict_to_vector (Model:=Example.Model) w0 0 = Ok v ->
  Vector.indices v = Vector.indices (vectors w0 0).
Proof. simpl. intros Hv. by inversion Hv. Qed.

Lemma sample_vector_names_keeps (w0 : World xnum unit) (v : Vector.t xnum) :
  vector_names (Model:=Example.Model) w0 0 = Ok v ->
  Vector.indices v = Vector.indices (vectors w0 0).
Proof. simpl. intros Hv. by inversion Hv. Qed.

Lemma likelihood_init_registers_witness :
  exists n' w1,
    Init.register_all 0 0 ["gamma"; "jit"] ["c1_bis"] Sample.w_fresh
      = (Ok n', w1) /\
    1 <= n' <= 4 /\
    assoc "k1" (Vector.indices (vectors w1 0)) = Some 0 /\
    (exists i, assoc "c1_bis" (Vector.indices (vectors w1 0)) = Some i).
Proof.
  destruct (likelihood_init_registers 0 (fun x : list xnum => x) [] [] []
              ["gamma"; "jit"] ["c1_bis"] [] Sample.w_fresh
              fresh_slots_below fresh_slots_distinct)
    as (n' & w1 & Hall & _ & _ & Hn & _ & _ & Hold & Hkeys & _).
  exists n', w1. split; [exact Hall|]. split; [exact Hn|].
  split; [exact (Hold "k1" 0 eq_refl)|].
  destruct (Hkeys "c1_bis") as [Hslot _]; [|exact Hslot].
  do 2 right. by left.
Defined.

Lemma rv_init_names_witness :
  exists self w',
    Init.RVLikelihood__init__ 0 (fun x : list xnum => x)
      [Example.num 0; Example.num 1] [Example.num 3; Example.num 5]
      [Example.num 1; Example.num 1] "_hires" ["bis"]
      [("bis", [Example.num 2; Example.num 4])] Sample.w_fresh
      = (Ok self, w') /\
    RVLikelihood.gamma_index self <> RVLikelihood.jit_index self /\
    RVLikelihood.telvec self = ["hires"; "hires"] /\
    ("gamma_" ++ RVLikelihood.suffix self)%string
      = RVLikelihood.gamma_param self.
Proof.
  eassert (Init.RVLikelihood__init__ 0 (fun x : list xnum => x)
             [Example.num 0; Example.num 1] [Example.num 3; Example.num 5]
             [Example.num 1; Example.num 1] "_hires" ["bis"]
             [("bis", [Example.num 2; Example.num 4])] Sample.w_fresh
           = (Ok _, _)) as Hinit by (vm_compute; reflexivity).
  destruct (rv_init_names 0 (fun x : list xnum => x) _ _ _ _ _ _
              Sample.w_fresh _ _
              fresh_slots_below fresh_slots_distinct
              sample_dict_to_vector_keeps sample_vector_names_keeps Hinit)
    as (_ & _ & _ & _ & _ & Hne & _ & _ & Htel & Hkey).
  eexists _, _. split; [exact Hinit|]. split; [exact Hne|].
  split; [exact Htel|]. apply Hkey. reflexivity.
Defined.

Lemma decorr_name_round_trip_witness :
  exists self w',
    Init.RVLikelihood__init__ 0 (fun x : list xnum => x)
      [Example.num 0; Example.num 1] [Example.num 3; Example.num 5]
      [Example.num 1; Example.num 1] "_hires" ["bis"]
      [("bis", [Example.num 2; Example.num 4])] Sample.w_fresh
      = (Ok self, w') /\
    "c1_bis_hires" ∈ RVLikelihood.decorr_params self /\
    split_underscore "c1_bis_hires" !! 1 = Some "bis".
Proof.
  eassert (Init.RVLikelihood__init__ 0 (fun x : list xnum => x)
             [Example.num 0; Example.num 1] [Example.num 3; Example.num 5]
             [Example.num 1; Example.num 1] "_hires" ["bis"]
             [("bis", [Example.num 2; Example.num 4])] Sample.w_fresh
           = (Ok _, _)) as Hinit by (vm_compute; reflexivity).
  destruct (decorr_name_round_trip _ _ _ _ _ _ _ _ _ _ _ Hinit
              (or_intror eq_refl) "bis") as (Hin & Hsplit & _ & _).
  - by left.
  - reflexivity.
  - eexists _, _. split; [exact Hinit|]. split; [exact Hin|exact Hsplit].
Defined.

Lemma gp_init_instruments_witness :
  exists insts inds amps,
    Init.instruments 3 ["hires"; "apf"; "hires"] = Ok (insts, inds, amps) /\
    (forall tel, tel ∈ insts <-> tel ∈ ["hires"; "apf"; "hires"]) /\
    length inds = 3 /\
    length amps = 3 /\
    forall j tel, ["hires"; "apf"; "hires"] !! j = Some tel ->
      exists i,
        inds !! j = Some i /\
        insts !! i = Some tel /\
        amps !! j = Some (Some ("gp_amp_" ++ tel)%string).
Proof.
  exact (gp_init_instruments 3 ["hires"; "apf"; "hires"] eq_refl).
Defined.

(** ** The frame and the order of the calls on concrete objects *)

Lemma rv_only_write_is_the_offset_witness :
  snd (RVLikelihood.residuals Example.rv3 Example.w_fixed) = Example.w_fixed /\
  snd (RVLikelihood.logprob Example.rv3 Example.w_fixed) = Example.w_fixed.
Proof.
  destruct (rv_only_write_is_the_offset Example.rv3 Example.w_fixed)
    as (_ & _ & Hfixed).
  apply (Hfixed (Example.row 2 0 0)); reflexivity.
Defined.

Lemma composite_residuals_concatenates_witness :
  exists rs w',
    CompositeLikelihood.residuals Example.composite_AB Example.w_linear
      = (Ok (concat rs), w') /\
    length rs = 2.
Proof.
  eassert (run_in_order RVLikelihood.residuals [Example.rvA; Example.rvB]
             Example.w_linear _ _) as Hrun.
  { eapply run_cons; [vm_compute; reflexivity|].
    eapply run_cons; [vm_compute; reflexivity|]. apply run_nil. }
  eexists _, _. split.
  - apply (proj1 (composite_residuals_concatenates Example.composite_AB
                    Example.w_linear) _ _); [done|exact Hrun].
  - reflexivity.
Defined.

Lemma composite_errorbars_concatenates_witness :
  CompositeLikelihood.errorbars Example.composite_AB Example.w_fixed =
    (Ok (concat (map (errorbars_of Example.w_fixed)
                   [Example.rvA; Example.rvB])), Example.w_fixed) /\
  CompositeLikelihood.errorbars Sample.composite_bad Example.w_fixed =
    (Raise IndexError, Example.w_fixed).
Proof.
  split.
  - apply (proj1 (composite_errorbars_concatenates Example.composite_AB
                    Example.w_fixed)); [done|].
    intros l Hl. apply elem_of_cons in Hl as [->|Hl].
    + eexists. reflexivity.
    + apply list_elem_of_singleton in Hl as ->. eexists. reflexivity.
  - apply (proj2 (composite_errorbars_concatenates Sample.composite_bad
                    Example.w_fixed) [Example.rvA] Sample.rv_bad [Example.rvB]).
    + reflexivity.
    + intros l Hl. apply list_elem_of_singleton in Hl as ->.
      eexists. reflexivity.
    + reflexivity.
Defined.

Lemma gp_predict_frame_witness :
  vectors (snd (GPLikelihood.predict Example.gp_j [Example.num 0] None
                  (Example.w_gp 1 0)))
    = vectors (Example.w_gp 1 0).
Proof.
  exact (proj1 (proj1 (gp_predict_frame Example.gp_j [Example.num 0] None
                         (Example.w_gp 1 0)) _ _ (surjective_pairing _))).
Defined.

Lemma gp_logprob_outcomes_witness :
  exists l w1,
    GPLikelihood.logprob Example.gp_j (Example.w_gp 1 0) = (Ok l, w1) /\
    warnings w1 = [].
Proof.
  eassert (GPLikelihood.prepare Example.gp_j (Example.w_gp 1 0)
           = (Ok (_, _), _)) as Hprep by (vm_compute; reflexivity).
  destruct (gp_logprob_outcomes Example.gp_j (Example.w_gp 1 0))
    as (Hbody & _ & _).
  eexists _, _. split.
  - rewrite (Hbody _ _ _ Hprep). vm_compute. reflexivity.
  - reflexivity.
Defined.

(** ** Exact and rounded subtraction *)

Lemma gp_residuals_differ_by_mean_witness :
  exists g r mu sd w1,
    GPLikelihood.predict Example.gp_j
      (Likelihood.x (GPLikelihood.self_base Example.gp_j)) None
      (Example.w_gp 1 0) = (Ok (mu, sd), w1) /\
    GPLikelihood.gammas_of Example.gp_j w1 = (Ok g, w1) /\
    g !! 2 = Some (instrument_offset Example.gp_j w1 0) /\
    GPLikelihood._resids Example.gp_j w1 = (Ok r, w1) /\
    GPLikelihood.residuals Example.gp_j (Example.w_gp 1 0) =
      (Ok (zip_with_ fsub r mu), w1).
Proof.
  eassert (GPLikelihood.predict Example.gp_j
             (Likelihood.x (GPLikelihood.self_base Example.gp_j)) None
             (Example.w_gp 1 0) = (Ok (_, _), _)) as Hpred
    by (vm_compute; reflexivity).
  match type of Hpred with
  | _ = (Ok (?mu, ?sd), ?w1) =>
      eassert (GPLikelihood.y_minus_model Example.gp_j w1 = (Ok _, w1)) as Hd
        by (vm_compute; reflexivity)
  end.
  destruct (gp_residuals_differ_by_mean _ _ _ _ _ _ Hpred Hd
              eq_refl eq_refl)
    as [(g & r & _ & Hg & _ & Hpin & Hr & _ & _ & Hres) _].
  eexists g, r, _, _, _. split; [exact Hpred|]. split; [exact Hg|].
  split; [apply (Hpin 2 0 eq_refl); simpl; lia|].
  split; [exact Hr|exact (Hres xsub_swap)].
Defined.

Section Rounding.
Import Binary64.

(** In binary64 the two orders of subtraction do not agree.  One point with
    [y = 0.1], a model that is zero, an offset of [0.2], a GP amplitude of 1
    and an error bar of 1: [_resids()] is [0.1 - 0.2], the mean of [predict]
    is half of it, and [residuals()], which is [(0.1 - mu) - 0.2], is not
    [_resids() - mu]: the two differ in the last place. *)
Lemma gp_residuals_not_exact :
  match fst (GPLikelihood.residuals gp_j w_gp),
        GPLikelihood.predict gp_j
          (Likelihood.x (GPLikelihood.self_base gp_j)) None w_gp with
  | Ok res, (Ok (mu, _), w1) =>
      match fst (GPLikelihood._resids gp_j w1) with
      | Ok r =>
          r = [PrimFloat.sub (q2f (1 # 10)) (q2f (2 # 10))] /\
          mu = [PrimFloat.div (PrimFloat.sub (q2f (1 # 10)) (q2f (2 # 10)))
                  (z2f 2)] /\
          length res = 1 /\
          map isfinite res = [true] /\
          map isfinite (zip_with_ PrimFloat.sub r mu) = [true] /\
          zip_with_ PrimFloat.eqb res (zip_with_ PrimFloat.sub r mu) = [false]
      | Raise _ => False
      end
  | _, _ => False
  end.
Proof. vm_compute. repeat split. Qed.

Lemma loglike_jitter_shapes_witness :
  loglike_jitter [Example.num 1; Example.num 2; Example.num 3]
    [Example.num 1; Example.num 2] (NpFloat (Example.num 0))
    = Raise ValueError /\
  (exists l,
     loglike_jitter [Example.num 3; Example.num 4] [Example.num 1]
       (NpFloat (Example.num 0)) = Ok l) /\
  loglike_jitter [z2f 1] [z2f 1] (PyFloat (z2f (2 ^ 600)))
    = Raise OverflowError /\
  loglike_jitter [z2f 1] [z2f 1] (PyFloat (z2f 3))
    = loglike_jitter [z2f 1] [z2f 1] (NpFloat (z2f 3)).
Proof.
  split; [|split; [|split]].
  - apply (loglike_jitter_shapes
             [Example.num 1; Example.num 2; Example.num 3]
             [Example.num 1; Example.num 2] (Example.num 0)); simpl; lia.
  - apply (loglike_jitter_shapes [Example.num 3; Example.num 4]
             [Example.num 1] (Example.num 0)).
    right. right. reflexivity.
  - apply (loglike_jitter_shapes [z2f 1] [z2f 1] (z2f (2 ^ 600)));
      vm_compute; reflexivity.
  - apply (loglike_jitter_shapes [z2f 1] [z2f 1] (z2f 3)).
    right. vm_compute. reflexivity.
Defined.

End Rounding.
